(** * Ozone: TEMPO grid regridder and temporal aggregator

    A shallow embedding of the numerical core of
    [Server/py/tempo_to_json.py] and
    [Server/py/build_tempo_forecast_summaries.py], and the properties of
    the specification checked against it.

    Number model.  A NumPy [float64] cell is a value of [float]: a finite
    number, one of the two infinities, or NaN (the "missing" marker of the
    specification).  Finite numbers are exact rationals ([Qc], canonical
    fractions, so that Leibniz equality is numeric equality); rounding of
    binary64 arithmetic is outside this model.  Where rounding decides an
    outcome, the longitude normalization and the local hour, the code is
    embedded a second time in [Binary64], on IEEE 754 binary64 numbers,
    and the statements say which of the two they are about.  Python
    [int]s are [Z], NumPy [int32] counters are [Z] with the wrap-around
    written out.

    Array model.  A 2-D [ndarray] is the list of its rows.  Functions that
    can raise return a [result]. *)

From Stdlib Require Import QArith Qcanon Qround ZArith Lia Lqa.
From Stdlib Require Qcabs.
From Stdlib Require SpecFloat.
From stdpp Require Import base numbers list sorting strings gmap.

Local Open Scope Qc_scope.

(** ** Exceptions *)

Inductive exn : Type :=
| ValueError
| KeyError
| IndexError
| ZeroDivisionError.

Inductive result (A : Type) : Type :=
| Ok (a : A)
| Raise (e : exn).
Arguments Ok {A} a.
Arguments Raise {A} e.

Definition rbind {A B} (m : result A) (k : A → result B) : result B :=
  match m with
  | Ok a => k a
  | Raise e => Raise e
  end.

Notation "x ←ᵣ m ; k" := (rbind m (λ x, k))
  (at level 20, m at level 100, k at level 200, only parsing).

Global Instance exn_eq_dec : EqDecision exn.
Proof. solve_decision. Defined.
Global Instance result_eq_dec `{EqDecision A} : EqDecision (result A).
Proof. solve_decision. Defined.

(** ** NumPy primitives *)

Module Np.

(** [float64] values. *)
Inductive float : Type :=
| Fin (q : Qc)
| PInf
| NInf
| NaN.

Global Instance float_eq_dec : EqDecision float.
Proof. solve_decision. Defined.

Abbreviation ndarray := (list (list float)).

Definition of_Z (n : Z) : float := Fin (Qc_of_Z n).

(** [np.isfinite] *)
Definition isfinite (x : float) : bool :=
  match x with Fin _ => true | _ => false end.

(** [np.isnan] *)
Definition isnan (x : float) : bool :=
  match x with NaN => true | _ => false end.

(** IEEE comparison [x < y]: false as soon as a NaN is involved. *)
Definition lt (x y : float) : bool :=
  match x, y with
  | NaN, _ | _, NaN => false
  | Fin a, Fin b => bool_decide (a < b)
  | NInf, (Fin _ | PInf) => true
  | Fin _, PInf => true
  | _, _ => false
  end.

(** IEEE comparison [x <= y]. *)
Definition le (x y : float) : bool :=
  match x, y with
  | NaN, _ | _, NaN => false
  | Fin a, Fin b => bool_decide (a ≤ b)
  | NInf, _ => true
  | _, PInf => true
  | _, _ => false
  end.

Definition gt (x y : float) : bool := lt y x.

(** IEEE addition. *)
Definition add (x y : float) : float :=
  match x, y with
  | NaN, _ | _, NaN => NaN
  | Fin a, Fin b => Fin (a + b)
  | PInf, NInf | NInf, PInf => NaN
  | PInf, _ | _, PInf => PInf
  | NInf, _ | _, NInf => NInf
  end.

(** Division of a float by a count (a non-negative integer), as in
    [sum / n]: a zero count gives NaN for a zero sum and an infinity
    otherwise. *)
Definition div_count (x : float) (n : Z) : float :=
  match x with
  | NaN => NaN
  | Fin a =>
      if bool_decide (n = 0%Z)
      then (if bool_decide (a = 0) then NaN
            else if bool_decide (0 < a) then PInf else NInf)
      else Fin (a / Qc_of_Z n)
  | PInf => PInf
  | NInf => NInf
  end.

(** [a.shape] of a 2-D array given by its rows. *)
Definition shape {A} (a : list (list A)) : nat * nat :=
  (length a, match a with [] => 0%nat | r :: _ => length r end).

(** Every row has [w] columns. *)
Definition rect {A} (w : nat) (a : list (list A)) : Prop :=
  Forall (λ r, length r = w) a.

(** [a[r, c]] *)
Definition cell {A} (a : list (list A)) (r c : nat) : option A :=
  a !! r ≫= (.!! c).

(** [A[mask] = v] where [mask = p(A)] elementwise. *)
Definition mask_assign (p : float → bool) (v : float) (a : ndarray) : ndarray :=
  map (map (λ x, if p x then v else x)) a.

(** [np.any] of a 2-D boolean array. *)
Definition any (m : list (list bool)) : bool :=
  existsb (existsb id) m.

(** [np.full((H, W), v)] *)
Definition full {A} (H W : nat) (v : A) : list (list A) :=
  replicate H (replicate W v).

(** Elementwise combination of two 2-D arrays of one shape. *)
Definition zip_with2 {A B C} (f : A → B → C)
    (a : list (list A)) (b : list (list B)) : list (list C) :=
  zip_with (zip_with f) a b.

(** The two arrays have the same number of rows and, row by row, the same
    number of columns. *)
Definition same_shape {A B} (a : list (list A)) (b : list (list B)) : bool :=
  bool_decide (map length a = map length b).

(** [np.mod(x, m)] for a positive modulus, [x - m * floor(x / m)]: the
    result lies in [[0, m)]. *)
Definition mod_ (x m : Qc) : Qc :=
  x - m * Qc_of_Z (Qfloor (x / m)).

(** A stable sort by insertion ([lt_key x y] reads "[x] sorts strictly
    before [y]"): the order that Python's [list.sort] produces.  For
    [np.argsort] it is the order on arrays without ties; among equal
    values NumPy's default sort promises no order, and what is stated of
    [argsort] below holds for every order of the ties. *)
Fixpoint insert_stable {A} (lt_key : A → A → bool) (x : A) (l : list A) : list A :=
  match l with
  | [] => [x]
  | y :: l' =>
      if lt_key y x then y :: insert_stable lt_key x l' else x :: l
  end.

Definition stable_sort {A} (lt_key : A → A → bool) (l : list A) : list A :=
  foldr (insert_stable lt_key) [] l.

(** [np.argsort(v)]: the indices of [v], sorted by the value they point
    to, ties kept in index order. *)
Definition argsort (v : list Qc) : list nat :=
  stable_sort (λ i j, bool_decide (nth i v 0 < nth j v 0)) (seq 0 (length v)).

(** [np.searchsorted(a, v)] (side [left]) on an ascending array: the first
    index [i] with [v <= a[i]], or [len(a)]. *)
Fixpoint searchsorted (a : list Qc) (v : Qc) : nat :=
  match a with
  | [] => 0
  | x :: a' => if bool_decide (x < v) then S (searchsorted a' v) else 0
  end.

(** [np.clip(i, lo, hi)] is [minimum(maximum(i, lo), hi)]. *)
Definition clip (i lo hi : Z) : Z := Z.min (Z.max i lo) hi.

(** Python indexing [l[i]]: a negative index counts from the end, an index
    out of range raises [IndexError]. *)
Definition py_index {A} (l : list A) (i : Z) : result A :=
  let n := Z.of_nat (length l) in
  let k := if bool_decide (i < 0)%Z then (i + n)%Z else i in
  if bool_decide (0 ≤ k < n)%Z
  then match l !! Z.to_nat k with Some x => Ok x | None => Raise IndexError end
  else Raise IndexError.

(** [mapM] in the [result] monad. *)
Fixpoint rmapM {A B} (f : A → result B) (l : list A) : result (list B) :=
  match l with
  | [] => Ok []
  | x :: l' => y ←ᵣ f x; ys ←ᵣ rmapM f l'; Ok (y :: ys)
  end.

(** Wrap-around of a NumPy [int32]. *)
Definition wrap32 (n : Z) : Z := ((n + 2 ^ 31) mod 2 ^ 32 - 2 ^ 31)%Z.

(** [np.nanmean] of a 1-D slice: NaNs are dropped, the rest (infinities
    included) is averaged; an all-NaN slice gives NaN. *)
Definition nanmean (l : list float) : float :=
  let kept := filter (λ x, isnan x = false) l in
  match kept with
  | [] => NaN
  | _ => div_count (foldl add (of_Z 0) kept) (Z.of_nat (length kept))
  end.

(** IEEE negation, subtraction and absolute value.  Finite numbers are
    unbounded here: a difference of two finite numbers is finite, where
    binary64 overflows to an infinity beyond [2^1024]. *)
Definition neg (x : float) : float :=
  match x with
  | Fin a => Fin (- a)
  | PInf => NInf
  | NInf => PInf
  | NaN => NaN
  end.

Definition sub (x y : float) : float := add x (neg y).

Definition abs (x : float) : float :=
  match x with
  | Fin a => Fin (Qcabs.Qcabs a)
  | PInf | NInf => PInf
  | NaN => NaN
  end.

(** [np.diff(v)]: [v[i+1] - v[i]]. *)
Definition diff (v : list float) : list float :=
  zip_with (λ a b, sub b a) v (tail v).

(** [a[np.isfinite(a)]]: the finite entries of a 1-D array, in order. *)
Definition finite_values (a : list float) : list Qc :=
  omap (λ x, match x with Fin q => Some q | _ => None end) a.

(** [np.median] of a non-empty array of finite numbers: the middle entry
    of the sorted array, or the mean of the two middle entries. *)
Definition median (l : list Qc) : Qc :=
  let s := stable_sort (λ a b, bool_decide (a < b)) l in
  let n := length s in
  if Nat.even n
  then (nth (n / 2 - 1) s 0 + nth (n / 2) s 0) / Qc_of_Z 2
  else nth (n / 2) s 0.

(** [arr.mean()] of a 1-D array of finite numbers. *)
Definition mean (l : list Qc) : Qc :=
  foldr Qcplus 0 l / Qc_of_Z (Z.of_nat (length l)).

(** [np.maximum], [np.minimum] (a NaN operand gives NaN) and
    [np.clip(x, lo, hi) = minimum(maximum(x, lo), hi)] on floats. *)
Definition maximum (x y : float) : float :=
  if isnan x || isnan y then NaN else if lt x y then y else x.

Definition minimum (x y : float) : float :=
  if isnan x || isnan y then NaN else if lt y x then y else x.

Definition fclip (x lo hi : float) : float := minimum (maximum x lo) hi.

(** Rounding to the nearest integer, halves to the even one: Python's
    [round(x)] and NumPy's [rint]. *)
Definition round_half_even (q : Qc) : Z :=
  let f := Qfloor q in
  let r := q - Qc_of_Z f in
  if bool_decide (r < Qc_of_Z 1 / Qc_of_Z 2) then f
  else if bool_decide (Qc_of_Z 1 / Qc_of_Z 2 < r) then (f + 1)%Z
  else if Z.even f then f else (f + 1)%Z.

(** The magnitude from which a binary64 result is rounded to an
    infinity: [2^1024 - 2^970], half a unit above the largest number. *)
Definition overflow_from : Qc := Qc_of_Z (2 ^ 1024 - 2 ^ 970).

(** [np.round(x, decimals)] for [0 <= decimals <= 22], where
    [10^decimals] is a binary64 number: scale, round, scale back; a
    non-finite value is kept.  The product [x * 10^decimals] is formed
    first and overflows to an infinity for a large [x]. *)
Definition round_decimals (decimals : nat) (x : float) : float :=
  match x with
  | Fin q =>
      let scale := Qc_of_Z (10 ^ Z.of_nat decimals) in
      let scaled := q * scale in
      if bool_decide (overflow_from ≤ Qcabs.Qcabs scaled)
      then (if bool_decide (0 < q) then PInf else NInf)
      else Fin (Qc_of_Z (round_half_even scaled) / scale)
  | _ => x
  end.

End Np.
Import Np.

Definition e16 : Z := (10 ^ 16)%Z.
Definition e20 : Z := (10 ^ 20)%Z.

(** ** [tempo_to_json.py] *)

Module TempoToJson.

(** An entry of [PRODUCTS]. *)
Record Product : Type := mkProduct {
  var : string;
  unit_hint : string;
  uses_cloud : bool;
  product_allow_zero : bool;
  product_hard_min : Qc;
  product_hard_max : Qc
}.

Definition PRODUCTS : gmap string Product :=
  <["no2" := mkProduct "product/vertical_column_troposphere" "molec/cm2"
               true false 0 (Qc_of_Z (5 * e16))]>
  (<["hcho" := mkProduct "product/vertical_column" "molec/cm2"
               true false 0 (Qc_of_Z (3 * e16))]>
  (<["o3tot" := mkProduct "product/column_amount_o3" "DU"
               true true 0 (Qc_of_Z 700)]>
  (<["cldo4" := mkProduct "product/cloud_fraction" "fraction"
               false true 0 (Qc_of_Z 1)]> ∅))).

(** [ABSURD_NEG = -1e20], [ABSURD_POS = 1e20] *)
Definition ABSURD_NEG : float := of_Z (- e20).
Definition ABSURD_POS : float := of_Z e20.

(** [normalize_lon_and_align(lon1d, arr2d)].  An axis is a list of finite
    degrees.  The shape test [arr2d.shape[1] != lon1d.size] reads, on the
    rows of a rectangular array, "some row has not [lon1d.size] cells".
    [lon_norm] is the normalization in exact arithmetic; its binary64
    evaluation is [Binary64.lon_norm]. *)
Definition lon_norm (lon1d : list Qc) : list Qc :=
  map (λ l, mod_ (l + Qc_of_Z 180) (Qc_of_Z 360) - Qc_of_Z 180) lon1d.

Definition normalize_lon_and_align (lon1d : list Qc) (arr2d : ndarray)
  : result (list Qc * ndarray) :=
  let lon_norm := lon_norm lon1d in
  let order := argsort lon_norm in
  let lon_sorted := map (λ i, nth i lon_norm 0) order in
  if negb (forallb (λ row, length row =? length lon1d)%nat arr2d)
  then Raise ValueError
  else
    let arr_sorted := map (λ row, map (λ i, nth i row NaN) order) arr2d in
    Ok (lon_sorted, arr_sorted).

(** [arr.reshape(n1, n2, n3, n4)] of an [(n1*n2) x (n3*n4)] array:
    [d[i][p][j][q] = arr[i*n2 + p][j*n4 + q]]. *)
Definition reshape4 (arr : ndarray) (n1 n2 n3 n4 : nat)
  : list (list (list (list float))) :=
  map (λ i,
    map (λ p,
      map (λ j,
        map (λ q, nth (j * n4 + q) (nth (i * n2 + p) arr []) NaN) (seq 0 n4))
      (seq 0 n3))
    (seq 0 n2))
  (seq 0 n1).

(** [np.nanmean(d, axis=3)] *)
Definition nanmean_axis3 (d : list (list (list (list float))))
  : list (list (list float)) :=
  map (map (map nanmean)) d.

(** [np.nanmean(m, axis=1)] of an array of shape [(n1, n2, n3)] *)
Definition nanmean_axis1 (n3 : nat) (m : list (list (list float))) : ndarray :=
  map (λ blk, map (λ j, nanmean (map (λ row, nth j row NaN) blk)) (seq 0 n3)) m.

(** [block_reduce_mean(arr, by_y, by_x)]; the block factors are natural
    numbers, [h // 0] raises [ZeroDivisionError]. *)
Definition block_reduce_mean (arr : ndarray) (by_y by_x : nat) : result ndarray :=
  let '(h, w) := shape arr in
  if bool_decide (by_y = 0 ∨ by_x = 0)%nat then Raise ZeroDivisionError else
  let H := (h / by_y * by_y)%nat in
  let W := (w / by_x * by_x)%nat in
  if bool_decide (H = 0 ∨ W = 0)%nat then Raise ValueError else
  let d := reshape4 (map (take W) (take H arr)) (H / by_y) by_y (W / by_x) by_x in
  Ok (nanmean_axis1 (W / by_x) (nanmean_axis3 d)).

(** [reindex_to(lat_src, lon_src, src, lat_dst, lon_dst)] *)
Definition reindex_to (lat_src lon_src : list Qc) (src : ndarray)
    (lat_dst lon_dst : list Qc) : result ndarray :=
  let iy := map (λ v, Z.of_nat (searchsorted lat_src v)) lat_dst in
  let ix := map (λ v, Z.of_nat (searchsorted lon_src v)) lon_dst in
  let iy := map (λ i, clip i 0 (Z.of_nat (length lat_src) - 1)) iy in
  let ix := map (λ i, clip i 0 (Z.of_nat (length lon_src) - 1)) ix in
  rmapM (λ y, row ←ᵣ py_index src y; rmapM (λ x, py_index row x) ix) iy.

(** [_sanitize_array_for_product(arr, product)]: [PRODUCTS[product]]
    raises [KeyError] for an id that is not a key. *)
Definition _sanitize_array_for_product (arr : ndarray) (product : string)
  : result ndarray :=
  match PRODUCTS !! product with
  | None => Raise KeyError
  | Some spec =>
      let allow_zero := product_allow_zero spec in
      let hard_min := Fin (product_hard_min spec) in
      let hard_max := Fin (product_hard_max spec) in
      let A := arr in
      let A := mask_assign (λ x, negb (isfinite x)) NaN A in
      let A := mask_assign (λ x, lt x ABSURD_NEG) NaN A in
      let A := mask_assign (λ x, gt x ABSURD_POS) NaN A in
      let A :=
        if negb allow_zero
        then mask_assign (λ x, le x (of_Z 0)) NaN A
        else mask_assign (λ x, lt x hard_min) hard_min A in
      let A := mask_assign (λ x, gt x hard_max) hard_max A in
      Ok A
  end.

(** The two shapes [axes_from_latlon] accepts for a coordinate variable. *)
Inductive coords : Type :=
| Coords1 (v : list float)
| Coords2 (a : ndarray).

(** [a.ravel()] *)
Definition ravel (x : coords) : list float :=
  match x with
  | Coords1 v => v
  | Coords2 a => concat a
  end.

(** [axes_from_latlon(lat, lon)]: two 2-D coordinate fields are collapsed
    by [nanmean], the latitudes along each row ([axis=1]) and the
    longitudes along each column ([axis=0]); anything else is flattened. *)
Definition axes_from_latlon (lat lon : coords) : list float * list float :=
  match lat, lon with
  | Coords2 lat_arr, Coords2 lon_arr =>
      let lat_1d := map nanmean lat_arr in
      let lon_1d :=
        map (λ j, nanmean (map (λ row, nth j row NaN) lon_arr))
            (seq 0 (shape lon_arr).2) in
      (lat_1d, lon_1d)
  | _, _ => (ravel lat, ravel lon)
  end.

(** [infer_step(vec)] *)
Definition infer_step (vec : list float) : result float :=
  let diffs := diff vec in
  let diffs := finite_values diffs in
  if bool_decide (length diffs = 0%nat) then Raise ValueError
  else Ok (Fin (median (map Qcabs.Qcabs diffs))).

(** The latitude step of [convert_nc_to_json]:
    [if lat1d[0] > lat1d[-1]: lat1d = lat1d[::-1]; arr = arr[::-1, :]]. *)
Definition align_latitude (lat1d : list float) (arr : ndarray)
  : result (list float * ndarray) :=
  first ←ᵣ py_index lat1d 0;
  last ←ᵣ py_index lat1d (-1);
  if gt first last then Ok (reverse lat1d, reverse arr)
  else Ok (lat1d, arr).

(** The block factor of [convert_nc_to_json]:
    [max(1, int(round(grid_deg / max(1e-12, abs(d)))))]. *)
Definition block_factor (grid_deg d : Qc) : Z :=
  let tiny := Qc_of_Z 1 / Qc_of_Z (10 ^ 12) in
  let step := if bool_decide (tiny < Qcabs.Qcabs d) then Qcabs.Qcabs d else tiny in
  Z.max 1 (round_half_even (grid_deg / step)).

(** The two block factors of [convert_nc_to_json]: the native steps of
    both axes, or [0.02] for both as soon as one [infer_step] raises. *)
Definition block_factors (grid_deg : Qc) (lat1d lon1d : list float) : Z * Z :=
  let '(dlat, dlon) :=
    match infer_step lat1d, infer_step lon1d with
    | Ok (Fin dlat), Ok (Fin dlon) => (dlat, dlon)
    | _, _ => (Qc_of_Z 2 / Qc_of_Z 100, Qc_of_Z 2 / Qc_of_Z 100)
    end in
  (block_factor grid_deg dlat, block_factor grid_deg dlon).

(** A coarse axis of [convert_nc_to_json]:
    [axis[:Hc].reshape(Hc // by, by).mean(axis=1)]; the reshape raises
    [ValueError] when the slice has not [(Hc // by) * by] entries. *)
Definition coarse_axis (axis : list Qc) (Hc by_ : nat) : result (list Qc) :=
  if bool_decide (by_ = 0%nat) then Raise ZeroDivisionError else
  let trimmed := take Hc axis in
  if bool_decide (length trimmed ≠ (Hc / by_ * by_)%nat) then Raise ValueError else
  Ok (map (λ i, mean (map (λ p, nth (i * by_ + p) trimmed 0) (seq 0 by_)))
          (seq 0 (Hc / by_))).

(** The trimming and block reduction of [convert_nc_to_json], with the
    coarse axes; [None] is the early [return None] for block factors
    larger than the array. *)
Definition coarsen (arr : ndarray) (lat1d lon1d : list Qc) (by_y by_x : nat)
  : result (option (ndarray * list Qc * list Qc)) :=
  let '(h, w) := shape arr in
  if bool_decide (by_y = 0 ∨ by_x = 0)%nat then Raise ZeroDivisionError else
  let Hc := (h / by_y * by_y)%nat in
  let Wc := (w / by_x * by_x)%nat in
  if bool_decide (Hc = 0 ∨ Wc = 0)%nat then Ok None else
  let arr_trim := map (take Wc) (take Hc arr) in
  coarse ←ᵣ block_reduce_mean arr_trim by_y by_x;
  lat_c ←ᵣ coarse_axis lat1d Hc by_y;
  lon_c ←ᵣ coarse_axis lon1d Wc by_x;
  Ok (Some (coarse, lat_c, lon_c)).

(** The cloud mask of [convert_nc_to_json]:
    [cf = np.clip(cf, 0.0, 1.0); coarse = np.where(cf > cloud_th, nan, coarse)];
    arrays of different shapes do not combine ([ValueError]; shapes that
    broadcast are not modelled). *)
Definition apply_cloud_mask (cf_on_product coarse : ndarray) (cloud_th : Qc)
  : result ndarray :=
  let cf := map (map (λ x, fclip x (of_Z 0) (of_Z 1))) cf_on_product in
  if negb (same_shape cf coarse) then Raise ValueError
  else Ok (zip_with2 (λ c x, if gt c (Fin cloud_th) then NaN else x) cf coarse).

End TempoToJson.

(** ** [build_tempo_forecast_summaries.py] *)

Module Summaries.

(** An entry of [SPEC]. *)
Record ProductSpec : Type := mkSpec {
  allow_zero : bool;
  min : Qc;
  max : Qc
}.

Definition SPEC : gmap string ProductSpec :=
  <["no2" := mkSpec false 0 (Qc_of_Z (5 * e16))]>
  (<["hcho" := mkSpec false 0 (Qc_of_Z (3 * e16))]>
  (<["o3tot" := mkSpec true 0 (Qc_of_Z 700)]>
  (<["cldo4" := mkSpec true 0 (Qc_of_Z 1)]> ∅))).

Definition ABSURD_NEG : float := of_Z (- e20).
Definition ABSURD_POS : float := of_Z e20.

(** [compute_local_hour(utc_end_ts, lon_deg_2d)].  The longitudes are
    finite degrees; the hour is an integer of [[0, 23]], which the cast to
    [int16] keeps.  This is the computation in exact arithmetic; its
    binary64 evaluation is [Binary64.compute_local_hour], which gives the
    neighbouring hour when rounding moves the local time across a full
    hour. *)
Definition local_hour_at (utc_end_ts : Z) (lon_deg : Qc) : Z :=
  let offset_sec := lon_deg / Qc_of_Z 360 * Qc_of_Z 86400 in
  let local_ts := Qc_of_Z utc_end_ts + offset_sec in
  (Qfloor (local_ts / Qc_of_Z 3600) mod 24)%Z.

Definition compute_local_hour (utc_end_ts : Z) (lon_deg_2d : list (list Qc))
  : list (list Z) :=
  map (map (local_hour_at utc_end_ts)) lon_deg_2d.

(** [sanitize_grid(grid, product)]: [SPEC.get] falls back to a default
    entry. *)
Definition sanitize_grid (grid : ndarray) (product : string) : ndarray :=
  let spec := default (mkSpec false 0 (Qc_of_Z 1)) (SPEC !! product) in
  let allow_zero := allow_zero spec in
  let g := grid in
  let g := mask_assign (λ x, negb (isfinite x)) NaN g in
  let g := mask_assign (λ x, lt x ABSURD_NEG) NaN g in
  let g := mask_assign (λ x, gt x ABSURD_POS) NaN g in
  let g :=
    if negb allow_zero
    then mask_assign (λ x, le x (of_Z 0)) NaN g
    else mask_assign (λ x, lt x (Fin (min spec))) (Fin (min spec)) g in
  let g := mask_assign (λ x, gt x (Fin (max spec))) (Fin (max spec)) g in
  g.

(** A granule: [(end_ts, grid)]. *)
Abbreviation granule := (Z * ndarray)%type.

(** The loop body of [build_latest].  [latest] and [latest_ts] are [None]
    before the first granule; a boolean mask of another shape than the
    array it indexes raises [IndexError]. *)
Definition latest_step (st : option (ndarray * list (list Qc))) (g : granule)
  : result (option (ndarray * list (list Qc))) :=
  let '(end_ts, grid) := g in
  match st with
  | None =>
      let latest := grid in
      Ok (Some (latest, map (map (λ _, Qc_of_Z end_ts)) latest))
  | Some (latest, latest_ts) =>
      let mask_new := map (map isfinite) grid in
      if negb (same_shape mask_new latest) then Raise IndexError else
      let latest' :=
        zip_with2 (λ old new, if isfinite new then new else old) latest grid in
      let latest_ts' :=
        zip_with2 (λ old (m : bool), if m then Qc_of_Z end_ts else old)
                  latest_ts mask_new in
      Ok (Some (latest', latest_ts'))
  end.

Fixpoint latest_loop (st : option (ndarray * list (list Qc)))
    (values_stack : list granule)
  : result (option (ndarray * list (list Qc))) :=
  match values_stack with
  | [] => Ok st
  | g :: rest => st' ←ᵣ latest_step st g; latest_loop st' rest
  end.

(** [build_latest(values_stack)]; [now_ts] is the reading of [time.time()]. *)
Definition build_latest (now_ts : Qc) (values_stack : list granule)
  : result (ndarray * ndarray * Z) :=
  match values_stack with
  | [] => Raise ValueError
  | _ =>
      let values_stack :=
        stable_sort (λ a b, bool_decide (a.1 < b.1)%Z) values_stack in
      st ←ᵣ latest_loop None values_stack;
      match st with
      | None => Raise ValueError
      | Some (latest, latest_ts) =>
          let age_h := map (map (λ t, Fin ((now_ts - t) / Qc_of_Z 3600))) latest_ts in
          let age_h :=
            zip_with2 (λ a v, if negb (isfinite v) then NaN else a) age_h latest in
          let newest_end_ts := (default 0%Z (fst <$> last values_stack)) in
          Ok (latest, age_h, newest_end_ts)
      end
  end.

(** The accumulators of [build_hod]: [hod_sum] (float arrays; only finite
    cells are ever added, so the sums are rationals), [hod_cnt] ([int32]
    arrays) and [hour_counts] (Python integers), 24 of each. *)
Record hod_state : Type := mkHod {
  hod_sum : list (list (list Qc));
  hod_cnt : list (list (list Z));
  hour_counts : list Z
}.

(** The body of [for h in range(24)], for a grid and an array of local
    hours of one shape.  [valid_mask & (local_hour == h)] of two shapes
    raises [ValueError] here; NumPy broadcasts shapes that differ where
    one of them has a dimension of 1, and the code then goes on with the
    broadcast mask: that case is not modelled.  The mask [m] must have
    the shape of the accumulators ([IndexError] otherwise). *)
Definition hod_hour_step (grid : ndarray) (local_hour : list (list Z))
    (st : hod_state) (h : nat) : result hod_state :=
  let valid_mask := map (map isfinite) grid in
  if negb (same_shape valid_mask local_hour) then Raise ValueError else
  let m :=
    zip_with2 (λ v lh, v && bool_decide (lh = Z.of_nat h)) valid_mask local_hour in
  if any m then
    let sum_h := default [] (hod_sum st !! h) in
    let cnt_h := default [] (hod_cnt st !! h) in
    if negb (same_shape m sum_h) then Raise IndexError else
    let sum_h' :=
      zip_with2 (λ s (mv : bool * float),
                   match mv with (true, Fin q) => s + q | _ => s end)
                sum_h (zip_with2 pair m grid) in
    let cnt_h' :=
      zip_with2 (λ c (b : bool), if b then wrap32 (c + 1) else c) cnt_h m in
    Ok (mkHod (<[h := sum_h']> (hod_sum st))
              (<[h := cnt_h']> (hod_cnt st))
              (alter (λ n, n + 1)%Z h (hour_counts st)))
  else Ok st.

Fixpoint hod_hours (grid : ndarray) (local_hour : list (list Z))
    (st : hod_state) (hs : list nat) : result hod_state :=
  match hs with
  | [] => Ok st
  | h :: hs' =>
      st' ←ᵣ hod_hour_step grid local_hour st h;
      hod_hours grid local_hour st' hs'
  end.

(** The body of [for end_ts, grid in values_stack]. *)
Definition hod_granule_step (lon2d : list (list Qc)) (st : hod_state)
    (g : granule) : result hod_state :=
  let '(end_ts, grid) := g in
  let local_hour := compute_local_hour end_ts lon2d in
  hod_hours grid local_hour st (seq 0 24).

Fixpoint hod_loop (lon2d : list (list Qc)) (st : hod_state)
    (values_stack : list granule) : result hod_state :=
  match values_stack with
  | [] => Ok st
  | g :: rest => st' ←ᵣ hod_granule_step lon2d st g; hod_loop lon2d st' rest
  end.

(** The accumulators before the first granule: 24 arrays of zeros of
    each kind, 24 zero counters. *)
Definition hod_init (H W : nat) : hod_state :=
  mkHod (replicate 24 (full H W 0))
        (replicate 24 (full H W 0%Z))
        (replicate 24 0%Z).

(** [np.tile(lon.reshape(1, W), (H, 1))], the longitude array that [main]
    passes to [build_hod] for a 1-D axis of [W] longitudes. *)
Definition tile_lon (lon : list Qc) (H : nat) : list (list Qc) :=
  replicate H lon.

(** The gated mean of one hour. *)
Definition hod_mean (H W : nat) (min_per_hour : Z)
    (sum_h : list (list Qc)) (cnt_h : list (list Z)) : ndarray :=
  let out := full H W NaN in
  let mask := map (map (λ c, bool_decide (min_per_hour ≤ c)%Z)) cnt_h in
  if any mask
  then
    zip_with2 (λ o (sc : Qc * Z),
                 if bool_decide (min_per_hour ≤ sc.2)%Z
                 then div_count (Fin sc.1) sc.2 else o)
              out (zip_with2 pair sum_h cnt_h)
  else out.

(** [build_hod(values_stack, lon2d, min_per_hour)] *)
Definition build_hod (values_stack : list granule) (lon2d : list (list Qc))
    (min_per_hour : Z) : result (list ndarray * list Z) :=
  match values_stack with
  | [] => Raise ValueError
  | (_, grid0) :: _ =>
      let '(H, W) := shape grid0 in
      st ←ᵣ hod_loop lon2d (hod_init H W) values_stack;
      let hod_grids :=
        zip_with (hod_mean H W min_per_hour) (hod_sum st) (hod_cnt st) in
      Ok (hod_grids, hour_counts st)
  end.

(** [jsonable_2d(arr, ndigits)]: the cells are rounded, a non-finite cell
    becomes [None]. *)
Definition jsonable_2d (arr : ndarray) (ndigits : option nat)
  : list (list (option Qc)) :=
  let a :=
    match ndigits with
    | Some d => map (map (round_decimals d)) arr
    | None => arr
    end in
  map (map (λ x, match x with Fin q => Some q | _ => None end)) a.

End Summaries.

(** ** The computations that rounding decides, in binary64 *)

Module Binary64.

Import SpecFloat.

(** IEEE 754 binary64, rounding to nearest with ties to even, as the
    Standard Library specifies it in [SpecFloat]: 53 bits of precision,
    exponents below 1024. *)
Definition prec : Z := 53.
Definition emax : Z := 1024.

Abbreviation b64 := spec_float.

(** A Python [int] or an integer literal as a [float64]. *)
Definition of_Z (n : Z) : b64 := binary_normalize prec emax n 0 false.

Definition add : b64 → b64 → b64 := SFadd prec emax.
Definition sub : b64 → b64 → b64 := SFsub prec emax.
Definition mul : b64 → b64 → b64 := SFmul prec emax.
Definition div : b64 → b64 → b64 := SFdiv prec emax.
Definition ltb : b64 → b64 → bool := SFltb.

(** [np.nextafter(x, -inf)] *)
Definition pred : b64 → b64 := SFpred prec emax.

Definition is_zero (x : b64) : bool :=
  match x with S754_zero _ => true | _ => false end.


(** [np.floor]: exact, the result is a number of the format. *)
Definition floor (x : b64) : b64 :=
  match x with
  | S754_finite s m e =>
      if (0 <=? e)%Z then x
      else binary_normalize prec emax (Z.shiftl (cond_Zopp s (Z.pos m)) e) 0 s
  | _ => x
  end.

(** C's [fmod(a, b)]: exact, the remainder of the truncated division,
    with the sign of [a]. *)
Definition fmod (a b : b64) : b64 :=
  match a, b with
  | S754_finite sa ma ea, S754_finite _ mb eb =>
      let e := Z.min ea eb in
      let A := (Z.pos ma * 2 ^ (ea - e))%Z in
      let B := (Z.pos mb * 2 ^ (eb - e))%Z in
      binary_normalize prec emax (cond_Zopp sa (A mod B)%Z) e sa
  | S754_finite _ _ _, S754_infinity _ => a
  | S754_zero _, (S754_finite _ _ _ | S754_infinity _) => a
  | _, _ => S754_nan
  end.

(** [a % b] of NumPy and Python on floats: [fmod], moved by [b] when its
    sign is not the sign of [b]. *)
Definition py_mod (a b : b64) : b64 :=
  let m := fmod a b in
  if is_zero b then m
  else if is_zero m then S754_zero (ltb b (of_Z 0))
  else if xorb (ltb b (of_Z 0)) (ltb m (of_Z 0)) then add m b
  else m.

(** [x.astype(np.int16)] of a finite [x] within the range of [int16]:
    truncation.  The cast of NaN or an infinity is not defined. *)
Definition astype_int (x : b64) : option Z :=
  match x with
  | S754_zero _ => Some 0%Z
  | S754_finite s m e =>
      Some (cond_Zopp s (if (0 <=? e)%Z then Z.pos m * 2 ^ e
                         else Z.pos m / 2 ^ (- e)))%Z
  | _ => None
  end.

(** [((lon1d.astype(float) + 180.0) % 360.0) - 180.0] of
    [normalize_lon_and_align]. *)
Definition lon_norm (lon1d : list b64) : list b64 :=
  map (λ l, sub (py_mod (add l (of_Z 180)) (of_Z 360)) (of_Z 180)) lon1d.

(** [compute_local_hour(utc_end_ts, lon_deg_2d)], cell by cell. *)
Definition local_hour_at (utc_end_ts : Z) (lon_deg : b64) : option Z :=
  let offset_sec := mul (div lon_deg (of_Z 360)) (of_Z 86400) in
  let local_ts := add (of_Z utc_end_ts) offset_sec in
  let local_hour := py_mod (floor (div local_ts (of_Z 3600))) (of_Z 24) in
  astype_int local_hour.

Definition compute_local_hour (utc_end_ts : Z) (lon_deg_2d : list (list b64))
  : list (list (option Z)) :=
  map (map (local_hour_at utc_end_ts)) lon_deg_2d.

End Binary64.

(** ** Notions used in the statements *)




(** What the five statements of the sanitization body do to one cell. *)
Definition sanitize_cell (allow_zero : bool) (lo hi : Qc) (x : float) : float :=
  let x := if negb (isfinite x) then NaN else x in
  let x := if lt x (of_Z (- e20)) then NaN else x in
  let x := if gt x (of_Z e20) then NaN else x in
  let x :=
    if negb allow_zero
    then (if le x (of_Z 0) then NaN else x)
    else (if lt x (Fin lo) then Fin lo else x) in
  if gt x (Fin hi) then Fin hi else x.

(** The bounds of every table entry: [min = 0 < max <= 1e20]. *)
Definition plausible (lo hi : Qc) : Prop :=
  lo = 0 ∧ 0 < hi ∧ hi ≤ Qc_of_Z e20.

Global Instance plausible_dec lo hi : Decision (plausible lo hi).
Proof. unfold plausible. apply _. Defined.

(** The domain policy of the specification, as stated: whatever is above
    [hi] becomes [hi], whatever is below [lo] becomes [lo] when zero is
    allowed. *)
Definition clamps_as_stated (allow_zero : bool) (lo hi : Qc) (x y : float) : Prop :=
  (isfinite x = false → y = NaN) ∧
  (allow_zero = false → ∀ q, x = Fin q → q ≤ 0 → y = NaN) ∧
  (allow_zero = true → ∀ q, x = Fin q → q < lo → y = Fin lo) ∧
  (∀ q, x = Fin q → hi < q → y = Fin hi).

(** The policy the code implements: the clamps apply between the two
    absurd bounds, beyond them the cell is missing. *)
Definition clamps_within_absurd (allow_zero : bool) (lo hi : Qc) (x y : float) : Prop :=
  (isfinite x = false → y = NaN) ∧
  (∀ q, x = Fin q → q < Qc_of_Z (- e20) ∨ Qc_of_Z e20 < q → y = NaN) ∧
  (allow_zero = false → ∀ q, x = Fin q → q ≤ 0 → y = NaN) ∧
  (allow_zero = true → ∀ q, x = Fin q → Qc_of_Z (- e20) ≤ q → q < lo → y = Fin lo) ∧
  (∀ q, x = Fin q → hi < q → q ≤ Qc_of_Z e20 → y = Fin hi).

(** Distance between two coordinates. *)
Definition dist (x y : Qc) : Qc :=
  if bool_decide (x < y) then y - x else x - y.

(** [k] is an index of [a] whose coordinate is nearest to [v]. *)
Definition nearest (a : list Qc) (v : Qc) (k : nat) : Prop :=
  ∃ x, a !! k = Some x ∧ ∀ y, y ∈ a → dist x v ≤ dist y v.

(** [k] is the first index of [a] whose coordinate is at least [v], or the
    last index of [a] when every coordinate is below [v]. *)
Definition first_at_least_or_last (a : list Qc) (v : Qc) (k : nat) : Prop :=
  ∃ x, a !! k = Some x ∧
       (∀ j y, (j < k)%nat → a !! j = Some y → y < v) ∧
       (v ≤ x ∨ S k = length a).

(** The index [reindex_to] reads on one axis: the insertion point,
    clamped to the last index. *)
Definition clamped (a : list Qc) (v : Qc) : nat :=
  Nat.min (searchsorted a v) (length a - 1).

(** In a list sorted with [lt_key], [x] may stand before [y]: [y] does not
    sort strictly before [x]. *)
Definition may_precede {A} (lt_key : A → A → bool) (x y : A) : Prop :=
  lt_key y x = false.


(** What one granule of [build_latest] does at one cell: a finite value
    and its end time replace what the cell holds. *)
Definition cell_latest_step (st : float * Qc) (tv : Z * float) : float * Qc :=
  if isfinite tv.2 then (tv.2, Qc_of_Z tv.1) else st.

(** The end time and value that each granule has at the cell [(r, c)]. *)
Definition cells_at (values_stack : list (Z * ndarray)) (r c : nat)
  : list (Z * float) :=
  map (λ g, (g.1, default NaN (cell g.2 r c))) values_stack.

(** The cell [(r, c)] lies in an array whose rows have the lengths [shp]. *)
Definition in_shape (shp : list nat) (r c : nat) : Prop :=
  ∃ w, shp !! r = Some w ∧ (c < w)%nat.

(** What one granule of [build_hod] does to the sum and the count of the
    hour [h] at one cell of longitude [lon]. *)
Definition cell_hod_step (h : nat) (lon : Qc) (acc : Qc * Z) (tv : Z * float)
  : Qc * Z :=
  match tv.2 with
  | Fin q =>
      if bool_decide (Summaries.local_hour_at tv.1 lon = Z.of_nat h)
      then (acc.1 + q, wrap32 (acc.2 + 1))
      else acc
  | _ => acc
  end.

(** The finite values that fall into the hour bucket [h] at a cell of
    longitude [lon], granule by granule. *)
Definition contributions (h : nat) (lon : Qc) (cells : list (Z * float))
  : list Qc :=
  omap (λ tv : Z * float,
          match tv.2 with
          | Fin q =>
              if bool_decide (Summaries.local_hour_at tv.1 lon = Z.of_nat h)
              then Some q else None
          | _ => None
          end) cells.

Definition sum_Qc (l : list Qc) : Qc := foldr Qcplus 0 l.

(** The sum and the count that the accumulators hold for the hour [h] at
    the cell [(r, c)]. *)
Definition hod_view (st : Summaries.hod_state) (h r c : nat) : option (Qc * Z) :=
  s ← Summaries.hod_sum st !! h ≫= (λ a, cell a r c);
  n ← Summaries.hod_cnt st !! h ≫= (λ a, cell a r c);
  Some (s, n).

(** Some cell of the granule is finite and has the local hour [h]. *)
Definition hour_hit (lon2d : list (list Qc)) (h : nat) (g : Z * ndarray) : bool :=
  any (zip_with2 (λ (v : bool) lh, v && bool_decide (lh = Z.of_nat h))
                 (map (map isfinite) g.2)
                 (Summaries.compute_local_hour g.1 lon2d)).

(** The number of finite cells of a grid. *)
Definition finite_cells (g : ndarray) : nat :=
  length (filter (λ x, isfinite x = true) (concat g)).

(** The accumulators have 24 entries of each kind, of the shape [shp]. *)
Definition hod_wf (shp : list nat) (st : Summaries.hod_state) : Prop :=
  length (Summaries.hod_sum st) = 24%nat ∧
  length (Summaries.hod_cnt st) = 24%nat ∧
  length (Summaries.hour_counts st) = 24%nat ∧
  Forall (λ a, map length a = shp) (Summaries.hod_sum st) ∧
  Forall (λ a, map length a = shp) (Summaries.hod_cnt st).

(** The number of hour buckets that a granule contributes to. *)
Definition hours_hit (lon2d : list (list Qc)) (g : Z * ndarray) : nat :=
  length (filter (λ h, hour_hit lon2d h g = true) (seq 0 24)).

Definition sum_Z (l : list Z) : Z := foldr Z.add 0%Z l.

(** A sanitized cell: missing, or a finite value of the product's domain
    (positive when zero is not allowed). *)
Definition in_domain (allow_zero : bool) (lo hi : Qc) (y : float) : Prop :=
  y = NaN ∨ ∃ q, y = Fin q ∧ lo ≤ q ∧ q ≤ hi ∧ (allow_zero = false → 0 < q).

(** The cells of the block [(i, j)] of a grid of finite numbers, row
    after row. *)
Definition block_cells (qs : list (list Qc)) (by_y by_x i j : nat) : list Qc :=
  concat (map (λ p, map (λ q, nth (j * by_x + q) (nth (i * by_y + p) qs []) 0)
                        (seq 0 by_x))
              (seq 0 by_y)).

(** ** Arithmetic of canonical rationals *)

Lemma this_plus x y : (this (x + y)%Qc == this x + this y)%Q.
Proof. apply Qred_correct. Qed.

Lemma this_opp x : (this (- x)%Qc == - this x)%Q.
Proof. apply Qred_correct. Qed.

Lemma this_minus x y : (this (x - y)%Qc == this x - this y)%Q.
Proof. unfold Qcminus. rewrite this_plus, this_opp. reflexivity. Qed.

Lemma this_mult x y : (this (x * y)%Qc == this x * this y)%Q.
Proof. apply Qred_correct. Qed.

Lemma this_inv x : (this (/ x)%Qc == / this x)%Q.
Proof. apply Qred_correct. Qed.

Lemma this_div x y : (this (x / y)%Qc == this x / this y)%Q.
Proof. unfold Qcdiv. rewrite this_mult, this_inv. reflexivity. Qed.

Lemma this_of_Z n : this (Qc_of_Z n) = inject_Z n.
Proof. reflexivity. Qed.

(** Turn a goal on [Qc] into the same goal on [Q]. *)
Ltac qc2q :=
  unfold Qcle, Qclt in *;
  repeat first
    [ rewrite this_plus | rewrite this_minus | rewrite this_mult
    | rewrite this_div | rewrite this_opp | rewrite this_of_Z ].

Lemma floor_bounds (q : Q) :
  (inject_Z (Qfloor q) <= q < inject_Z (Qfloor q) + 1)%Q.
Proof.
  split; [apply Qfloor_le|].
  pose proof (Qlt_floor q) as H. rewrite inject_Z_plus in H. exact H.
Qed.

Lemma Qfloor_unit (q : Q) : (0 <= q < 1)%Q → Qfloor q = 0%Z.
Proof.
  intros [H0 H1]. destruct (floor_bounds q) as [Hl Hu].
  assert (inject_Z (Qfloor q) < inject_Z 1)%Q as Ha by (unfold inject_Z at 2; lra).
  assert (inject_Z (-1) < inject_Z (Qfloor q))%Q as Hb by (unfold inject_Z at 1; lra).
  rewrite <- Zlt_Qlt in Ha, Hb. lia.
Qed.

(** ** Stable sorting *)

Section StableSort.

Context {A : Type} (lt_key : A → A → bool).

Hypothesis lt_key_asym : ∀ x y, lt_key x y = true → lt_key y x = false.
Hypothesis may_precede_trans : ∀ x y z,
  may_precede lt_key x y → may_precede lt_key y z → may_precede lt_key x z.

Lemma insert_stable_perm x l : insert_stable lt_key x l ≡ₚ x :: l.
Proof.
  induction l as [|y l IH]; simpl; [done|].
  destruct (lt_key y x); [|done].
  rewrite IH. apply Permutation_swap.
Qed.

Lemma stable_sort_perm l : stable_sort lt_key l ≡ₚ l.
Proof.
  induction l as [|x l IH]; simpl; [done|].
  by rewrite insert_stable_perm, IH.
Qed.

Lemma insert_stable_sorted x l :
  StronglySorted (may_precede lt_key) l →
  StronglySorted (may_precede lt_key) (insert_stable lt_key x l).
Proof.
  induction 1 as [|y l Hs IH Hy]; simpl.
  - repeat constructor.
  - destruct (lt_key y x) eqn:E.
    + constructor; [done|]. rewrite insert_stable_perm.
      constructor; [|done]. by apply lt_key_asym.
    + constructor; [by constructor|]. constructor; [done|].
      eapply Forall_impl; [exact Hy|]. intros z Hz.
      by apply (may_precede_trans x y z).
Qed.

Lemma stable_sort_sorted l :
  StronglySorted (may_precede lt_key) (stable_sort lt_key l).
Proof.
  induction l as [|x l IH]; simpl; [constructor|].
  by apply insert_stable_sorted.
Qed.

(** A list that is in order already is left as it is. *)
Lemma stable_sort_id l :
  StronglySorted (may_precede lt_key) l → stable_sort lt_key l = l.
Proof.
  induction 1 as [|x l Hs IH Hx]; simpl; [done|].
  rewrite IH. destruct Hx as [|y l Hy _]; simpl; [done|].
  unfold may_precede in Hy. by rewrite Hy.
Qed.

End StableSort.

(** ** Arrays cell by cell *)

Section Cells.

Lemma cell_map {A B} (f : A → B) (a : list (list A)) r c :
  cell (map (map f) a) r c = f <$> cell a r c.
Proof.
  unfold cell. rewrite list_lookup_fmap.
  destruct (a !! r) as [row|]; simpl; [|done].
  apply list_lookup_fmap.
Qed.

Lemma cell_zip_with2 {A B C} (f : A → B → C) a b r c :
  cell (zip_with2 f a b) r c
  = x ← cell a r c; y ← cell b r c; Some (f x y).
Proof.
  unfold cell, zip_with2. rewrite lookup_zip_with.
  destruct (a !! r) as [ra|]; simpl; [|done].
  destruct (b !! r) as [rb|]; simpl.
  - by rewrite lookup_zip_with.
  - by destruct (ra !! c).
Qed.

Lemma shape_zip_with2 {A B C} (f : A → B → C) a b :
  map length a = map length b →
  map length (zip_with2 f a b) = map length a.
Proof.
  unfold zip_with2. revert b.
  induction a as [|ra a IH]; intros [|rb b] H; simpl in *; try done.
  injection H as H1 H2. rewrite IH by done. f_equal.
  rewrite length_zip_with. lia.
Qed.

Lemma shape_map {A B} (f : A → B) (a : list (list A)) :
  map length (map (map f) a) = map length a.
Proof.
  rewrite map_map. apply map_ext. intros row. apply length_map.
Qed.

Lemma cell_in_shape {A} (a : list (list A)) r c :
  is_Some (cell a r c) ↔ in_shape (map length a) r c.
Proof.
  unfold cell, in_shape. rewrite list_lookup_fmap.
  destruct (a !! r) as [row|]; simpl.
  - rewrite lookup_lt_is_Some. split.
    + intros H. by exists (length row).
    + by intros (w & [= <-] & H).
  - split; [by intros [? ?]|by intros (? & ? & ?)].
Qed.

Lemma cell_same_shape {A B} (a : list (list A)) (b : list (list B)) r c :
  map length a = map length b → is_Some (cell a r c) → is_Some (cell b r c).
Proof. rewrite !cell_in_shape. by intros ->. Qed.

Lemma same_shape_true {A B} (a : list (list A)) (b : list (list B)) :
  map length a = map length b → same_shape a b = true.
Proof. intros H. by apply bool_decide_eq_true. Qed.

End Cells.

(** ** Sanitization *)

Section Sanitize.

Import TempoToJson Summaries.

Lemma e20_pos : 0 < Qc_of_Z e20.
Proof. compute_done. Qed.

Lemma e20_neg : Qc_of_Z (- e20) < 0.
Proof. compute_done. Qed.

Ltac qc_order :=
  pose proof e20_pos; pose proof e20_neg;
  repeat match goal with
  | H : ¬ (_ < _)%Qc |- _ => apply Qcnot_lt_le in H
  | H : ¬ (_ ≤ _)%Qc |- _ => apply Qcnot_le_lt in H
  end;
  set (P := Qc_of_Z e20) in *; set (N := Qc_of_Z (- e20)) in *;
  clearbody P N;
  unfold Qcle, Qclt in *; change (this (Q2Qc 0)) with 0%Q in *;
  change (this (Qc_of_Z 0)) with 0%Q in *; lra.

Ltac cell_cases :=
  unfold sanitize_cell, gt, lt, le, of_Z; simpl;
  repeat (case_bool_decide; simpl);
  try reflexivity; try congruence; try (exfalso; qc_order).

Lemma SPEC_plausible :
  map_Forall (λ _ s, plausible (min s) (max s)) SPEC.
Proof. compute_done. Qed.

Lemma PRODUCTS_plausible :
  map_Forall (λ _ s, plausible (product_hard_min s) (product_hard_max s)) PRODUCTS.
Proof. compute_done. Qed.

Lemma spec_for_plausible product :
  let s := default (mkSpec false 0 (Qc_of_Z 1)) (SPEC !! product) in
  plausible (min s) (max s).
Proof.
  destruct (SPEC !! product) as [s|] eqn:E; simpl.
  - exact (SPEC_plausible _ _ E).
  - compute_done.
Qed.

Lemma sanitize_grid_cells grid product :
  sanitize_grid grid product =
  let s := default (mkSpec false 0 (Qc_of_Z 1)) (SPEC !! product) in
  map (map (sanitize_cell (allow_zero s) (min s) (max s))) grid.
Proof.
  unfold sanitize_grid, mask_assign. cbv zeta.
  destruct (allow_zero _); simpl;
    rewrite !map_map; apply map_ext; intros row;
    rewrite !map_map; apply map_ext; intros x; reflexivity.
Qed.

Lemma sanitize_array_cells arr product spec :
  PRODUCTS !! product = Some spec →
  _sanitize_array_for_product arr product =
  Ok (map (map (sanitize_cell (product_allow_zero spec) (product_hard_min spec)
                              (product_hard_max spec))) arr).
Proof.
  intros E. unfold _sanitize_array_for_product, mask_assign. rewrite E. cbv zeta.
  f_equal.
  destruct (product_allow_zero _); simpl;
    rewrite !map_map; apply map_ext; intros row;
    rewrite !map_map; apply map_ext; intros x; reflexivity.
Qed.

Lemma sanitize_cell_idem az lo hi x :
  plausible lo hi →
  sanitize_cell az lo hi (sanitize_cell az lo hi x) = sanitize_cell az lo hi x.
Proof.
  intros (-> & Hpos & Hhi).
  destruct x as [q| | |], az; try reflexivity; cell_cases.
Qed.

Lemma sanitize_cell_policy az lo hi x :
  plausible lo hi →
  clamps_within_absurd az lo hi x (sanitize_cell az lo hi x).
Proof.
  intros (-> & Hpos & Hhi). repeat split.
  - intros H. destruct x, az; try discriminate H; reflexivity.
  - intros q -> Hq. destruct az, Hq; cell_cases.
  - intros -> q -> Hq. cell_cases.
  - intros -> q -> Hq1 Hq2. cell_cases.
  - intros q -> Hq1 Hq2. destruct az; cell_cases.
Qed.

(** C2, as amended.  Both sanitizers map a non-finite cell to missing; a
    finite cell beyond the absurd bounds [-1e20], [1e20] to missing; with
    [allow_zero = false] a cell [<= 0] to missing; with [allow_zero = true]
    a cell below [min] (and not below [-1e20]) to exactly [min]; a cell
    above [max] (and not above [1e20]) to exactly [max]. *)
Theorem sanitize_domain_policy (grid : ndarray) (product : string) r c x :
  cell grid r c = Some x →
  (∃ y, cell (sanitize_grid grid product) r c = Some y ∧
        let s := default (mkSpec false 0 (Qc_of_Z 1)) (SPEC !! product) in
        clamps_within_absurd (allow_zero s) (min s) (max s) x y) ∧
  (∀ spec, PRODUCTS !! product = Some spec →
     ∃ A y, _sanitize_array_for_product grid product = Ok A ∧
            cell A r c = Some y ∧
            clamps_within_absurd (product_allow_zero spec) (product_hard_min spec)
                                 (product_hard_max spec) x y).
Proof.
  intros Hx. split.
  - eexists. rewrite sanitize_grid_cells, cell_map, Hx. split; [reflexivity|].
    apply sanitize_cell_policy, spec_for_plausible.
  - intros spec E. eexists _, _. rewrite (sanitize_array_cells _ _ _ E).
    split; [reflexivity|]. rewrite cell_map, Hx. split; [reflexivity|].
    apply sanitize_cell_policy. exact (PRODUCTS_plausible _ _ E).
Qed.

Lemma sanitize_domain_policy_witness :
  (∃ y, cell (sanitize_grid [[of_Z 800; of_Z (-3)]] "o3tot") 0 1 = Some y ∧
        let s := default (mkSpec false 0 (Qc_of_Z 1)) (SPEC !! "o3tot") in
        clamps_within_absurd (allow_zero s) (min s) (max s) (of_Z (-3)) y) ∧
  (∀ spec, PRODUCTS !! "o3tot" = Some spec →
     ∃ A y, _sanitize_array_for_product [[of_Z 800; of_Z (-3)]] "o3tot" = Ok A ∧
            cell A 0 1 = Some y ∧
            clamps_within_absurd (product_allow_zero spec) (product_hard_min spec)
                                 (product_hard_max spec) (of_Z (-3)) y).
Proof.
  apply (sanitize_domain_policy [[of_Z 800; of_Z (-3)]] "o3tot" 0 1 (of_Z (-3))).
  reflexivity.
Defined.

(** C2, as stated, fails: a cell of [2e20] for [no2] is above [max = 5e16]
    and comes out missing, not [max]. *)
Lemma sanitize_far_above_max_is_missing :
  cell (sanitize_grid [[of_Z (2 * e20)]] "no2") 0 0 = Some NaN ∧
  _sanitize_array_for_product [[of_Z (2 * e20)]] "no2" = Ok [[NaN]] ∧
  ¬ clamps_as_stated false 0 (Qc_of_Z (5 * e16)) (of_Z (2 * e20)) NaN.
Proof.
  split; [compute_done|]. split; [compute_done|].
  intros (_ & _ & _ & H).
  specialize (H (Qc_of_Z (2 * e20)) eq_refl). discriminate H. compute_done.
Qed.

(** C8, as amended.  The lookup of the aggregator, [SPEC.get], is total:
    an id that is not a key gets the default entry
    [{allow_zero: false, min: 0, max: 1}] and [sanitize_grid] sanitizes
    with it.  The lookup of the regridder, [PRODUCTS[product]], is defined
    on the four keys only: [_sanitize_array_for_product] returns for them
    and raises [KeyError] for any other id. *)
Theorem spec_lookup_total_only_in_aggregator (grid : ndarray) (product : string) :
  (SPEC !! product = None →
     sanitize_grid grid product = map (map (sanitize_cell false 0 (Qc_of_Z 1))) grid) ∧
  (product ∈ ["no2"; "hcho"; "o3tot"; "cldo4"] ↔
     ∃ A, _sanitize_array_for_product grid product = Ok A) ∧
  (product ∉ ["no2"; "hcho"; "o3tot"; "cldo4"] ↔
     _sanitize_array_for_product grid product = Raise KeyError).
Proof.
  assert (Hdom : product ∈ ["no2"; "hcho"; "o3tot"; "cldo4"] ↔
                 is_Some (PRODUCTS !! product)).
  { rewrite <- elem_of_dom.
    replace (dom PRODUCTS) with (list_to_set ["no2"; "hcho"; "o3tot"; "cldo4"] : gset string)
      by (unfold PRODUCTS; rewrite !dom_insert_L, dom_empty_L; set_solver).
    by rewrite elem_of_list_to_set. }
  split; [|split].
  - intros E. rewrite sanitize_grid_cells, E. reflexivity.
  - rewrite Hdom. unfold _sanitize_array_for_product.
    destruct (PRODUCTS !! product); split; intros H; eauto.
    all: by destruct H.
  - rewrite Hdom. unfold _sanitize_array_for_product.
    destruct (PRODUCTS !! product); split; intros H; eauto.
    all: try discriminate; try (by intros []); try (by destruct H; eauto).
Qed.

Lemma spec_lookup_total_only_in_aggregator_witness :
  sanitize_grid [[of_Z 3; NaN]] "pm25" = [[of_Z 1; NaN]].
Proof.
  rewrite (proj1 (spec_lookup_total_only_in_aggregator [[of_Z 3; NaN]] "pm25"));
    compute_done.
Defined.

(** C8, as stated, fails: sanitizing a grid for the unknown id [pm25]
    raises [KeyError] in the regridder. *)
Lemma sanitize_unknown_product_raises :
  PRODUCTS !! "pm25" = None ∧
  _sanitize_array_for_product [[of_Z 1]] "pm25" = Raise KeyError ∧
  ¬ ∃ A, _sanitize_array_for_product [[of_Z 1]] "pm25" = Ok A.
Proof.
  split; [reflexivity|]. split; [reflexivity|]. intros [A H]. discriminate H.
Qed.

(** C9.  Sanitizing is idempotent: for every grid and every product id,
    [sanitize_grid] applied to its own output returns it unchanged, and so
    does [_sanitize_array_for_product] for every known product id. *)
Theorem sanitize_idempotent (grid : ndarray) (product : string) :
  sanitize_grid (sanitize_grid grid product) product = sanitize_grid grid product ∧
  (∀ spec, PRODUCTS !! product = Some spec →
     ∃ A, _sanitize_array_for_product grid product = Ok A ∧
          _sanitize_array_for_product A product = Ok A).
Proof.
  split.
  - rewrite !sanitize_grid_cells. cbv zeta.
    rewrite map_map. apply map_ext. intros row.
    rewrite map_map. apply map_ext. intros x.
    apply sanitize_cell_idem, spec_for_plausible.
  - intros spec E. eexists. split; [apply (sanitize_array_cells _ _ _ E)|].
    rewrite (sanitize_array_cells _ _ _ E). f_equal.
    rewrite map_map. apply map_ext. intros row.
    rewrite map_map. apply map_ext. intros x.
    apply sanitize_cell_idem. exact (PRODUCTS_plausible _ _ E).
Qed.

Lemma sanitize_idempotent_witness :
  ∃ A, _sanitize_array_for_product [[of_Z 800; of_Z (-3); PInf]] "o3tot" = Ok A ∧
       _sanitize_array_for_product A "o3tot" = Ok A.
Proof.
  apply (proj2 (sanitize_idempotent [[of_Z 800; of_Z (-3); PInf]] "o3tot")
               (mkProduct "product/column_amount_o3" "DU" true true 0 (Qc_of_Z 700))).
  reflexivity.
Defined.

End Sanitize.

(** ** Block reduction *)

Section BlockReduce.

Import TempoToJson.

(** C1 at a ragged block.  For the 2 x 2 block [[1, nan], [3, 5]] the code
    returns [2.5], the mean of the two row means [1] and [4], where the
    mean of the finite cells of the block is [3]. *)
Theorem block_reduce_mean_ragged_block :
  block_reduce_mean [[of_Z 1; NaN]; [of_Z 3; of_Z 5]] 2 2
    = Ok [[Fin (Qc_of_Z 5 / Qc_of_Z 2)]] ∧
  nanmean [of_Z 1; NaN; of_Z 3; of_Z 5] = of_Z 3.
Proof. split; compute_done. Qed.

End BlockReduce.

(** ** Reindexing *)

Section Reindex.

Import TempoToJson.

Lemma rmapM_Ok {A B} (f : A → result B) (g : A → B) (l : list A) :
  (∀ x, x ∈ l → f x = Ok (g x)) → rmapM f l = Ok (map g l).
Proof.
  induction l as [|x l IH]; intros H; simpl; [done|].
  rewrite (H x) by set_solver. simpl.
  rewrite IH by (intros; apply H; set_solver). done.
Qed.

Lemma rmapM_map {A B C} (f : B → result C) (g : A → B) (l : list A) :
  rmapM f (map g l) = rmapM (λ x, f (g x)) l.
Proof. induction l as [|x l IH]; simpl; [done|]. by rewrite IH. Qed.

Lemma py_index_Ok {A} (l : list A) (k : nat) x :
  l !! k = Some x → py_index l (Z.of_nat k) = Ok x.
Proof.
  intros H. pose proof (lookup_lt_Some _ _ _ H) as Hlt.
  unfold py_index. cbv zeta.
  destruct (bool_decide_reflect (Z.of_nat k < 0)%Z); [lia|].
  rewrite bool_decide_eq_true_2 by lia.
  by rewrite Nat2Z.id, H.
Qed.

Lemma searchsorted_le a v : (searchsorted a v ≤ length a)%nat.
Proof. induction a; simpl; [lia|]. case_bool_decide; simpl; lia. Qed.

Lemma searchsorted_before a v j y :
  (j < searchsorted a v)%nat → a !! j = Some y → y < v.
Proof.
  revert j. induction a as [|x a IH]; simpl; intros j Hj Hy; [lia|].
  case_bool_decide; [|lia].
  destruct j; simpl in Hy; [by simplify_eq|].
  apply (IH j); [lia|done].
Qed.

Lemma searchsorted_at a v x :
  a !! searchsorted a v = Some x → v ≤ x.
Proof.
  induction a as [|y a IH]; simpl; [done|].
  case_bool_decide as Hlt; simpl; [done|].
  intros [= ->]. by apply Qcnot_lt_le.
Qed.

Lemma clip_searchsorted a v :
  a ≠ [] →
  clip (Z.of_nat (searchsorted a v)) 0 (Z.of_nat (length a) - 1)
  = Z.of_nat (clamped a v).
Proof.
  intros Ha. assert (0 < length a)%nat by (destruct a; simpl; [done|lia]).
  unfold clip, clamped. lia.
Qed.

Lemma clamped_first_at_least_or_last a v :
  a ≠ [] → first_at_least_or_last a v (clamped a v).
Proof.
  intros Ha. assert (0 < length a)%nat by (destruct a; simpl; [done|lia]).
  unfold clamped, first_at_least_or_last.
  pose proof (searchsorted_le a v).
  destruct (lookup_lt_is_Some_2 a (searchsorted a v `min` (length a - 1)))
    as [x Hx]; [lia|].
  exists x. split; [done|]. split.
  - intros j y Hj. apply searchsorted_before. lia.
  - destruct (decide (searchsorted a v < length a)%nat).
    + left. apply (searchsorted_at a). by rewrite Nat.min_l in Hx by lia.
    + right. lia.
Qed.

Lemma StronglySorted_lookup_lt (a : list Qc) i j x y :
  StronglySorted Qclt a → a !! i = Some x → a !! j = Some y →
  (i < j)%nat → x < y.
Proof.
  intros Hs. revert i j. induction Hs as [|z a Hs IH Hz]; intros i j Hi Hj Hij.
  - done.
  - destruct j; [lia|]. destruct i; simpl in *.
    + simplify_eq. rewrite Forall_forall in Hz. apply Hz.
      by eapply list_elem_of_lookup_2.
    + apply (IH i j); [done..|lia].
Qed.

Lemma clamped_exact a v k :
  StronglySorted Qclt a → a !! k = Some v → clamped a v = k.
Proof.
  intros Hs Hk. pose proof (lookup_lt_Some _ _ _ Hk) as Hlt.
  assert (Ha : a ≠ []) by (intros ->; simpl in Hlt; lia).
  destruct (clamped_first_at_least_or_last a v Ha) as (x & Hx & Hbefore & Hat).
  destruct (Nat.lt_trichotomy (clamped a v) k) as [Hc|[Hc|Hc]]; [|done|].
  - exfalso. pose proof (StronglySorted_lookup_lt _ _ _ _ _ Hs Hx Hk Hc) as Hxv.
    destruct Hat as [Hat|Hat]; [|lia].
    by apply (Qcle_not_lt _ _ Hat).
  - exfalso. specialize (Hbefore k v Hc Hk). by apply (Qclt_not_eq v v).
Qed.

(** C3, as amended.  For strictly ascending, non-empty source axes and a
    source grid of their shape, the cell of [reindex_to] at a destination
    point is the source value at, on each axis, the first source index
    whose coordinate is at least the destination coordinate, or the last
    index when there is none (the index is clamped, never out of range;
    no value is interpolated).  When both destination coordinates are
    source coordinates, it is the source value at that point. *)
Theorem reindex_to_first_at_least
    (lat_src lon_src : list Qc) (src : ndarray) (lat_dst lon_dst : list Qc)
    (i j : nat) (vy vx : Qc) :
  StronglySorted Qclt lat_src → StronglySorted Qclt lon_src →
  lat_src ≠ [] → lon_src ≠ [] →
  length src = length lat_src → rect (length lon_src) src →
  lat_dst !! i = Some vy → lon_dst !! j = Some vx →
  ∃ out ky kx y,
    reindex_to lat_src lon_src src lat_dst lon_dst = Ok out ∧
    first_at_least_or_last lat_src vy ky ∧
    first_at_least_or_last lon_src vx kx ∧
    cell src ky kx = Some y ∧
    cell out i j = Some y ∧
    (∀ ky' kx', lat_src !! ky' = Some vy → lon_src !! kx' = Some vx →
                cell src ky' kx' = Some y).
Proof.
  intros Hsy Hsx Hny Hnx Hlen Hrect Hi Hj.
  set (row_at := λ v, default [] (src !! clamped lat_src v)).
  set (val_at := λ (row : list float) v, default NaN (row !! clamped lon_src v)).
  assert (Hky : ∀ v, (clamped lat_src v < length src)%nat).
  { intros v. unfold clamped. destruct lat_src; simpl in *; [done|lia]. }
  assert (Hkx : ∀ v, (clamped lon_src v < length lon_src)%nat).
  { intros v. unfold clamped. destruct lon_src; simpl in *; [done|lia]. }
  assert (Hrow : ∀ v, src !! clamped lat_src v = Some (row_at v)).
  { intros v. unfold row_at.
    by destruct (lookup_lt_is_Some_2 src _ (Hky v)) as [row ->]. }
  assert (Hrowlen : ∀ v, length (row_at v) = length lon_src).
  { intros v. unfold rect in Hrect. rewrite Forall_forall in Hrect.
    apply Hrect. by eapply list_elem_of_lookup_2. }
  assert (Hval : ∀ vy' vx',
            row_at vy' !! clamped lon_src vx' = Some (val_at (row_at vy') vx')).
  { intros vy' vx'. unfold val_at.
    destruct (lookup_lt_is_Some_2 (row_at vy') (clamped lon_src vx')) as [y ->];
      [rewrite Hrowlen; apply Hkx|done]. }
  exists (map (λ vy', map (λ vx', val_at (row_at vy') vx') lon_dst) lat_dst),
         (clamped lat_src vy), (clamped lon_src vx), (val_at (row_at vy) vx).
  split; [|split; [|split; [|split; [|split]]]].
  - unfold reindex_to. rewrite !map_map, !rmapM_map.
    apply rmapM_Ok. intros vy' _.
    rewrite clip_searchsorted, (py_index_Ok _ _ _ (Hrow vy')) by done. simpl.
    rewrite rmapM_map.
    rewrite (rmapM_Ok _ (λ vx', val_at (row_at vy') vx')); [done|].
    intros vx' _. rewrite clip_searchsorted by done.
    by apply py_index_Ok.
  - by apply clamped_first_at_least_or_last.
  - by apply clamped_first_at_least_or_last.
  - unfold cell. rewrite Hrow. simpl. apply Hval.
  - unfold cell. rewrite list_lookup_fmap, Hi. simpl.
    by rewrite list_lookup_fmap, Hj.
  - intros ky' kx' Hy' Hx'.
    rewrite <- (clamped_exact _ _ _ Hsy Hy'), <- (clamped_exact _ _ _ Hsx Hx').
    unfold cell. rewrite Hrow. simpl. apply Hval.
Qed.

Lemma reindex_to_first_at_least_witness :
  ∃ out ky kx y,
    reindex_to [Qc_of_Z 0; Qc_of_Z 10] [Qc_of_Z 0; Qc_of_Z 5]
               [[of_Z 1; of_Z 2]; [of_Z 3; of_Z 4]]
               [Qc_of_Z 1; Qc_of_Z 10] [Qc_of_Z 5] = Ok out ∧
    first_at_least_or_last [Qc_of_Z 0; Qc_of_Z 10] (Qc_of_Z 10) ky ∧
    first_at_least_or_last [Qc_of_Z 0; Qc_of_Z 5] (Qc_of_Z 5) kx ∧
    cell [[of_Z 1; of_Z 2]; [of_Z 3; of_Z 4]] ky kx = Some y ∧
    cell out 1 0 = Some y ∧
    (∀ ky' kx', [Qc_of_Z 0; Qc_of_Z 10] !! ky' = Some (Qc_of_Z 10) →
                [Qc_of_Z 0; Qc_of_Z 5] !! kx' = Some (Qc_of_Z 5) →
                cell [[of_Z 1; of_Z 2]; [of_Z 3; of_Z 4]] ky' kx' = Some y).
Proof.
  apply (reindex_to_first_at_least
           [Qc_of_Z 0; Qc_of_Z 10] [Qc_of_Z 0; Qc_of_Z 5]
           [[of_Z 1; of_Z 2]; [of_Z 3; of_Z 4]]
           [Qc_of_Z 1; Qc_of_Z 10] [Qc_of_Z 5] 1 0 (Qc_of_Z 10) (Qc_of_Z 5)).
  - compute_done.
  - compute_done.
  - discriminate.
  - discriminate.
  - reflexivity.
  - unfold rect. compute_done.
  - reflexivity.
  - reflexivity.
Defined.

(** C3, as stated, fails: on the latitude axis [0, 10] the destination
    latitude [1] is nearest to index 0, whose source value is [1], and
    [reindex_to] returns the value [2] of index 1. *)
Lemma reindex_to_not_nearest :
  reindex_to [Qc_of_Z 0; Qc_of_Z 10] [Qc_of_Z 0] [[of_Z 1]; [of_Z 2]]
             [Qc_of_Z 1] [Qc_of_Z 0] = Ok [[of_Z 2]] ∧
  ¬ ∃ ky kx, nearest [Qc_of_Z 0; Qc_of_Z 10] (Qc_of_Z 1) ky ∧
             nearest [Qc_of_Z 0] (Qc_of_Z 0) kx ∧
             cell [[of_Z 1]; [of_Z 2]] ky kx = Some (of_Z 2).
Proof.
  split; [compute_done|].
  intros (ky & kx & (x & Hx & Hnear) & _ & Hcell).
  destruct ky as [|[|ky]]; simpl in Hx; [| |done].
  - destruct kx as [|kx]; [|done]. unfold cell in Hcell. simpl in Hcell.
    revert Hcell. compute_done.
  - simplify_eq. specialize (Hnear (Qc_of_Z 0)).
    revert Hnear. cut (¬ dist (Qc_of_Z 10) (Qc_of_Z 1) ≤ dist (Qc_of_Z 0) (Qc_of_Z 1)).
    + intros Hn Hnear. apply Hn, Hnear. set_solver.
    + compute_done.
Qed.

End Reindex.

(** ** Longitude normalization *)

Section NormalizeLon.

Import TempoToJson.


Lemma gather_seq {A} (l : list A) d :
  map (λ i, nth i l d) (seq 0 (length l)) = l.
Proof.
  induction l as [|x l IH]; simpl; [done|].
  f_equal. rewrite <- seq_shift, map_map. exact IH.
Qed.




Lemma argsort_perm v : argsort v ≡ₚ seq 0 (length v).
Proof. apply stable_sort_perm. Qed.

Lemma argsort_length v : length (argsort v) = length v.
Proof. by rewrite argsort_perm, length_seq. Qed.









End NormalizeLon.

(** ** The latest snapshot *)

Section Latest.

Import Summaries.

Lemma cell_fold_none cells init :
  (∀ k t v, cells !! k = Some (t, v) → isfinite v = false) →
  foldl cell_latest_step init cells = init.
Proof.
  revert init. induction cells as [|[t v] cells IH]; intros init H; simpl; [done|].
  unfold cell_latest_step at 2. simpl. rewrite (H 0%nat t v) by done.
  apply IH. intros k t' v' Hk. by apply (H (S k) t' v').
Qed.

Lemma cell_fold_last_finite cells init k t v :
  cells !! k = Some (t, v) → isfinite v = true →
  (∀ k' t' v', (k < k')%nat → cells !! k' = Some (t', v') → isfinite v' = false) →
  foldl cell_latest_step init cells = (v, Qc_of_Z t).
Proof.
  revert init k. induction cells as [|[t0 v0] cells IH]; intros init k Hk Hv Hlater.
  - done.
  - destruct k as [|k]; simpl in *.
    + simplify_eq. unfold cell_latest_step at 2. simpl. rewrite Hv.
      apply cell_fold_none. intros k' t' v' Hk'.
      apply (Hlater (S k') t' v'); [lia|done].
    + apply (IH _ k); [done..|]. intros k' t' v' Hlt Hk'.
      apply (Hlater (S k') t' v'); [lia|done].
Qed.

Lemma latest_loop_cells shp rest :
  Forall (λ g : granule, map length g.2 = shp) rest →
  ∀ latest latest_ts,
    map length latest = shp → map length latest_ts = shp →
    ∃ latest' latest_ts',
      latest_loop (Some (latest, latest_ts)) rest = Ok (Some (latest', latest_ts')) ∧
      map length latest' = shp ∧ map length latest_ts' = shp ∧
      ∀ r c x t, cell latest r c = Some x → cell latest_ts r c = Some t →
        cell latest' r c = Some (foldl cell_latest_step (x, t) (cells_at rest r c)).1 ∧
        cell latest_ts' r c = Some (foldl cell_latest_step (x, t) (cells_at rest r c)).2.
Proof.
  induction 1 as [|[end_ts grid] rest Hg Hrest IH]; intros latest latest_ts Hl Hts.
  - exists latest, latest_ts. simpl. by repeat split.
  - simpl in Hg. simpl.
    rewrite same_shape_true by (rewrite shape_map; congruence). simpl.
    set (latest1 := zip_with2 _ latest grid).
    set (ts1 := zip_with2 _ latest_ts _).
    destruct (IH latest1 ts1) as (latest' & ts' & Hloop & Hl' & Hts' & Hcells).
    { unfold latest1. rewrite shape_zip_with2; congruence. }
    { unfold ts1. rewrite shape_zip_with2; [done|]. rewrite shape_map. congruence. }
    exists latest', ts'. split; [done|]. split; [done|]. split; [done|].
    intros r c x t Hx Ht.
    destruct (cell_same_shape latest grid r c) as [v Hv]; [congruence|by eexists|].
    unfold cells_at. simpl. rewrite Hv. simpl. fold (cells_at rest r c).
    destruct (cell_latest_step (x, t) (end_ts, v)) as [x1 t1] eqn:E.
    unfold cell_latest_step in E. simpl in E.
    apply Hcells.
    + unfold latest1. rewrite cell_zip_with2, Hx, Hv. simpl.
      destruct (isfinite v); congruence.
    + unfold ts1. rewrite cell_zip_with2, Ht, cell_map, Hv. simpl.
      destruct (isfinite v); congruence.
Qed.

Lemma cells_at_lookup_2 (stack : list granule) r c k t g v :
  stack !! k = Some (t, g) → cell g r c = Some v →
  cells_at stack r c !! k = Some (t, v).
Proof.
  intros Hk Hv. unfold cells_at. rewrite list_lookup_fmap, Hk. simpl.
  by rewrite Hv.
Qed.

Lemma cells_at_lookup_1 shp (stack : list granule) r c k t v :
  Forall (λ g : granule, map length g.2 = shp) stack → in_shape shp r c →
  cells_at stack r c !! k = Some (t, v) →
  ∃ g, stack !! k = Some (t, g) ∧ cell g r c = Some v.
Proof.
  intros Hshape Hrc. unfold cells_at. rewrite list_lookup_fmap.
  destruct (stack !! k) as [[t' g]|] eqn:Hk; simpl; [|done].
  intros [= -> <-]. exists g. split; [done|].
  rewrite Forall_forall in Hshape.
  specialize (Hshape _ (list_elem_of_lookup_2 _ _ _ Hk)). simpl in Hshape.
  rewrite <- Hshape in Hrc. apply cell_in_shape in Hrc as [v ->]. done.
Qed.

Lemma StronglySorted_mono {A} (R1 R2 : relation A) l :
  (∀ x y, R1 x y → R2 x y) → StronglySorted R1 l → StronglySorted R2 l.
Proof.
  intros HR. induction 1; constructor; [done|].
  eapply Forall_impl; [done|]. auto.
Qed.

Lemma sort_time_ordered (values_stack : list granule) :
  StronglySorted (λ a b : granule, (a.1 ≤ b.1)%Z) values_stack →
  stable_sort (λ a b : granule, bool_decide (a.1 < b.1)%Z) values_stack
  = values_stack.
Proof.
  intros Hs. apply stable_sort_id.
  eapply StronglySorted_mono; [|exact Hs].
  intros x y Hxy. apply bool_decide_eq_false. simpl in *. lia.
Qed.

(** C5.  For a non-empty, time-ordered stack of granules of one shape,
    [build_latest] returns, at every cell, the value of the most recent
    granule in which the cell is finite, with the age
    [(now_ts - end_ts) / 3600] of that granule: later granules in which
    the cell is not finite do not overwrite it.  A cell that is finite in
    no granule has a non-finite value (NaN, unless the first granule
    holds an infinity there, which is kept) and the age NaN. *)
Theorem build_latest_last_finite_wins
    (now_ts : Qc) (values_stack : list granule) (shp : list nat) :
  values_stack ≠ [] →
  StronglySorted (λ a b : granule, (a.1 ≤ b.1)%Z) values_stack →
  Forall (λ g : granule, map length g.2 = shp) values_stack →
  ∃ latest age_h newest_end_ts,
    build_latest now_ts values_stack = Ok (latest, age_h, newest_end_ts) ∧
    ∀ r c, in_shape shp r c →
      (∀ k t g v,
         values_stack !! k = Some (t, g) → cell g r c = Some v →
         isfinite v = true →
         (∀ k' t' g' v', (k < k')%nat → values_stack !! k' = Some (t', g') →
                         cell g' r c = Some v' → isfinite v' = false) →
         cell latest r c = Some v ∧
         cell age_h r c = Some (Fin ((now_ts - Qc_of_Z t) / Qc_of_Z 3600))) ∧
      ((∀ k t g v, values_stack !! k = Some (t, g) → cell g r c = Some v →
                   isfinite v = false) →
       ∃ v, cell latest r c = Some v ∧ isfinite v = false ∧
            (v ≠ NaN → ∃ t g, head values_stack = Some (t, g) ∧
                              cell g r c = Some v) ∧
            cell age_h r c = Some NaN).
Proof.
  intros Hne Hsorted Hshape.
  destruct values_stack as [|[t0 grid0] rest]; [done|].
  unfold build_latest. rewrite (sort_time_ordered _ Hsorted).
  apply Forall_cons in Hshape as [Hshape0 Hshape]. simpl in Hshape0.
  destruct (latest_loop_cells shp rest Hshape grid0
              (map (map (λ _, Qc_of_Z t0)) grid0))
    as (latest & latest_ts & Hloop & Hl & Hts & Hcells);
    [done|by rewrite shape_map|].
  cbn [latest_loop latest_step rbind]. rewrite Hloop. cbn [rbind].
  eexists latest, _, _. split; [reflexivity|].
  intros r c Hrc.
  destruct (proj2 (cell_in_shape grid0 r c)) as [x0 Hx0]; [by rewrite Hshape0|].
  destruct (Hcells r c x0 (Qc_of_Z t0)) as [Hlat Hlts];
    [done|by rewrite cell_map, Hx0|].
  assert (Hage : ∀ v t, foldl cell_latest_step (x0, Qc_of_Z t0) (cells_at rest r c)
                        = (v, t) →
            cell latest r c = Some v ∧
            cell (zip_with2 (λ a v, if negb (isfinite v) then NaN else a)
                    (map (map (λ t, Fin ((now_ts - t) / Qc_of_Z 3600))) latest_ts)
                    latest) r c
            = Some (if negb (isfinite v) then NaN
                    else Fin ((now_ts - t) / Qc_of_Z 3600))).
  { intros v t E. rewrite E in Hlat, Hlts. simpl in Hlat, Hlts.
    split; [done|]. by rewrite cell_zip_with2, cell_map, Hlts, Hlat. }
  split.
  - intros k t g v Hk Hv Hfin Hlater.
    destruct (Hage v (Qc_of_Z t)) as [H1 H2]; [|by rewrite Hfin in H2].
    destruct k as [|k]; simpl in Hk.
    + simplify_eq. apply cell_fold_none. intros k' t' v' Hk'.
      destruct (cells_at_lookup_1 _ _ _ _ _ _ _ Hshape Hrc Hk') as (g' & Hg' & Hv').
      by apply (Hlater (S k') t' g' v'); [lia|..].
    + apply (cell_fold_last_finite _ _ k); [by eapply cells_at_lookup_2|done|].
      intros k' t' v' Hlt Hk'.
      destruct (cells_at_lookup_1 _ _ _ _ _ _ _ Hshape Hrc Hk') as (g' & Hg' & Hv').
      by apply (Hlater (S k') t' g' v'); [lia|..].
  - intros Hnone.
    assert (Hx0fin : isfinite x0 = false) by by apply (Hnone 0%nat t0 grid0).
    destruct (Hage x0 (Qc_of_Z t0)) as [H1 H2].
    { apply cell_fold_none. intros k' t' v' Hk'.
      destruct (cells_at_lookup_1 _ _ _ _ _ _ _ Hshape Hrc Hk') as (g' & Hg' & Hv').
      by apply (Hnone (S k') t' g' v'). }
    exists x0. split; [done|]. split; [done|]. split.
    + intros _. by exists t0, grid0.
    + by rewrite Hx0fin in H2.
Qed.

Lemma build_latest_last_finite_wins_witness :
  ∃ latest age_h newest_end_ts,
    build_latest (Qc_of_Z 7200)
                 [(1%Z, [[of_Z 5; NaN]]); (2%Z, [[NaN; of_Z 7]])]
    = Ok (latest, age_h, newest_end_ts) ∧
    ∀ r c, in_shape [2%nat] r c →
      (∀ k t g v,
         [(1%Z, [[of_Z 5; NaN]]); (2%Z, [[NaN; of_Z 7]])] !! k = Some (t, g) →
         cell g r c = Some v → isfinite v = true →
         (∀ k' t' g' v', (k < k')%nat →
            [(1%Z, [[of_Z 5; NaN]]); (2%Z, [[NaN; of_Z 7]])] !! k' = Some (t', g') →
            cell g' r c = Some v' → isfinite v' = false) →
         cell latest r c = Some v ∧
         cell age_h r c = Some (Fin ((Qc_of_Z 7200 - Qc_of_Z t) / Qc_of_Z 3600))) ∧
      ((∀ k t g v,
          [(1%Z, [[of_Z 5; NaN]]); (2%Z, [[NaN; of_Z 7]])] !! k = Some (t, g) →
          cell g r c = Some v → isfinite v = false) →
       ∃ v, cell latest r c = Some v ∧ isfinite v = false ∧
            (v ≠ NaN → ∃ t g,
               head [(1%Z, [[of_Z 5; NaN]]); (2%Z, [[NaN; of_Z 7]])] = Some (t, g) ∧
               cell g r c = Some v) ∧
            cell age_h r c = Some NaN).
Proof.
  apply (build_latest_last_finite_wins (Qc_of_Z 7200)
           [(1%Z, [[of_Z 5; NaN]]); (2%Z, [[NaN; of_Z 7]])] [2%nat]).
  - discriminate.
  - repeat constructor. simpl. lia.
  - repeat constructor.
Defined.

(** The example of the specification: [A = 5.0] at [t = 1] and
    [B = 7.0] at [t = 2] both survive. *)
Example build_latest_example :
  build_latest (Qc_of_Z 7200) [(1%Z, [[of_Z 5; NaN]]); (2%Z, [[NaN; of_Z 7]])]
  = Ok ([[of_Z 5; of_Z 7]],
        [[Fin (Qc_of_Z 7199 / Qc_of_Z 3600); Fin (Qc_of_Z 7198 / Qc_of_Z 3600)]],
        2%Z).
Proof. compute_done. Qed.

End Latest.

(** ** The hour-of-day climatology *)

Section Hod.

Import Summaries.

Lemma local_hour_at_range t lon : (0 ≤ local_hour_at t lon < 24)%Z.
Proof. unfold local_hour_at. apply Z.mod_pos_bound. lia. Qed.

Lemma wrap32_small n : (- 2 ^ 31 ≤ n < 2 ^ 31)%Z → wrap32 n = n.
Proof.
  intros H. unfold wrap32. rewrite Z.mod_small by lia. lia.
Qed.

Lemma contributions_cons h lon t v cells :
  contributions h lon ((t, v) :: cells)
  = match v with
    | Fin q =>
        if bool_decide (local_hour_at t lon = Z.of_nat h)
        then q :: contributions h lon cells
        else contributions h lon cells
    | _ => contributions h lon cells
    end.
Proof.
  unfold contributions. simpl. destruct v; try reflexivity.
  by case_bool_decide.
Qed.

Lemma cell_hod_fold h lon cells s0 n0 :
  (0 ≤ n0)%Z → (n0 + Z.of_nat (length cells) < 2 ^ 31)%Z →
  foldl (cell_hod_step h lon) (s0, n0) cells
  = (s0 + sum_Qc (contributions h lon cells),
     (n0 + Z.of_nat (length (contributions h lon cells)))%Z).
Proof.
  revert s0 n0. induction cells as [|[t v] cells IH]; intros s0 n0 H0 Hlt.
  - simpl. f_equal; [unfold sum_Qc; cbn [foldr]; ring|lia].
  - cbn [foldl]. rewrite contributions_cons. simpl in Hlt.
    unfold cell_hod_step at 2. cbn [fst snd].
    destruct v as [q| | |]; try (apply IH; lia).
    case_bool_decide; [|apply IH; lia].
    rewrite wrap32_small by lia. rewrite IH by lia.
    f_equal; [unfold sum_Qc; cbn [foldr]; symmetry; apply Qcplus_assoc|].
    cbn [length]. lia.
Qed.

Lemma any_false_cell (m : list (list bool)) r c b :
  any m = false → cell m r c = Some b → b = false.
Proof.
  unfold any, cell. intros Hany Hb.
  destruct (m !! r) as [row|] eqn:Hr; simpl in Hb; [|done].
  destruct b; [|done]. exfalso.
  assert (existsb (existsb id) m = true) as Ht; [|congruence].
  apply existsb_exists. exists row. split.
  - by eapply list_elem_of_In, list_elem_of_lookup_2.
  - apply existsb_exists. exists true. split; [|done].
    by eapply list_elem_of_In, list_elem_of_lookup_2.
Qed.

Lemma hod_wf_lookup shp st h :
  hod_wf shp st → (h < 24)%nat →
  ∃ sum_h cnt_h n,
    hod_sum st !! h = Some sum_h ∧ hod_cnt st !! h = Some cnt_h ∧
    hour_counts st !! h = Some n ∧
    map length sum_h = shp ∧ map length cnt_h = shp.
Proof.
  intros (Hls & Hlc & Hlh & Hfs & Hfc) Hh.
  destruct (lookup_lt_is_Some_2 (hod_sum st) h) as [sum_h Hs]; [lia|].
  destruct (lookup_lt_is_Some_2 (hod_cnt st) h) as [cnt_h Hc]; [lia|].
  destruct (lookup_lt_is_Some_2 (hour_counts st) h) as [n Hn]; [lia|].
  exists sum_h, cnt_h, n. repeat split; [done..| |].
  - rewrite Forall_forall in Hfs. by eapply Hfs, list_elem_of_lookup_2.
  - rewrite Forall_forall in Hfc. by eapply Hfc, list_elem_of_lookup_2.
Qed.

Lemma hod_hour_step_spec shp t grid lon2d st h :
  hod_wf shp st → map length grid = shp → map length lon2d = shp →
  (h < 24)%nat →
  ∃ st', hod_hour_step grid (compute_local_hour t lon2d) st h = Ok st' ∧
    hod_wf shp st' ∧
    (∀ h' r c acc v lon,
       hod_view st h' r c = Some acc → cell grid r c = Some v →
       cell lon2d r c = Some lon →
       hod_view st' h' r c
       = Some (if decide (h' = h) then cell_hod_step h lon acc (t, v) else acc)) ∧
    (∀ h' n, hour_counts st !! h' = Some n →
       hour_counts st' !! h'
       = Some (if decide (h' = h)
               then (if hour_hit lon2d h (t, grid) then n + 1 else n)%Z
               else n)).
Proof.
  intros Hwf Hg Hlon Hh.
  destruct (hod_wf_lookup _ _ _ Hwf Hh)
    as (sum_h & cnt_h & n_h & Hs & Hc & Hn & Hss & Hcs).
  unfold hod_hour_step.
  rewrite same_shape_true by (unfold compute_local_hour; rewrite !shape_map; congruence).
  cbn [negb].
  set (m := zip_with2 _ (map (map isfinite) grid) (compute_local_hour t lon2d)).
  assert (Hms : map length m = shp).
  { unfold m. rewrite shape_zip_with2; rewrite ?shape_map; [done|].
    unfold compute_local_hour. rewrite shape_map. congruence. }
  assert (Hmcell : ∀ r c v lon, cell grid r c = Some v → cell lon2d r c = Some lon →
            cell m r c = Some (isfinite v
                               && bool_decide (local_hour_at t lon = Z.of_nat h))).
  { intros r c v lon Hv Hl. unfold m, compute_local_hour.
    by rewrite cell_zip_with2, !cell_map, Hv, Hl. }
  assert (Hhit : hour_hit lon2d h (t, grid) = any m) by reflexivity.
  rewrite Hhit. destruct (any m) eqn:Hany.
  - rewrite Hs, Hc. cbn [default from_option id].
    rewrite (same_shape_true m sum_h) by congruence. cbn [negb].
    eexists. split; [reflexivity|]. split; [|split].
    + destruct Hwf as (Hls & Hlc & Hlh & Hfs & Hfc).
      unfold hod_wf. cbn [hod_sum hod_cnt hour_counts].
      rewrite !length_insert, length_alter. repeat split; [done..| |].
      * apply Forall_insert; [done|].
        rewrite shape_zip_with2; [done|].
        rewrite shape_zip_with2; congruence.
      * apply Forall_insert; [done|]. rewrite shape_zip_with2; congruence.
    + intros h' r c [s n] v lon Hview Hv Hl.
      unfold hod_view in *. cbn [hod_sum hod_cnt].
      destruct (decide (h' = h)) as [->|Hne].
      * destruct Hwf as (Hls & Hlc & _).
        rewrite !list_lookup_insert_eq by lia. cbn [mbind option_bind].
        rewrite Hs, Hc in Hview. cbn [mbind option_bind] in Hview.
        destruct (cell sum_h r c) as [s'|] eqn:Hs'; [|done].
        destruct (cell cnt_h r c) as [n'|] eqn:Hn'; [|done].
        simpl in Hview. simplify_eq.
        rewrite !cell_zip_with2, Hs', Hn', (Hmcell _ _ _ _ Hv Hl), Hv.
        simpl. unfold cell_hod_step. simpl.
        destruct v; simpl; try done. by case_bool_decide.
      * by rewrite !list_lookup_insert_ne by done.
    + intros h' n Hn'. cbn [hour_counts].
      destruct (decide (h' = h)) as [->|Hne].
      * by rewrite list_lookup_alter_eq, Hn'.
      * by rewrite list_lookup_alter_ne by done.
  - exists st. split; [done|]. split; [done|]. split.
    + intros h' r c acc v lon Hview Hv Hl. rewrite Hview. f_equal.
      destruct (decide (h' = h)) as [->|Hne]; [|done].
      pose proof (any_false_cell _ _ _ _ Hany (Hmcell _ _ _ _ Hv Hl)) as Hb.
      unfold cell_hod_step. simpl. destruct v; try done.
      simpl in Hb. by rewrite Hb.
    + intros h' n Hn'. rewrite Hn'. by destruct (decide (h' = h)).
Qed.

Lemma hod_hours_spec shp t grid lon2d hs :
  NoDup hs → Forall (λ h, h < 24)%nat hs →
  map length grid = shp → map length lon2d = shp →
  ∀ st, hod_wf shp st →
  ∃ st', hod_hours grid (compute_local_hour t lon2d) st hs = Ok st' ∧
    hod_wf shp st' ∧
    (∀ h' r c acc v lon,
       hod_view st h' r c = Some acc → cell grid r c = Some v →
       cell lon2d r c = Some lon →
       hod_view st' h' r c
       = Some (if decide (h' ∈ hs) then cell_hod_step h' lon acc (t, v) else acc)) ∧
    (∀ h' n, hour_counts st !! h' = Some n →
       hour_counts st' !! h'
       = Some (if decide (h' ∈ hs)
               then (if hour_hit lon2d h' (t, grid) then n + 1 else n)%Z
               else n)).
Proof.
  intros Hnd Hlt Hg Hlon.
  induction hs as [|h hs IH]; intros st Hwf.
  - exists st. simpl. split; [done|]. split; [done|]. split.
    + intros h' r c acc v lon Hview _ _. by rewrite Hview.
    + intros h' n Hn. by rewrite Hn.
  - apply NoDup_cons in Hnd as [Hnotin Hnd].
    apply Forall_cons in Hlt as [Hh Hlt].
    destruct (hod_hour_step_spec shp t grid lon2d st h Hwf Hg Hlon Hh)
      as (st1 & Hstep & Hwf1 & Hview1 & Hcnt1).
    destruct (IH Hnd Hlt st1 Hwf1) as (st' & Hrest & Hwf' & Hview' & Hcnt').
    exists st'. simpl. rewrite Hstep. simpl. split; [done|]. split; [done|]. split.
    + intros h' r c acc v lon Hview Hv Hl.
      rewrite (Hview' h' r c _ v lon (Hview1 h' r c acc v lon Hview Hv Hl) Hv Hl).
      f_equal. destruct (decide (h' = h)) as [->|Hne].
      * rewrite decide_False by done. rewrite decide_True by apply list_elem_of_here.
        done.
      * destruct (decide (h' ∈ hs)).
        -- rewrite decide_True by by apply list_elem_of_further. done.
        -- rewrite decide_False by (rewrite elem_of_cons; tauto). done.
    + intros h' n Hn. rewrite (Hcnt' h' _ (Hcnt1 h' n Hn)).
      f_equal. destruct (decide (h' = h)) as [->|Hne].
      * rewrite decide_False by done. rewrite decide_True by apply list_elem_of_here.
        done.
      * destruct (decide (h' ∈ hs)).
        -- rewrite decide_True by by apply list_elem_of_further. done.
        -- rewrite decide_False by (rewrite elem_of_cons; tauto). done.
Qed.

Lemma hod_loop_spec shp lon2d (stack : list granule) :
  Forall (λ g : granule, map length g.2 = shp) stack →
  map length lon2d = shp →
  ∀ st, hod_wf shp st →
  ∃ st', hod_loop lon2d st stack = Ok st' ∧ hod_wf shp st' ∧
    (∀ h r c acc lon,
       (h < 24)%nat → hod_view st h r c = Some acc → cell lon2d r c = Some lon →
       hod_view st' h r c
       = Some (foldl (cell_hod_step h lon) acc (cells_at stack r c))) ∧
    (∀ h n, (h < 24)%nat → hour_counts st !! h = Some n →
       hour_counts st' !! h
       = Some (n + Z.of_nat (length (filter (λ g, hour_hit lon2d h g = true) stack)))%Z).
Proof.
  intros Hshape Hlon.
  induction Hshape as [|[t grid] stack Hg Hshape IH]; intros st Hwf.
  - exists st. simpl. split; [done|]. split; [done|]. split.
    + by intros.
    + intros h n _ ->. f_equal. lia.
  - simpl in Hg.
    destruct (hod_hours_spec shp t grid lon2d (seq 0 24)) with (st := st)
      as (st1 & Hhours & Hwf1 & Hview1 & Hcnt1); [apply NoDup_seq| |done..|].
    { rewrite Forall_forall. intros h Hin%elem_of_seq. lia. }
    destruct (IH st1 Hwf1) as (st' & Hloop & Hwf' & Hview' & Hcnt').
    exists st'. cbn [hod_loop hod_granule_step]. rewrite Hhours. cbn [rbind].
    split; [done|]. split; [done|]. split.
    + intros h r c acc lon Hh Hview Hl.
      destruct (cell_same_shape lon2d grid r c) as [v Hv]; [congruence|by eexists|].
      unfold cells_at. cbn [map fst snd foldl]. rewrite Hv. cbn [default from_option id].
      apply Hview'; [done| |done].
      rewrite (Hview1 h r c acc v lon Hview Hv Hl).
      rewrite decide_True; [done|]. apply elem_of_seq. lia.
    + intros h n Hh Hn.
      rewrite (Hcnt' h _ Hh (Hcnt1 h n Hn)). f_equal.
      rewrite decide_True by (apply elem_of_seq; lia).
      rewrite filter_cons. destruct (hour_hit lon2d h (t, grid)).
      * rewrite decide_True by done. simpl. lia.
      * rewrite decide_False by done. lia.
Qed.

Lemma shape_full {A} H W (x : A) : map length (full H W x) = replicate H W.
Proof.
  unfold full. induction H as [|H IH]; simpl; [done|].
  by rewrite length_replicate, IH.
Qed.

Lemma full_shape_of {A B} (g : list (list A)) H W (x : B) :
  map length g = replicate H W → full (shape g).1 (shape g).2 x = full H W x.
Proof.
  intros Hg. unfold shape, full. simpl.
  assert (length g = H) as ->.
  { by rewrite <- (length_map length g), Hg, length_replicate. }
  destruct g as [|row g]; simpl in *.
  - by destruct H.
  - destruct H as [|H]; simpl in *; [done|]. by injection Hg as -> _.
Qed.

Lemma in_shape_replicate H W r c :
  in_shape (replicate H W) r c ↔ (r < H)%nat ∧ (c < W)%nat.
Proof.
  unfold in_shape. split.
  - intros (w & Hw & Hc). apply lookup_replicate in Hw as [-> Hr]. done.
  - intros [Hr Hc]. exists W. split; [|done]. by apply lookup_replicate_2.
Qed.

Lemma cell_full {A} H W (x : A) r c :
  (r < H)%nat → (c < W)%nat → cell (full H W x) r c = Some x.
Proof.
  intros Hr Hc. unfold cell, full. rewrite lookup_replicate_2 by done.
  simpl. by apply lookup_replicate_2.
Qed.

Lemma hod_init_wf H W : hod_wf (replicate H W) (hod_init H W).
Proof.
  unfold hod_wf, hod_init. cbn [hod_sum hod_cnt hour_counts].
  rewrite !length_replicate.
  repeat split; [done..| |]; apply Forall_replicate, shape_full.
Qed.

Lemma hod_init_view H W h r c :
  (h < 24)%nat → (r < H)%nat → (c < W)%nat →
  hod_view (hod_init H W) h r c = Some (0, 0%Z).
Proof.
  intros Hh Hr Hc. unfold hod_view, hod_init. cbn [hod_sum hod_cnt].
  rewrite !lookup_replicate_2 by done. simpl.
  by rewrite !cell_full by done.
Qed.

Lemma hod_mean_cell H W mph sum_h cnt_h r c s n :
  (r < H)%nat → (c < W)%nat →
  cell sum_h r c = Some s → cell cnt_h r c = Some n →
  cell (hod_mean H W mph sum_h cnt_h) r c
  = Some (if bool_decide (mph ≤ n)%Z then div_count (Fin s) n else NaN).
Proof.
  intros Hr Hc Hs Hn. unfold hod_mean.
  destruct (any _) eqn:Hany.
  - rewrite !cell_zip_with2, cell_full, Hs, Hn by done. done.
  - rewrite cell_full by done.
    rewrite (any_false_cell _ r c (bool_decide (mph ≤ n)%Z) Hany); [done|].
    by rewrite cell_map, Hn.
Qed.

Lemma hod_view_Some st h r c s n :
  hod_view st h r c = Some (s, n) →
  ∃ sum_h cnt_h, hod_sum st !! h = Some sum_h ∧ hod_cnt st !! h = Some cnt_h ∧
                 cell sum_h r c = Some s ∧ cell cnt_h r c = Some n.
Proof.
  unfold hod_view. intros Hview.
  destruct (hod_sum st !! h) as [sum_h|]; [|done].
  destruct (hod_cnt st !! h) as [cnt_h|]; simpl in Hview.
  - exists sum_h, cnt_h.
    destruct (cell sum_h r c); simpl in Hview; [|done].
    destruct (cell cnt_h r c); simpl in Hview; [|done].
    by simplify_eq.
  - by destruct (cell sum_h r c).
Qed.

(** Each finite value falls into exactly one of the 24 buckets. *)
Lemma one_bucket (z : Z) :
  (0 ≤ z < 24)%Z →
  sum_list_with (λ h, if bool_decide (z = Z.of_nat h) then 1 else 0)%nat (seq 0 24)
  = 1%nat.
Proof.
  intros Hz. assert (∃ k, (k < 24)%nat ∧ z = Z.of_nat k) as (k & Hk & ->).
  { exists (Z.to_nat z). lia. }
  do 24 (destruct k as [|k]; [reflexivity|]). lia.
Qed.

Lemma contributions_all_buckets lon cells hs :
  sum_list_with (λ h, length (contributions h lon cells)) hs
  = sum_list_with
      (λ tv : Z * float,
         if isfinite tv.2
         then sum_list_with
                (λ h, if bool_decide (local_hour_at tv.1 lon = Z.of_nat h)
                      then 1 else 0)%nat hs
         else 0%nat) cells.
Proof.
  induction cells as [|[t v] cells IH]; cbn [sum_list_with].
  - induction hs as [|h hs IHh]; cbn [sum_list_with]; [done|]. by rewrite IHh.
  - rewrite <- IH. clear IH. cbn [fst snd].
    induction hs as [|h hs IHh]; cbn [sum_list_with].
    + by destruct (isfinite v).
    + rewrite IHh, contributions_cons.
      destruct v; cbn [isfinite]; try lia.
      case_bool_decide; cbn [length]; lia.
Qed.

Lemma contributions_buckets_sum lon cells :
  sum_list_with (λ h, length (contributions h lon cells)) (seq 0 24)
  = length (filter (λ tv : Z * float, isfinite tv.2 = true) cells).
Proof.
  rewrite contributions_all_buckets.
  induction cells as [|[t v] cells IH]; [done|].
  cbn [sum_list_with fst snd]. rewrite IH, filter_cons. cbn [snd].
  destruct (isfinite v).
  - rewrite decide_True by done. rewrite one_bucket by apply local_hour_at_range.
    done.
  - by rewrite decide_False by done.
Qed.

Lemma cells_at_length stack r c : length (cells_at stack r c) = length stack.
Proof. apply length_map. Qed.

(** The accumulators after the loop of [build_hod], cell by cell. *)
Lemma hod_loop_from_init H W lon2d (values_stack : list granule) :
  Forall (λ g : granule, map length g.2 = replicate H W) values_stack →
  map length lon2d = replicate H W →
  ∃ st, hod_loop lon2d (hod_init H W) values_stack = Ok st ∧
    hod_wf (replicate H W) st ∧
    (∀ h r c lon, (h < 24)%nat → cell lon2d r c = Some lon →
       hod_view st h r c
       = Some (foldl (cell_hod_step h lon) (0, 0%Z) (cells_at values_stack r c))) ∧
    (∀ h, (h < 24)%nat →
       hour_counts st !! h
       = Some (Z.of_nat (length (filter (λ g, hour_hit lon2d h g = true)
                                        values_stack)))).
Proof.
  intros Hshape Hlon.
  destruct (hod_loop_spec _ lon2d values_stack Hshape Hlon _ (hod_init_wf H W))
    as (st & Hloop & Hwf & Hview & Hcnt).
  exists st. split; [done|]. split; [done|]. split.
  - intros h r c lon Hh Hl. apply Hview; [done| |done].
    assert (in_shape (replicate H W) r c) as [Hr Hc]%in_shape_replicate.
    { rewrite <- Hlon. apply cell_in_shape. by eexists. }
    by apply hod_init_view.
  - intros h Hh. rewrite (Hcnt h 0%Z Hh); [done|].
    unfold hod_init. cbn [hour_counts]. by apply lookup_replicate_2.
Qed.

(** C10.  After the loop of [build_hod] over granules of one shape, the
    count that the hour bucket [h] holds at a cell is the number of
    granules in which the cell is finite and has the local hour [h] (a
    granule in which the cell is not finite is counted in no bucket), and
    the 24 counts of the cell add up to the number of granules in which
    the cell is finite. *)
Theorem hod_cell_counts_sum
    (values_stack : list granule) (lon2d : list (list Qc)) (H W : nat) :
  Forall (λ g : granule, map length g.2 = replicate H W) values_stack →
  map length lon2d = replicate H W →
  (Z.of_nat (length values_stack) < 2 ^ 31)%Z →
  ∃ st, hod_loop lon2d (hod_init H W) values_stack = Ok st ∧
    ∀ r c lon, cell lon2d r c = Some lon →
      let cells := cells_at values_stack r c in
      (∀ h, (h < 24)%nat →
         hod_cnt st !! h ≫= (λ a, cell a r c)
         = Some (Z.of_nat (length (contributions h lon cells)))) ∧
      sum_list_with (λ h, length (contributions h lon cells)) (seq 0 24)
      = length (filter (λ tv : Z * float, isfinite tv.2 = true) cells).
Proof.
  intros Hshape Hlon Hlen.
  destruct (hod_loop_from_init H W lon2d values_stack Hshape Hlon)
    as (st & Hloop & Hwf & Hview & _).
  exists st. split; [done|]. intros r c lon Hl cells. split.
  - intros h Hh. specialize (Hview h r c lon Hh Hl).
    rewrite cell_hod_fold in Hview by (rewrite ?cells_at_length; lia).
    apply hod_view_Some in Hview as (sum_h & cnt_h & _ & -> & _ & Hn).
    simpl. rewrite Hn. f_equal.
  - apply contributions_buckets_sum.
Qed.

Lemma hod_cell_counts_sum_witness :
  ∃ st,
    hod_loop [[Qc_of_Z 0; Qc_of_Z 15]] (hod_init 1 2)
             [(0%Z, [[of_Z 1; of_Z 2]]); (3600%Z, [[NaN; of_Z 4]])] = Ok st ∧
    ∀ r c lon, cell [[Qc_of_Z 0; Qc_of_Z 15]] r c = Some lon →
      let cells :=
        cells_at [(0%Z, [[of_Z 1; of_Z 2]]); (3600%Z, [[NaN; of_Z 4]])] r c in
      (∀ h, (h < 24)%nat →
         hod_cnt st !! h ≫= (λ a, cell a r c)
         = Some (Z.of_nat (length (contributions h lon cells)))) ∧
      sum_list_with (λ h, length (contributions h lon cells)) (seq 0 24)
      = length (filter (λ tv : Z * float, isfinite tv.2 = true) cells).
Proof.
  apply (hod_cell_counts_sum
           [(0%Z, [[of_Z 1; of_Z 2]]); (3600%Z, [[NaN; of_Z 4]])]
           [[Qc_of_Z 0; Qc_of_Z 15]] 1 2).
  - repeat constructor.
  - reflexivity.
  - simpl. lia.
Defined.

Lemma hod_mean_shape_of (g : ndarray) H W mph sum_h cnt_h :
  map length g = replicate H W →
  hod_mean (shape g).1 (shape g).2 mph sum_h cnt_h = hod_mean H W mph sum_h cnt_h.
Proof. intros Hg. unfold hod_mean. by rewrite (full_shape_of g H W). Qed.

Lemma hod_init_shape_of (g : ndarray) H W :
  map length g = replicate H W →
  hod_init (shape g).1 (shape g).2 = hod_init H W.
Proof. intros Hg. unfold hod_init. by rewrite !(full_shape_of g H W). Qed.

Lemma build_hod_unfold t0 grid0 rest lon2d min_per_hour :
  build_hod ((t0, grid0) :: rest) lon2d min_per_hour
  = (st ←ᵣ hod_loop lon2d (hod_init (shape grid0).1 (shape grid0).2)
                    ((t0, grid0) :: rest);
     Ok (zip_with (hod_mean (shape grid0).1 (shape grid0).2 min_per_hour)
                  (hod_sum st) (hod_cnt st),
         hour_counts st)).
Proof. unfold build_hod. by destruct (shape grid0). Qed.






(** The example of the specification: with a threshold of 2, one
    contribution to the hour 5 gives a missing mean, the two contributions
    [3.0] and [5.0] give [4.0]. *)
Example build_hod_example :
  (∃ grids counts,
     build_hod [(0%Z, [[of_Z 3]]); (60%Z, [[of_Z 5]])] [[Qc_of_Z 75]] 2
     = Ok (grids, counts) ∧ grids !! 5%nat = Some [[of_Z 4]]) ∧
  (∃ grids counts,
     build_hod [(0%Z, [[of_Z 3]])] [[Qc_of_Z 75]] 2
     = Ok (grids, counts) ∧ grids !! 5%nat = Some [[NaN]]).
Proof.
  split.
  - destruct (build_hod [(0%Z, [[of_Z 3]]); (60%Z, [[of_Z 5]])] [[Qc_of_Z 75]] 2)
      as [[grids counts]|] eqn:E; [|by vm_compute in E].
    exists grids, counts. split; [done|].
    apply (f_equal (λ r, match r with Ok (g, _) => g !! 5%nat | _ => None end)) in E.
    rewrite <- E. compute_done.
  - destruct (build_hod [(0%Z, [[of_Z 3]])] [[Qc_of_Z 75]] 2)
      as [[grids counts]|] eqn:E; [|by vm_compute in E].
    exists grids, counts. split; [done|].
    apply (f_equal (λ r, match r with Ok (g, _) => g !! 5%nat | _ => None end)) in E.
    rewrite <- E. compute_done.
Qed.

Lemma sum_list_with_add {A} (f g : A → nat) l :
  sum_list_with (λ x, f x + g x)%nat l = (sum_list_with f l + sum_list_with g l)%nat.
Proof. induction l as [|x l IH]; simpl; [done|]. rewrite IH. lia. Qed.

Lemma sum_list_with_le {A} (f g : A → nat) l :
  (∀ x, f x ≤ g x)%nat → (sum_list_with f l ≤ sum_list_with g l)%nat.
Proof.
  intros Hfg. induction l as [|x l IH]; simpl; [done|].
  specialize (Hfg x). lia.
Qed.

Lemma sum_list_with_zero {A} (f : A → nat) l :
  (∀ x, f x = 0%nat) → sum_list_with f l = 0%nat.
Proof.
  intros Hf. induction l as [|x l IH]; simpl; [done|]. by rewrite Hf, IH.
Qed.

Lemma length_filter_indicator {A} (p : A → bool) l :
  length (filter (λ x, p x = true) l)
  = sum_list_with (λ x, if p x then 1 else 0)%nat l.
Proof.
  induction l as [|x l IH]; [done|].
  rewrite filter_cons. cbn [sum_list_with]. destruct (p x).
  - rewrite decide_True by done. simpl. by rewrite IH.
  - rewrite decide_False by done. by rewrite IH.
Qed.

(** Counting pairs by rows or by columns gives the same number. *)
Lemma count_exchange {A B} (p : A → B → bool) (la : list A) (lb : list B) :
  sum_list_with (λ a, length (filter (λ b, p a b = true) lb)) la
  = sum_list_with (λ b, length (filter (λ a, p a b = true) la)) lb.
Proof.
  induction la as [|a la IH]; cbn [sum_list_with].
  - induction lb as [|b lb IHb]; cbn [sum_list_with]; [done|].
    by rewrite <- IHb.
  - rewrite IH, length_filter_indicator, <- sum_list_with_add.
    clear IH. induction lb as [|b lb IHb]; cbn [sum_list_with]; [done|].
    rewrite IHb, filter_cons. destruct (p a b).
    + rewrite decide_True by done. simpl. lia.
    + rewrite decide_False by done. lia.
Qed.

Lemma at_most_one_bucket (z : Z) hs :
  NoDup hs →
  (sum_list_with (λ h, if bool_decide (z = Z.of_nat h) then 1 else 0) hs ≤ 1)%nat.
Proof.
  induction 1 as [|h hs Hnotin Hnd IH]; cbn [sum_list_with]; [lia|].
  case_bool_decide as Hz; [|lia].
  assert (sum_list_with (λ h, if bool_decide (z = Z.of_nat h) then 1 else 0)%nat hs
          = 0%nat) as ->; [|lia].
  clear IH Hnd. induction hs as [|h' hs IH]; [done|].
  cbn [sum_list_with]. apply not_elem_of_cons in Hnotin as [Hne Hnotin].
  rewrite bool_decide_eq_false_2 by lia. by rewrite IH.
Qed.

Lemma row_hits_le (row : list float) (lrow : list Z) hs :
  NoDup hs →
  (sum_list_with
     (λ h, if existsb id (zip_with (λ (v : bool) lh, v && bool_decide (lh = Z.of_nat h))
                                   (map isfinite row) lrow)
           then 1 else 0) hs
   ≤ length (filter (λ x, isfinite x = true) row))%nat.
Proof.
  intros Hnd. revert lrow. induction row as [|x row IH]; intros lrow.
  - rewrite sum_list_with_zero by done. lia.
  - destruct lrow as [|l lrow].
    + rewrite sum_list_with_zero by done. lia.
    + cbn [map zip_with existsb]. rewrite filter_cons.
      etrans.
      { apply (sum_list_with_le _
          (λ h, (if isfinite x && bool_decide (l = Z.of_nat h) then 1 else 0)
                + (if existsb id (zip_with
                                    (λ (v : bool) lh, v && bool_decide (lh = Z.of_nat h))
                                    (map isfinite row) lrow)
                   then 1 else 0))%nat).
        intros h. unfold id at 1. destruct (isfinite x && _), (existsb _ _); simpl; lia. }
      rewrite sum_list_with_add. specialize (IH lrow).
      pose proof (at_most_one_bucket l hs Hnd) as Hone.
      destruct (isfinite x); cbn [andb].
      * rewrite decide_True by done. cbn [length]. lia.
      * rewrite decide_False by done.
        rewrite (sum_list_with_zero (λ _ : nat, 0%nat)) by done. lia.
Qed.

Lemma grid_hits_le (grid : ndarray) (lh : list (list Z)) hs :
  NoDup hs →
  (sum_list_with
     (λ h, if any (zip_with2 (λ (v : bool) l, v && bool_decide (l = Z.of_nat h))
                             (map (map isfinite) grid) lh)
           then 1 else 0) hs
   ≤ finite_cells grid)%nat.
Proof.
  intros Hnd. unfold finite_cells, any, zip_with2. revert lh.
  induction grid as [|row grid IH]; intros lh.
  - rewrite sum_list_with_zero by done. lia.
  - destruct lh as [|lrow lh].
    + rewrite sum_list_with_zero by done. lia.
    + cbn [map zip_with existsb concat]. rewrite filter_app, length_app.
      etrans.
      { apply (sum_list_with_le _
          (λ h, (if existsb id (zip_with
                                  (λ (v : bool) l, v && bool_decide (l = Z.of_nat h))
                                  (map isfinite row) lrow)
                 then 1 else 0)
                + (if existsb (existsb id)
                        (zip_with (zip_with
                                     (λ (v : bool) l, v && bool_decide (l = Z.of_nat h)))
                                  (map (map isfinite) grid) lh)
                   then 1 else 0))%nat).
        intros h. destruct (existsb id _), (existsb (existsb id) _); simpl; lia. }
      rewrite sum_list_with_add.
      pose proof (row_hits_le row lrow hs Hnd). specialize (IH lh). lia.
Qed.

Lemma hours_hit_le lon2d (g : granule) : (hours_hit lon2d g ≤ finite_cells g.2)%nat.
Proof.
  unfold hours_hit. rewrite length_filter_indicator.
  apply grid_hits_le, NoDup_seq.
Qed.

Lemma sum_Z_map_of_nat (f : nat → nat) l :
  sum_Z (map (λ h, Z.of_nat (f h)) l) = Z.of_nat (sum_list_with f l).
Proof. induction l as [|x l IH]; simpl; [done|]. rewrite IH. lia. Qed.

(** C4, as amended.  The counter of the hour [h] that [build_hod] returns
    is the number of granules with at least one finite cell whose local
    hour is [h].  The 24 counters therefore add up to the number of
    (granule, hour) pairs with a contribution, which is at most the
    number of finite (granule, cell) pairs. *)
Theorem hour_counts_count_granules
    (values_stack : list granule) (lon2d : list (list Qc)) (H W : nat)
    (min_per_hour : Z) :
  values_stack ≠ [] →
  Forall (λ g : granule, map length g.2 = replicate H W) values_stack →
  map length lon2d = replicate H W →
  ∃ hod_grids counts,
    build_hod values_stack lon2d min_per_hour = Ok (hod_grids, counts) ∧
    counts = map (λ h, Z.of_nat (length (filter (λ g, hour_hit lon2d h g = true)
                                                values_stack)))
                 (seq 0 24) ∧
    sum_Z counts = Z.of_nat (sum_list_with (hours_hit lon2d) values_stack) ∧
    (sum_list_with (hours_hit lon2d) values_stack
     ≤ sum_list_with (λ g : granule, finite_cells g.2) values_stack)%nat.
Proof.
  intros Hne Hshape Hlon.
  destruct (hod_loop_from_init H W lon2d values_stack Hshape Hlon)
    as (st & Hloop & Hwf & _ & Hcnt).
  destruct values_stack as [|[t0 grid0] rest]; [done|].
  pose proof Hshape as [Hg0 _]%Forall_cons. simpl in Hg0.
  rewrite build_hod_unfold, (hod_init_shape_of _ _ _ Hg0), Hloop. cbn [rbind].
  eexists _, _. split; [reflexivity|].
  set (stack := (t0, grid0) :: rest) in *.
  assert (Hcounts : hour_counts st
                    = map (λ h, Z.of_nat (length (filter (λ g, hour_hit lon2d h g = true)
                                                         stack)))
                          (seq 0 24)).
  { destruct Hwf as (_ & _ & Hlh & _).
    apply list_eq. intros h. destruct (decide (h < 24)%nat) as [Hh|Hh].
    - rewrite (Hcnt h Hh), list_lookup_fmap, lookup_seq_lt by done. done.
    - rewrite !lookup_ge_None_2; [done| |lia].
      rewrite length_map, length_seq. lia. }
  split; [done|]. split.
  - rewrite Hcounts, sum_Z_map_of_nat. f_equal.
    apply (count_exchange (λ h g, hour_hit lon2d h g)).
  - apply sum_list_with_le. intros g. apply hours_hit_le.
Qed.

Lemma hour_counts_count_granules_witness :
  ∃ hod_grids counts,
    build_hod [(0%Z, [[of_Z 1; of_Z 2]]); (3600%Z, [[NaN; of_Z 4]])]
              [[Qc_of_Z 0; Qc_of_Z 15]] 2 = Ok (hod_grids, counts) ∧
    counts = map (λ h, Z.of_nat (length (filter
                     (λ g, hour_hit [[Qc_of_Z 0; Qc_of_Z 15]] h g = true)
                     [(0%Z, [[of_Z 1; of_Z 2]]); (3600%Z, [[NaN; of_Z 4]])])))
                 (seq 0 24) ∧
    sum_Z counts
    = Z.of_nat (sum_list_with (hours_hit [[Qc_of_Z 0; Qc_of_Z 15]])
                  [(0%Z, [[of_Z 1; of_Z 2]]); (3600%Z, [[NaN; of_Z 4]])]) ∧
    (sum_list_with (hours_hit [[Qc_of_Z 0; Qc_of_Z 15]])
       [(0%Z, [[of_Z 1; of_Z 2]]); (3600%Z, [[NaN; of_Z 4]])]
     ≤ sum_list_with (λ g : granule, finite_cells g.2)
         [(0%Z, [[of_Z 1; of_Z 2]]); (3600%Z, [[NaN; of_Z 4]])])%nat.
Proof.
  apply (hour_counts_count_granules
           [(0%Z, [[of_Z 1; of_Z 2]]); (3600%Z, [[NaN; of_Z 4]])]
           [[Qc_of_Z 0; Qc_of_Z 15]] 1 2 2).
  - discriminate.
  - repeat constructor.
  - reflexivity.
Defined.

(** C4, as stated, fails: one granule with two finite cells of the same
    local hour raises the counter of that hour by one, so the counters
    add up to 1 where there are 2 finite (granule, cell) pairs. *)
Lemma hour_counts_not_cell_counts :
  (∃ hod_grids,
     build_hod [(0%Z, [[of_Z 1; of_Z 2]])] [[Qc_of_Z 0; Qc_of_Z 0]] 2
     = Ok (hod_grids, 1%Z :: replicate 23 0%Z)) ∧
  sum_Z (1%Z :: replicate 23 0%Z) = 1%Z ∧
  finite_cells [[of_Z 1; of_Z 2]] = 2%nat.
Proof.
  split; [|split; reflexivity].
  eexists. vm_compute. reflexivity.
Qed.

End Hod.

(** * Further properties of the code *)

(** ** Sanitization: range and fixed points *)

Section SanitizeRange.

Import TempoToJson Summaries.

Ltac qc_lin :=
  pose proof e20_pos; pose proof e20_neg;
  repeat match goal with
  | H : ¬ (_ < _)%Qc |- _ => apply Qcnot_lt_le in H
  | H : ¬ (_ ≤ _)%Qc |- _ => apply Qcnot_le_lt in H
  end;
  set (P := Qc_of_Z e20) in *; set (N := Qc_of_Z (- e20)) in *;
  clearbody P N;
  unfold Qcle, Qclt in *; change (this (Q2Qc 0)) with 0%Q in *;
  change (this (Qc_of_Z 0)) with 0%Q in *; lra.

Lemma sanitize_cell_in_domain az lo hi x :
  plausible lo hi → in_domain az lo hi (sanitize_cell az lo hi x).
Proof.
  intros (-> & Hpos & Hhi). unfold in_domain.
  destruct x as [q| | |], az; try (by left);
    unfold sanitize_cell, gt, lt, le, of_Z; simpl;
    repeat (case_bool_decide; simpl); try (by left); right.
  all: eexists; split; [reflexivity|].
  all: split; [|split]; [qc_lin|qc_lin|first [discriminate|intros _; qc_lin]].
Qed.

Lemma sanitize_cell_fixed az lo hi q :
  plausible lo hi → lo ≤ q → q ≤ hi → (az = false → 0 < q) →
  sanitize_cell az lo hi (Fin q) = Fin q.
Proof.
  intros (-> & Hpos & Hhi) Hlo Hq Hz.
  destruct az; [|specialize (Hz eq_refl)];
    unfold sanitize_cell, gt, lt, le, of_Z; simpl;
    repeat (case_bool_decide; simpl); try reflexivity; exfalso; qc_lin.
Qed.

(** X1.  Whatever the input, a cell that a sanitizer returns is NaN or a
    finite value between [min] and [max] of the product, positive when
    the product does not allow zero: no infinity and no out-of-domain
    value is ever returned. *)
Theorem sanitize_output_in_domain (grid : ndarray) (product : string) r c y :
  (cell (sanitize_grid grid product) r c = Some y →
   let s := default (mkSpec false 0 (Qc_of_Z 1)) (SPEC !! product) in
   in_domain (allow_zero s) (min s) (max s) y) ∧
  (∀ spec A, PRODUCTS !! product = Some spec →
     _sanitize_array_for_product grid product = Ok A →
     cell A r c = Some y →
     in_domain (product_allow_zero spec) (product_hard_min spec)
               (product_hard_max spec) y).
Proof.
  split.
  - rewrite sanitize_grid_cells, cell_map. cbv zeta.
    destruct (cell grid r c) as [x|]; simpl; [|done]. intros [= <-].
    apply sanitize_cell_in_domain, spec_for_plausible.
  - intros spec A E. rewrite (sanitize_array_cells _ _ _ E). intros [= <-].
    rewrite cell_map. destruct (cell grid r c) as [x|]; simpl; [|done].
    intros [= <-]. apply sanitize_cell_in_domain. exact (PRODUCTS_plausible _ _ E).
Qed.

Lemma sanitize_output_in_domain_witness :
  (let s := default (mkSpec false 0 (Qc_of_Z 1)) (SPEC !! "o3tot") in
   in_domain (allow_zero s) (min s) (max s) (of_Z 700)) ∧
  in_domain true 0 (Qc_of_Z 700) (of_Z 700).
Proof.
  split.
  - apply (proj1 (sanitize_output_in_domain [[of_Z 800; PInf]] "o3tot" 0 0 (of_Z 700))).
    compute_done.
  - apply (proj2 (sanitize_output_in_domain [[of_Z 800; PInf]] "o3tot" 0 0 (of_Z 700))
             (mkProduct "product/column_amount_o3" "DU" true true 0 (Qc_of_Z 700))
             [[of_Z 700; NaN]]).
    + reflexivity.
    + compute_done.
    + compute_done.
Defined.

(** X2.  A finite cell that lies in the product's domain already
    ([min <= q <= max], and [q > 0] when zero is not allowed) passes both
    sanitizers unchanged. *)
Theorem sanitize_keeps_domain_values (grid : ndarray) (product : string) r c q :
  cell grid r c = Some (Fin q) →
  (let s := default (mkSpec false 0 (Qc_of_Z 1)) (SPEC !! product) in
   min s ≤ q → q ≤ max s → (allow_zero s = false → 0 < q) →
   cell (sanitize_grid grid product) r c = Some (Fin q)) ∧
  (∀ spec, PRODUCTS !! product = Some spec →
     product_hard_min spec ≤ q → q ≤ product_hard_max spec →
     (product_allow_zero spec = false → 0 < q) →
     ∃ A, _sanitize_array_for_product grid product = Ok A ∧
          cell A r c = Some (Fin q)).
Proof.
  intros Hq. split.
  - cbv zeta. intros Hlo Hhi Hz.
    rewrite sanitize_grid_cells, cell_map, Hq. cbv zeta. simpl. f_equal.
    apply sanitize_cell_fixed; [apply spec_for_plausible|done..].
  - intros spec E Hlo Hhi Hz. eexists.
    split; [apply (sanitize_array_cells _ _ _ E)|].
    rewrite cell_map, Hq. simpl. f_equal.
    apply sanitize_cell_fixed; [exact (PRODUCTS_plausible _ _ E)|done..].
Qed.

Lemma sanitize_keeps_domain_values_witness :
  cell (sanitize_grid [[NaN; of_Z 7]] "no2") 0 1 = Some (Fin (Qc_of_Z 7)) ∧
  ∃ A, _sanitize_array_for_product [[NaN; of_Z 7]] "no2" = Ok A ∧
       cell A 0 1 = Some (Fin (Qc_of_Z 7)).
Proof.
  split.
  - apply (proj1 (sanitize_keeps_domain_values [[NaN; of_Z 7]] "no2" 0 1 (Qc_of_Z 7)
                    eq_refl)); compute_done.
  - apply (proj2 (sanitize_keeps_domain_values [[NaN; of_Z 7]] "no2" 0 1 (Qc_of_Z 7)
                    eq_refl)
             (mkProduct "product/vertical_column_troposphere" "molec/cm2"
                        true false 0 (Qc_of_Z (5 * e16)))).
    + reflexivity.
    + compute_done.
    + compute_done.
    + intros _. compute_done.
Defined.

End SanitizeRange.

(** ** The local hour *)

Section LocalHour.

Import Summaries.

Lemma Qfloor_unique (q : Q) (z : Z) :
  (inject_Z z <= q < inject_Z z + 1)%Q → Qfloor q = z.
Proof.
  intros [Hl Hu]. destruct (floor_bounds q) as [Hfl Hfu].
  assert (inject_Z (Qfloor q) < inject_Z (z + 1))%Q as Ha
    by (rewrite inject_Z_plus; unfold inject_Z at 3; lra).
  assert (inject_Z z < inject_Z (Qfloor q + 1))%Q as Hb
    by (rewrite inject_Z_plus; unfold inject_Z at 3; lra).
  rewrite <- Zlt_Qlt in Ha, Hb. lia.
Qed.

Lemma Qfloor_shift (q q' : Q) (k : Z) :
  (q' == q + inject_Z k)%Q → Qfloor q' = (Qfloor q + k)%Z.
Proof.
  intros Hq. apply Qfloor_unique. rewrite inject_Z_plus, Hq.
  destruct (floor_bounds q). split; lra.
Qed.


End LocalHour.

(** ** Block reduction: outcome, shape and values *)

Section BlockReduceMore.

Import TempoToJson.

Lemma nth_map_seq {A} (f : nat → A) n j d :
  (j < n)%nat → nth j (map f (seq 0 n)) d = f j.
Proof.
  intros Hj. rewrite (nth_indep _ d (f 0%nat)) by (rewrite length_map, length_seq; lia).
  rewrite (map_nth f), seq_nth by done. done.
Qed.

Lemma trimmed_nth (arr : ndarray) H W r c :
  (r < H)%nat → (c < W)%nat →
  nth c (nth r (map (take W) (take H arr)) []) NaN = nth c (nth r arr []) NaN.
Proof.
  intros Hr Hc. rewrite !nth_lookup.
  rewrite list_lookup_fmap, lookup_take_lt by done.
  destruct (arr !! r) as [row|]; simpl; [|done].
  by rewrite lookup_take_lt.
Qed.

Lemma div_mul_zero h b : (0 < b)%nat → (h / b * b = 0 ↔ h < b)%nat.
Proof.
  intros Hb. split.
  - intros H0. destruct (Nat.lt_ge_cases h b) as [|Hge]; [done|].
    assert (1 ≤ h / b)%nat by (apply Nat.div_le_lower_bound; lia). nia.
  - intros Hlt. by rewrite Nat.div_small.
Qed.

(** The result of [block_reduce_mean], cell by cell. *)
Lemma block_reduce_mean_closed (arr : ndarray) by_y by_x :
  (0 < by_y ≤ length arr)%nat → (0 < by_x ≤ (shape arr).2)%nat →
  block_reduce_mean arr by_y by_x
  = Ok (map (λ i,
          map (λ j,
            nanmean (map (λ p,
              nanmean (map (λ q, nth (j * by_x + q) (nth (i * by_y + p) arr []) NaN)
                           (seq 0 by_x)))
              (seq 0 by_y)))
          (seq 0 ((shape arr).2 / by_x)))
        (seq 0 (length arr / by_y))).
Proof.
  intros Hy Hx. unfold block_reduce_mean.
  destruct (shape arr) as [h w] eqn:Hs.
  assert (h = length arr) as -> by (unfold shape in Hs; congruence).
  cbn [snd] in *.
  rewrite bool_decide_eq_false_2 by lia.
  rewrite bool_decide_eq_false_2
    by (rewrite !div_mul_zero by lia; lia).
  f_equal. rewrite !Nat.div_mul by lia.
  unfold nanmean_axis1, nanmean_axis3, reshape4.
  rewrite !map_map. apply map_ext_in. intros i Hi%in_seq.
  apply map_ext_in. intros j Hj%in_seq.
  f_equal. rewrite !map_map. apply map_ext_in. intros p Hp%in_seq.
  rewrite map_map, nth_map_seq by lia.
  f_equal. apply map_ext_in. intros q Hq%in_seq.
  apply trimmed_nth.
  - assert (i * by_y + p < (i + 1) * by_y)%nat by lia.
    assert ((i + 1) * by_y ≤ length arr / by_y * by_y)%nat
      by (apply Nat.mul_le_mono_r; lia). lia.
  - assert (j * by_x + q < (j + 1) * by_x)%nat by lia.
    assert ((j + 1) * by_x ≤ w / by_x * by_x)%nat
      by (apply Nat.mul_le_mono_r; lia). lia.
Qed.

(** [block_reduce_mean] returns only for positive block factors that fit
    the array. *)
Lemma block_reduce_mean_Ok_fits (arr out : ndarray) by_y by_x :
  block_reduce_mean arr by_y by_x = Ok out →
  (0 < by_y ≤ length arr ∧ 0 < by_x ≤ (shape arr).2)%nat.
Proof.
  unfold block_reduce_mean. destruct (shape arr) as [h w] eqn:Hs.
  assert (h = length arr) as -> by (unfold shape in Hs; congruence).
  cbn [snd]. case_bool_decide as H0; [done|].
  case_bool_decide as H1; [done|]. intros _.
  rewrite !div_mul_zero in H1 by lia. lia.
Qed.

(** X5.  [block_reduce_mean] raises [ZeroDivisionError] exactly when a
    block factor is 0, raises [ValueError] exactly when the factors are
    positive and one of them exceeds the array in its direction, and
    returns otherwise. *)
Theorem block_reduce_mean_outcome (arr : ndarray) (by_y by_x : nat) :
  (block_reduce_mean arr by_y by_x = Raise ZeroDivisionError
   ↔ (by_y = 0 ∨ by_x = 0)%nat) ∧
  (block_reduce_mean arr by_y by_x = Raise ValueError
   ↔ (0 < by_y ∧ 0 < by_x ∧ (length arr < by_y ∨ (shape arr).2 < by_x))%nat) ∧
  ((∃ out, block_reduce_mean arr by_y by_x = Ok out)
   ↔ (0 < by_y ≤ length arr ∧ 0 < by_x ≤ (shape arr).2)%nat).
Proof.
  destruct (decide (by_y = 0 ∨ by_x = 0)%nat) as [H0|H0].
  { assert (block_reduce_mean arr by_y by_x = Raise ZeroDivisionError) as ->.
    { unfold block_reduce_mean. destruct (shape arr).
      by rewrite bool_decide_eq_true_2. }
    split_and!; split; intros Hc; try done; try lia;
      by destruct Hc as [? Hc]. }
  destruct (decide (length arr < by_y ∨ (shape arr).2 < by_x)%nat) as [Hbig|Hfit].
  { assert (block_reduce_mean arr by_y by_x = Raise ValueError) as ->.
    { unfold block_reduce_mean. destruct (shape arr) as [h w] eqn:Hs.
      assert (h = length arr) as -> by (unfold shape in Hs; congruence).
      cbn [snd] in *. rewrite bool_decide_eq_false_2 by done.
      rewrite bool_decide_eq_true_2; [done|].
      rewrite !div_mul_zero by lia. done. }
    split_and!; split; intros Hc; try done; try lia;
      by destruct Hc as [? Hc]. }
  rewrite block_reduce_mean_closed by lia.
  split_and!; split; intros Hc; try done; try lia; by eexists.
Qed.

(** X6.  When [block_reduce_mean] returns, the coarse array has
    [h // by_y] rows of [w // by_x] cells each: a remainder of fewer than
    [by_y] rows or [by_x] columns is dropped. *)
Theorem block_reduce_mean_shape (arr out : ndarray) (by_y by_x : nat) :
  block_reduce_mean arr by_y by_x = Ok out →
  length out = (length arr / by_y)%nat ∧
  Forall (λ row, length row = ((shape arr).2 / by_x)%nat) out.
Proof.
  intros Hout.
  assert (0 < by_y ≤ length arr ∧ 0 < by_x ≤ (shape arr).2)%nat as [Hy Hx].
  { by eapply block_reduce_mean_Ok_fits. }
  rewrite block_reduce_mean_closed in Hout by done.
  injection Hout as <-. split.
  - by rewrite length_map, length_seq.
  - rewrite Forall_forall. intros row (i & -> & _)%list_elem_of_fmap.
    by rewrite length_map, length_seq.
Qed.

Lemma block_reduce_mean_shape_witness :
  length [[Fin (Qc_of_Z 2); Fin (Qc_of_Z 5); Fin (Qc_of_Z 7)]]
  = (length [[of_Z 1; NaN; of_Z 7]; [of_Z 3; of_Z 5; of_Z 7]] / 2)%nat ∧
  Forall (λ row, length row
                 = ((shape [[of_Z 1; NaN; of_Z 7]; [of_Z 3; of_Z 5; of_Z 7]]).2 / 1)%nat)
         [[Fin (Qc_of_Z 2); Fin (Qc_of_Z 5); Fin (Qc_of_Z 7)]].
Proof.
  apply (block_reduce_mean_shape [[of_Z 1; NaN; of_Z 7]; [of_Z 3; of_Z 5; of_Z 7]]
           [[Fin (Qc_of_Z 2); Fin (Qc_of_Z 5); Fin (Qc_of_Z 7)]] 2 1).
  compute_done.
Defined.

Lemma nanmean_singleton x : nanmean [x] = x.
Proof.
  destruct x as [q| | |]; try reflexivity.
  unfold nanmean. simpl. f_equal. apply Qc_is_canon. qc2q.
  unfold Qdiv. change (inject_Z 0) with 0%Q.
  change (/ inject_Z (Z.of_nat 1))%Q with 1%Q. ring.
Qed.

(** X7.  With block factors [(1, 1)] a rectangular, non-empty array is
    returned unchanged, missing cells and infinities included. *)
Theorem block_reduce_mean_identity (arr : ndarray) (w : nat) :
  arr ≠ [] → (0 < w)%nat → rect w arr →
  block_reduce_mean arr 1 1 = Ok arr.
Proof.
  intros Hne Hw Hrect.
  assert (Hs : (shape arr).2 = w).
  { destruct arr as [|row arr]; [done|]. simpl. by apply Forall_cons in Hrect as [? _]. }
  assert (0 < length arr)%nat by (destruct arr; simpl; [done|lia]).
  rewrite block_reduce_mean_closed by (rewrite ?Hs; lia).
  f_equal. rewrite Hs, !Nat.div_1_r.
  trans (map (λ i, nth i arr []) (seq 0 (length arr))); [|apply gather_seq].
  apply map_ext_in. intros i Hi%in_seq.
  assert (length (nth i arr []) = w) as Hlen.
  { unfold rect in Hrect. rewrite Forall_forall in Hrect.
    apply Hrect, list_elem_of_In, nth_In. lia. }
  trans (map (λ j, nth j (nth i arr []) NaN) (seq 0 (length (nth i arr []))));
    [|apply gather_seq].
  rewrite Hlen. apply map_ext. intros j. cbn [seq map].
  rewrite !nanmean_singleton. by rewrite !Nat.mul_1_r, !Nat.add_0_r.
Qed.

Lemma block_reduce_mean_identity_witness :
  block_reduce_mean [[of_Z 1; NaN]; [PInf; of_Z 5]] 1 1
  = Ok [[of_Z 1; NaN]; [PInf; of_Z 5]].
Proof.
  apply (block_reduce_mean_identity [[of_Z 1; NaN]; [PInf; of_Z 5]] 2).
  - discriminate.
  - lia.
  - unfold rect. compute_done.
Defined.

Lemma foldl_add_Fin a l : foldl add (Fin a) (map Fin l) = Fin (a + sum_Qc l).
Proof.
  revert a. induction l as [|x l IH]; intros a; simpl.
  - f_equal. unfold sum_Qc. simpl. ring.
  - rewrite IH. f_equal. unfold sum_Qc. simpl. ring.
Qed.

Lemma filter_notnan_Fin (l : list Qc) :
  filter (λ x, isnan x = false) (map Fin l) = map Fin l.
Proof.
  induction l as [|x l IH]; [done|]. simpl.
  rewrite filter_cons, decide_True by done. by rewrite IH.
Qed.

Lemma Qc_of_Z_0 : Qc_of_Z 0 = 0.
Proof. by apply Qc_is_canon. Qed.

Lemma Qc_of_Z_neq_0 n : n ≠ 0%Z → Qc_of_Z n ≠ 0.
Proof.
  intros Hn Heq. apply (f_equal this) in Heq. simpl in Heq.
  unfold inject_Z in Heq. by injection Heq.
Qed.

Lemma Qc_of_Z_mul a b : Qc_of_Z (a * b) = Qc_of_Z a * Qc_of_Z b.
Proof. apply Qc_is_canon. qc2q. by rewrite inject_Z_mult. Qed.

Lemma nanmean_Fin (l : list Qc) :
  l ≠ [] →
  nanmean (map Fin l) = Fin (sum_Qc l / Qc_of_Z (Z.of_nat (length l))).
Proof.
  intros Hl. unfold nanmean. cbv zeta. rewrite filter_notnan_Fin.
  destruct l as [|x l]; [done|].
  change (map Fin (x :: l)) with (Fin x :: map Fin l) at 1.
  cbv iota. unfold of_Z. rewrite foldl_add_Fin, length_map.
  unfold div_count. rewrite bool_decide_eq_false_2 by (simpl; lia).
  by rewrite Qc_of_Z_0, Qcplus_0_l.
Qed.

Lemma nanmean_all_nan (l : list float) :
  Forall (λ x, x = NaN) l → nanmean l = NaN.
Proof.
  intros Hl. unfold nanmean.
  assert (filter (λ x, isnan x = false) l = []) as ->; [|done].
  induction Hl as [|x l -> Hl IH]; [done|].
  by rewrite filter_cons, decide_False by done.
Qed.

Lemma sum_Qc_app l1 l2 : sum_Qc (l1 ++ l2) = sum_Qc l1 + sum_Qc l2.
Proof.
  unfold sum_Qc. induction l1 as [|x l1 IH]; simpl; [ring|]. rewrite IH. ring.
Qed.

Lemma sum_Qc_concat_scaled {A} (f : A → list Qc) (c : Qc) l :
  sum_Qc (map (λ p, sum_Qc (f p) / c) l) = sum_Qc (concat (map f l)) / c.
Proof.
  induction l as [|p l IH]; cbn [map concat].
  - change (sum_Qc []) with (Q2Qc 0). unfold Qcdiv. by rewrite Qcmult_0_l.
  - rewrite sum_Qc_app.
    change (sum_Qc (?x :: ?l')) with (x + sum_Qc l').
    rewrite IH. unfold Qcdiv. ring.
Qed.

Lemma cell_nth {A} (a : list (list A)) r c x d :
  cell a r c = Some x → nth c (nth r a []) d = x.
Proof.
  unfold cell. intros H. rewrite !nth_lookup.
  destruct (a !! r) as [row|]; simpl in *; [|done]. by rewrite H.
Qed.

(** X8.  On a rectangular grid without missing cells and infinities,
    every cell of [block_reduce_mean] is the arithmetic mean of the
    [by_y * by_x] cells of its block. *)
Theorem block_reduce_mean_finite_grid
    (qs : list (list Qc)) (w by_y by_x i j : nat) :
  rect w qs → (0 < by_y)%nat → (0 < by_x)%nat →
  (i < length qs / by_y)%nat → (j < w / by_x)%nat →
  ∃ out, block_reduce_mean (map (map Fin) qs) by_y by_x = Ok out ∧
         cell out i j
         = Some (Fin (sum_Qc (block_cells qs by_y by_x i j)
                      / Qc_of_Z (Z.of_nat (by_y * by_x)))).
Proof.
  intros Hrect Hy Hx Hi Hj.
  assert (Hh : (by_y ≤ length qs)%nat).
  { destruct (Nat.lt_ge_cases (length qs) by_y) as [Hlt|]; [|done].
    rewrite Nat.div_small in Hi by done. lia. }
  assert (Hw : (by_x ≤ w)%nat).
  { destruct (Nat.lt_ge_cases w by_x) as [Hlt|]; [|done].
    rewrite Nat.div_small in Hj by done. lia. }
  assert (Hs : (shape (map (map Fin) qs)).2 = w).
  { destruct qs as [|row qs]; [simpl in Hh; lia|]. simpl.
    apply Forall_cons in Hrect as [? _]. by rewrite length_map. }
  eexists. split.
  { apply block_reduce_mean_closed; rewrite ?Hs, ?length_map; lia. }
  rewrite Hs, length_map. unfold cell.
  rewrite list_lookup_fmap, lookup_seq_lt by done. simpl.
  rewrite list_lookup_fmap, lookup_seq_lt by done. simpl. f_equal.
  assert (Hrows : ∀ p, (p < by_y)%nat →
            map (λ q, nth (j * by_x + q) (nth (i * by_y + p) (map (map Fin) qs) []) NaN)
                (seq 0 by_x)
            = map Fin (map (λ q, nth (j * by_x + q) (nth (i * by_y + p) qs []) 0)
                           (seq 0 by_x))).
  { intros p Hp. rewrite map_map. apply map_ext_in. intros q Hq%in_seq.
    assert (i * by_y + p < length qs)%nat as Hr.
    { assert (i * by_y + p < (i + 1) * by_y)%nat by lia.
      assert ((i + 1) * by_y ≤ length qs / by_y * by_y)%nat
        by (apply Nat.mul_le_mono_r; lia).
      pose proof (Nat.Div0.mul_div_le (length qs) by_y). lia. }
    assert (j * by_x + q < w)%nat as Hc.
    { assert (j * by_x + q < (j + 1) * by_x)%nat by lia.
      assert ((j + 1) * by_x ≤ w / by_x * by_x)%nat
        by (apply Nat.mul_le_mono_r; lia).
      pose proof (Nat.Div0.mul_div_le w by_x). lia. }
    destruct (lookup_lt_is_Some_2 qs _ Hr) as [row Hrow].
    assert (length row = w) as Hlen.
    { unfold rect in Hrect. rewrite Forall_forall in Hrect.
      by eapply Hrect, list_elem_of_lookup_2. }
    destruct (lookup_lt_is_Some_2 row (j * by_x + q)) as [x Hx']; [lia|].
    rewrite (cell_nth (map (map Fin) qs) _ _ (Fin x)).
    - f_equal. symmetry. apply (cell_nth qs). unfold cell. by rewrite Hrow.
    - unfold cell. rewrite list_lookup_fmap, Hrow. simpl.
      by rewrite list_lookup_fmap, Hx'. }
  rewrite (map_ext_in _ (λ p, Fin (sum_Qc (map (λ q, nth (j * by_x + q)
                                                   (nth (i * by_y + p) qs []) 0)
                                                (seq 0 by_x))
                                   / Qc_of_Z (Z.of_nat by_x)))).
  2:{ intros p Hp%in_seq. rewrite Hrows by lia.
      rewrite nanmean_Fin by (destruct by_x; [lia|done]).
      by rewrite length_map, length_seq. }
  rewrite <- (map_map _ Fin), nanmean_Fin by (destruct by_y; [lia|done]).
  rewrite length_map, length_seq. f_equal.
  rewrite (sum_Qc_concat_scaled
             (λ p, map (λ q, nth (j * by_x + q) (nth (i * by_y + p) qs []) 0)
                       (seq 0 by_x))).
  fold (block_cells qs by_y by_x i j).
  rewrite Nat2Z.inj_mul, Qc_of_Z_mul.
  field. split; apply Qc_of_Z_neq_0; lia.
Qed.

Lemma block_reduce_mean_finite_grid_witness :
  ∃ out, block_reduce_mean
           (map (map Fin) [[Qc_of_Z 1; Qc_of_Z 2]; [Qc_of_Z 3; Qc_of_Z 6]]) 2 2
         = Ok out ∧
         cell out 0 0
         = Some (Fin (sum_Qc (block_cells
                                [[Qc_of_Z 1; Qc_of_Z 2]; [Qc_of_Z 3; Qc_of_Z 6]]
                                2 2 0 0)
                      / Qc_of_Z (Z.of_nat (2 * 2)))).
Proof.
  apply (block_reduce_mean_finite_grid
           [[Qc_of_Z 1; Qc_of_Z 2]; [Qc_of_Z 3; Qc_of_Z 6]] 2 2 2 0 0).
  - unfold rect. compute_done.
  - lia.
  - lia.
  - simpl. lia.
  - simpl. lia.
Defined.

(** X9.  A block whose cells are all missing yields a missing cell. *)
Theorem block_reduce_mean_missing_block
    (arr out : ndarray) (by_y by_x i j : nat) :
  block_reduce_mean arr by_y by_x = Ok out →
  (i < length arr / by_y)%nat → (j < (shape arr).2 / by_x)%nat →
  (∀ p q, (p < by_y)%nat → (q < by_x)%nat →
          cell arr (i * by_y + p) (j * by_x + q) = Some NaN) →
  cell out i j = Some NaN.
Proof.
  intros Hout Hi Hj Hnan.
  assert (0 < by_y ≤ length arr ∧ 0 < by_x ≤ (shape arr).2)%nat as [Hy Hx].
  { by eapply block_reduce_mean_Ok_fits. }
  rewrite block_reduce_mean_closed in Hout by done. injection Hout as <-.
  unfold cell. rewrite list_lookup_fmap, lookup_seq_lt by done. simpl.
  rewrite list_lookup_fmap, lookup_seq_lt by done. simpl. f_equal.
  apply nanmean_all_nan. rewrite Forall_forall.
  intros x (p & -> & Hp%elem_of_seq)%list_elem_of_fmap.
  apply nanmean_all_nan. rewrite Forall_forall.
  intros x (q & -> & Hq%elem_of_seq)%list_elem_of_fmap.
  apply cell_nth, Hnan; lia.
Qed.

Lemma block_reduce_mean_missing_block_witness :
  cell [[NaN; of_Z 4]] 0 0 = Some NaN.
Proof.
  apply (block_reduce_mean_missing_block
           [[NaN; of_Z 2]; [NaN; of_Z 6]] [[NaN; of_Z 4]] 2 1 0 0).
  - compute_done.
  - simpl. lia.
  - simpl. lia.
  - intros p q Hp Hq. destruct q as [|q]; [|lia].
    destruct p as [|[|p]]; [reflexivity|reflexivity|lia].
Defined.

End BlockReduceMore.

(** ** The native step of an axis *)

Section InferStep.

Import TempoToJson.

Lemma median_perm l1 l2 : l1 ≡ₚ l2 → median l1 = median l2.
Proof.
  intros Hp. unfold median.
  assert (stable_sort (λ a b : Qc, bool_decide (a < b)) l1
          = stable_sort (λ a b : Qc, bool_decide (a < b)) l2) as ->; [|done].
  assert (Hasym : ∀ x y : Qc, bool_decide (x < y) = true → bool_decide (y < x) = false).
  { intros x y H%bool_decide_eq_true. apply bool_decide_eq_false.
    by apply Qcle_not_lt, Qclt_le_weak. }
  assert (Htrans : ∀ x y z : Qc,
            may_precede (λ a b : Qc, bool_decide (a < b)) x y →
            may_precede (λ a b : Qc, bool_decide (a < b)) y z →
            may_precede (λ a b : Qc, bool_decide (a < b)) x z).
  { unfold may_precede.
    intros x y z H1%bool_decide_eq_false%Qcnot_lt_le H2%bool_decide_eq_false%Qcnot_lt_le.
    apply bool_decide_eq_false, Qcle_not_lt. by trans y. }
  apply (StronglySorted_unique_strong (may_precede (λ a b : Qc, bool_decide (a < b)))).
  - unfold may_precede.
    intros x y _ _ H1%bool_decide_eq_false%Qcnot_lt_le H2%bool_decide_eq_false%Qcnot_lt_le.
    by apply Qcle_antisym.
  - by apply stable_sort_sorted.
  - by apply stable_sort_sorted.
  - by rewrite !stable_sort_perm.
Qed.

Lemma median_between (l : list Qc) (lo hi : Qc) :
  l ≠ [] → Forall (λ x, lo ≤ x ∧ x ≤ hi) l → lo ≤ median l ∧ median l ≤ hi.
Proof.
  intros Hne Hl. unfold median. cbv zeta.
  set (s := stable_sort _ l).
  assert (Hs : Forall (λ x, lo ≤ x ∧ x ≤ hi) s).
  { unfold s. by rewrite stable_sort_perm. }
  assert (Hlen : (0 < length s)%nat).
  { unfold s. rewrite stable_sort_perm. destruct l; simpl; [done|lia]. }
  assert (Hnth : ∀ k, (k < length s)%nat → lo ≤ nth k s 0 ∧ nth k s 0 ≤ hi).
  { intros k Hk. rewrite Forall_forall in Hs.
    apply Hs, list_elem_of_In, nth_In. done. }
  pose proof (Nat.Div0.div_lt_upper_bound (length s) 2 (length s)) as Hhalf.
  destruct (Nat.even (length s)).
  - destruct (Hnth (length s / 2 - 1)%nat) as [H1 H2]; [lia|].
    destruct (Hnth (length s / 2)%nat) as [H3 H4]; [apply Hhalf; lia|].
    revert H1 H2 H3 H4. generalize (nth (length s / 2 - 1) s 0) (nth (length s / 2) s 0).
    intros a b. qc2q. unfold Qdiv. change (/ inject_Z 2)%Q with (1 # 2)%Q.
    intros. split; lra.
  - apply Hnth, Hhalf. lia.
Qed.

Lemma diff_cons2 a b (l : list float) : diff (a :: b :: l) = sub b a :: diff (b :: l).
Proof. reflexivity. Qed.

Lemma diff_snoc (l : list float) x :
  diff (l ++ [x])
  = diff l ++ match last l with Some y => [sub x y] | None => [] end.
Proof.
  induction l as [|a l IH]; [done|].
  destruct l as [|b l]; [done|].
  change ((a :: b :: l) ++ [x]) with (a :: b :: (l ++ [x])).
  rewrite !diff_cons2. change (b :: l ++ [x]) with ((b :: l) ++ [x]).
  rewrite IH. by rewrite last_cons_cons.
Qed.

Lemma finite_values_app l1 l2 :
  finite_values (l1 ++ l2) = finite_values l1 ++ finite_values l2.
Proof. apply omap_app. Qed.

Lemma abs_diff_sym (x y : float) :
  map Qcabs.Qcabs (finite_values [sub x y])
  = map Qcabs.Qcabs (finite_values [sub y x]).
Proof.
  destruct x as [a| | |], y as [b| | |]; try reflexivity.
  unfold sub, neg, add, finite_values. simpl. f_equal.
  apply Qcabs.Qcabs_Qcminus.
Qed.

Lemma abs_diffs_reverse (vec : list float) :
  map Qcabs.Qcabs (finite_values (diff (reverse vec)))
  ≡ₚ map Qcabs.Qcabs (finite_values (diff vec)).
Proof.
  induction vec as [|a vec IH]; [done|].
  rewrite reverse_cons, diff_snoc, finite_values_app, map_app, IH.
  destruct vec as [|b vec]; [done|].
  rewrite diff_cons2, reverse_cons, last_snoc.
  change (sub b a :: diff (b :: vec)) with ([sub b a] ++ diff (b :: vec)).
  rewrite finite_values_app, map_app, (abs_diff_sym a b).
  apply Permutation_app_comm.
Qed.

(** X10.  [infer_step] gives the same answer for an axis and for the
    axis reversed: the native step does not depend on the direction in
    which the coordinates run. *)
Theorem infer_step_reverse (vec : list float) :
  infer_step (reverse vec) = infer_step vec.
Proof.
  unfold infer_step. cbv zeta.
  pose proof (abs_diffs_reverse vec) as Hp.
  pose proof (Permutation_length Hp) as Hlen. rewrite !length_map in Hlen.
  rewrite Hlen, (median_perm _ _ Hp). done.
Qed.

Lemma finite_values_nonempty (l : list float) :
  finite_values l ≠ [] ↔ ∃ k q, l !! k = Some (Fin q).
Proof.
  unfold finite_values. induction l as [|x l IH]; simpl.
  - split; [done|]. by intros (k & q & ?).
  - destruct x as [q| | |]; simpl.
    + split; [|done]. intros _. by exists 0%nat, q.
    + rewrite IH. split; intros (k & q & Hk); [by exists (S k), q|].
      destruct k; [done|]. by exists k, q.
    + rewrite IH. split; intros (k & q & Hk); [by exists (S k), q|].
      destruct k; [done|]. by exists k, q.
    + rewrite IH. split; intros (k & q & Hk); [by exists (S k), q|].
      destruct k; [done|]. by exists k, q.
Qed.

Lemma diff_lookup_finite (vec : list float) k q :
  diff vec !! k = Some (Fin q) ↔
  ∃ x y, vec !! k = Some (Fin x) ∧ vec !! S k = Some (Fin y) ∧ q = y - x.
Proof.
  unfold diff. rewrite lookup_zip_with, lookup_tail.
  destruct (vec !! k) as [a|]; simpl; [|split; [done|by intros (?&?&?&?)]].
  destruct (vec !! S k) as [b|]; simpl; [|split; [done|by intros (?&?&?&?&?)]].
  destruct a as [x| | |], b as [y| | |]; simpl;
    try (split; [done|by intros (?&?&?&?&?)]).
  split.
  - intros [= <-]. by exists x, y.
  - intros (x' & y' & [= <-] & [= <-] & ->). done.
Qed.

(** X11.  [infer_step] raises [ValueError] whenever the axis has no two
    consecutive finite entries (fewer than two points, or a NaN or an
    infinity beside every finite entry), and it raises nothing else.
    When it returns, the axis has two consecutive finite entries and the
    step is not negative.  The converse is left out: two finite
    neighbours whose difference overflows binary64 are not told apart
    from the others here. *)
Theorem infer_step_outcome (vec : list float) :
  (¬ (∃ k x y, vec !! k = Some (Fin x) ∧ vec !! S k = Some (Fin y))
   → infer_step vec = Raise ValueError) ∧
  (∀ e, infer_step vec = Raise e → e = ValueError) ∧
  (∀ step, infer_step vec = Ok step →
     le (of_Z 0) step = true ∧
     ∃ k x y, vec !! k = Some (Fin x) ∧ vec !! S k = Some (Fin y)).
Proof.
  assert (Hchar : finite_values (diff vec) ≠ []
                  ↔ ∃ k x y, vec !! k = Some (Fin x) ∧ vec !! S k = Some (Fin y)).
  { rewrite finite_values_nonempty. split.
    - intros (k & q & (x & y & ? & ? & _)%diff_lookup_finite). by exists k, x, y.
    - intros (k & x & y & Hx & Hy). exists k, (y - x).
      apply diff_lookup_finite. by exists x, y. }
  unfold infer_step. cbv zeta.
  destruct (finite_values (diff vec)) as [|d ds] eqn:E.
  - rewrite bool_decide_eq_true_2 by done. split_and!; [done| |done].
    by intros e [= <-].
  - rewrite bool_decide_eq_false_2 by done. split_and!; [|done|].
    { intros Hno. exfalso. apply Hno, Hchar. done. }
    intros step [= <-]. split; [|by apply Hchar].
    unfold le, of_Z. apply bool_decide_eq_true. rewrite Qc_of_Z_0.
    change (Qcabs.Qcabs d :: map Qcabs.Qcabs ds) with (map Qcabs.Qcabs (d :: ds)).
    apply (median_between _ 0 (foldr Qcplus 0 (map Qcabs.Qcabs (d :: ds)))); [done|].
    clear. induction (d :: ds) as [|x l IH]; constructor.
    + split; [apply Qcabs.Qcabs_nonneg|]. simpl.
      rewrite <- (Qcplus_0_r (Qcabs.Qcabs x)) at 1.
      apply Qcplus_le_compat; [apply Qcle_refl|].
      clear. induction l as [|y l IH]; simpl; [apply Qcle_refl|].
      rewrite <- (Qcplus_0_r 0). apply Qcplus_le_compat; [apply Qcabs.Qcabs_nonneg|done].
    + eapply Forall_impl; [exact IH|]. simpl. intros y [Hy1 Hy2]. split; [done|].
      rewrite <- (Qcplus_0_l y). apply Qcplus_le_compat; [apply Qcabs.Qcabs_nonneg|done].
Qed.

(** X12.  For an evenly spaced axis of at least two points,
    [a0, a0 + d, a0 + 2 d, ...], [infer_step] returns [|d|]. *)
Theorem infer_step_uniform (a0 d : Qc) (n : nat) :
  (2 ≤ n)%nat →
  infer_step (map (λ i, Fin (a0 + Qc_of_Z (Z.of_nat i) * d)) (seq 0 n))
  = Ok (Fin (Qcabs.Qcabs d)).
Proof.
  intros Hn.
  assert (Hdiff : ∀ m k, diff (map (λ i, Fin (a0 + Qc_of_Z (Z.of_nat i) * d))
                                   (seq k (S m)))
                         = replicate m (Fin d)).
  { induction m as [|m IH]; intros k; [done|].
    cbn [seq map]. rewrite diff_cons2. cbn [replicate]. f_equal.
    - unfold sub, neg, add. f_equal. rewrite Nat2Z.inj_succ.
      apply Qc_is_canon. qc2q. rewrite <- Z.add_1_r, inject_Z_plus.
      change (inject_Z 1) with 1%Q. ring.
    - apply (IH (S k)). }
  destruct n as [|[|m]]; [lia..|].
  unfold infer_step. cbv zeta. rewrite Hdiff.
  assert (finite_values (replicate (S m) (Fin d)) = replicate (S m) d) as ->.
  { clear. induction (S m) as [|k IH]; [done|]. simpl.
    unfold finite_values in *. simpl. by rewrite IH. }
  rewrite bool_decide_eq_false_2 by done. do 2 f_equal.
  apply Qcle_antisym;
    apply (median_between _ (Qcabs.Qcabs d) (Qcabs.Qcabs d)); try done.
  all: rewrite Forall_fmap; apply Forall_replicate; simpl;
    split; apply Qcle_refl.
Qed.

Lemma infer_step_uniform_witness :
  infer_step (map (λ i, Fin (Qc_of_Z 50 + Qc_of_Z (Z.of_nat i) * Qc_of_Z (-2)))
                  (seq 0 4))
  = Ok (Fin (Qcabs.Qcabs (Qc_of_Z (-2)))).
Proof. apply (infer_step_uniform (Qc_of_Z 50) (Qc_of_Z (-2)) 4). lia. Defined.

End InferStep.

(** ** Longitude normalization: outcome, columns, periodicity *)

Section NormalizeLonMore.

Import TempoToJson.

Lemma shape_check_rect {A} (w : nat) (a : list (list A)) :
  forallb (λ row, length row =? w)%nat a = true ↔ rect w a.
Proof.
  unfold rect. rewrite forallb_forall, Forall_forall. split.
  - intros H row Hrow. by apply Nat.eqb_eq, H, list_elem_of_In.
  - intros H row Hrow. by apply Nat.eqb_eq, H, list_elem_of_In.
Qed.

(** X13.  [normalize_lon_and_align] raises [ValueError] exactly when
    some row of the array has not as many cells as the axis has
    longitudes; otherwise it returns an axis and an array of the lengths
    it was given. *)
Theorem normalize_lon_outcome (lon1d : list Qc) (arr2d : ndarray) :
  (normalize_lon_and_align lon1d arr2d = Raise ValueError
   ↔ ¬ rect (length lon1d) arr2d) ∧
  (rect (length lon1d) arr2d
   ↔ ∃ lon_sorted arr_sorted,
       normalize_lon_and_align lon1d arr2d = Ok (lon_sorted, arr_sorted) ∧
       length lon_sorted = length lon1d ∧
       length arr_sorted = length arr2d ∧
       rect (length lon1d) arr_sorted).
Proof.
  unfold normalize_lon_and_align. cbv zeta.
  destruct (forallb _ arr2d) eqn:E; cbn [negb].
  - apply shape_check_rect in E. split; split; try done.
    + intros _. eexists _, _. split; [reflexivity|].
      assert (Hlen : length (argsort (lon_norm lon1d)) = length lon1d).
      { rewrite argsort_length. unfold lon_norm. by rewrite length_map. }
      rewrite !length_map. split; [done|]. split; [done|].
      unfold rect. rewrite Forall_forall.
      intros row (row0 & -> & _)%list_elem_of_fmap. by rewrite length_map.
  - assert (¬ rect (length lon1d) arr2d) as Hn.
    { intros Hr%shape_check_rect. congruence. }
    split; split; try done. by intros (? & ? & ? & _).
Qed.

(** X14.  [normalize_lon_and_align] only moves columns: there is a
    permutation of the column indices such that every returned column
    [j] carries the normalized longitude of a source column [i] and, in
    every row, the cell of that source column. *)
Theorem normalize_lon_moves_columns
    (lon1d lon_sorted : list Qc) (arr2d arr_sorted : ndarray) :
  normalize_lon_and_align lon1d arr2d = Ok (lon_sorted, arr_sorted) →
  ∃ order,
    order ≡ₚ seq 0 (length lon1d) ∧
    ∀ j i, order !! j = Some i →
      lon_sorted !! j = lon_norm lon1d !! i ∧
      ∀ r, cell arr_sorted r j = cell arr2d r i.
Proof.
  intros Hok.
  unfold normalize_lon_and_align in Hok. cbv zeta in Hok.
  destruct (forallb _ arr2d) eqn:Hrect; cbn [negb] in Hok; [|done].
  apply shape_check_rect in Hrect.
  injection Hok as <- <-.
  exists (argsort (lon_norm lon1d)).
  assert (Hperm : argsort (lon_norm lon1d) ≡ₚ seq 0 (length lon1d)).
  { rewrite argsort_perm. unfold lon_norm. by rewrite length_map. }
  split; [done|]. intros j i Hj.
  assert (Hi : (i < length lon1d)%nat).
  { apply list_elem_of_lookup_2 in Hj. rewrite Hperm in Hj.
    apply elem_of_seq in Hj. lia. }
  split.
  - rewrite list_lookup_fmap, Hj. simpl.
    destruct (lookup_lt_is_Some_2 (lon_norm lon1d) i) as [x Hx].
    { unfold lon_norm. by rewrite length_map. }
    rewrite Hx. f_equal. by apply nth_lookup_Some with (d := 0) in Hx.
  - intros r. unfold cell. rewrite list_lookup_fmap.
    destruct (arr2d !! r) as [row|] eqn:Hr; simpl; [|done].
    rewrite list_lookup_fmap, Hj. simpl.
    assert (length row = length lon1d) as Hlen.
    { unfold rect in Hrect. rewrite Forall_forall in Hrect.
      by eapply Hrect, list_elem_of_lookup_2. }
    destruct (lookup_lt_is_Some_2 row i) as [x Hx]; [lia|].
    rewrite Hx. f_equal. by apply nth_lookup_Some with (d := NaN) in Hx.
Qed.

Lemma normalize_lon_moves_columns_witness :
  ∃ order,
    order ≡ₚ seq 0 (length [Qc_of_Z 170; Qc_of_Z 190]) ∧
    ∀ j i, order !! j = Some i →
      [Qc_of_Z (-170); Qc_of_Z 170] !! j
      = lon_norm [Qc_of_Z 170; Qc_of_Z 190] !! i ∧
      ∀ r, cell [[of_Z 2; of_Z 1]; [of_Z 4; of_Z 3]] r j
           = cell [[of_Z 1; of_Z 2]; [of_Z 3; of_Z 4]] r i.
Proof.
  apply (normalize_lon_moves_columns [Qc_of_Z 170; Qc_of_Z 190]
           [Qc_of_Z (-170); Qc_of_Z 170]
           [[of_Z 1; of_Z 2]; [of_Z 3; of_Z 4]]
           [[of_Z 2; of_Z 1]; [of_Z 4; of_Z 3]]).
  compute_done.
Defined.

(** X15.  In exact arithmetic, longitudes that differ by whole turns
    are the same longitude to [normalize_lon_and_align]: adding a
    multiple of 360 degrees to each entry of the axis changes nothing in
    the result.  In binary64 the two normalized values agree only up to
    rounding: [Binary64.lon_norm] maps [0.1] and [0.1 + 360] to numbers
    that differ by [2^-45]. *)
Theorem normalize_lon_whole_turns (lon1d : list Qc) (turns : list Z) (arr2d : ndarray) :
  length turns = length lon1d →
  normalize_lon_and_align
    (zip_with (λ l k, l + Qc_of_Z (360 * k)) lon1d turns) arr2d
  = normalize_lon_and_align lon1d arr2d.
Proof.
  intros Hlen.
  assert (Hnorm : lon_norm (zip_with (λ l k, l + Qc_of_Z (360 * k)) lon1d turns)
                  = lon_norm lon1d).
  { unfold lon_norm. revert turns Hlen.
    induction lon1d as [|l lon1d IH]; intros [|k turns] Hlen; simpl in *; try done.
    f_equal; [|apply IH; lia].
    unfold mod_.
    rewrite (Qfloor_shift (this (l + Qc_of_Z 180) / this (Qc_of_Z 360)) _ k).
    - apply Qc_is_canon. qc2q. rewrite inject_Z_plus, inject_Z_mult.
      change (inject_Z 360) with (360 # 1)%Q.
      change (inject_Z 180) with (180 # 1)%Q.
      set (F := inject_Z (Qfloor _)). set (K := inject_Z k). clearbody F K. ring.
    - qc2q. rewrite inject_Z_mult. unfold Qdiv.
      change (/ inject_Z 360)%Q with (1 # 360)%Q.
      change (inject_Z 360) with (360 # 1)%Q.
      change (inject_Z 180) with (180 # 1)%Q.
      set (K := inject_Z k). clearbody K. ring. }
  unfold normalize_lon_and_align. rewrite Hnorm.
  by rewrite length_zip_with, Hlen, Nat.min_id.
Qed.

Lemma normalize_lon_whole_turns_witness :
  normalize_lon_and_align
    (zip_with (λ l k, l + Qc_of_Z (360 * k)) [Qc_of_Z 10; Qc_of_Z (-20)] [1%Z; (-2)%Z])
    [[of_Z 1; of_Z 2]]
  = normalize_lon_and_align [Qc_of_Z 10; Qc_of_Z (-20)] [[of_Z 1; of_Z 2]].
Proof.
  apply (normalize_lon_whole_turns [Qc_of_Z 10; Qc_of_Z (-20)] [1%Z; (-2)%Z]
           [[of_Z 1; of_Z 2]]).
  reflexivity.
Defined.

(** In binary64, [0.1] and [0.1 + 360] normalize to two numbers
    [2^-45] apart. *)
Example lon_norm_whole_turn_binary64 :
  let x := Binary64.div (Binary64.of_Z 1) (Binary64.of_Z 10) in
  Binary64.lon_norm [x; Binary64.add x (Binary64.of_Z 360)]
  = [SpecFloat.S754_finite false 7205759403792384 (-56);
     SpecFloat.S754_finite false 7205759403794432 (-56)].
Proof. vm_compute. reflexivity. Qed.

End NormalizeLonMore.

(** ** The latitude direction *)

Section AlignLatitude.

Import TempoToJson.

Lemma lt_asym (x y : float) : lt x y = true → lt y x = false.
Proof.
  destruct x as [a| | |], y as [b| | |]; simpl; try done.
  intros Hab%bool_decide_eq_true. apply bool_decide_eq_false.
  by apply Qcle_not_lt, Qclt_le_weak.
Qed.

Lemma py_index_nil {A} (i : Z) : py_index (@nil A) i = Raise IndexError.
Proof.
  unfold py_index. cbv zeta. cbn [length].
  destruct (bool_decide_reflect (i < 0)%Z);
    by rewrite bool_decide_eq_false_2 by lia.
Qed.

Lemma py_index_first {A} (l : list A) x : head l = Some x → py_index l 0 = Ok x.
Proof. intros H. apply (py_index_Ok l 0). by rewrite <- head_lookup. Qed.

Lemma py_index_last {A} (l : list A) x : last l = Some x → py_index l (-1) = Ok x.
Proof.
  intros H. rewrite last_lookup in H.
  pose proof (lookup_lt_Some _ _ _ H) as Hlt.
  unfold py_index. cbv zeta.
  rewrite (bool_decide_eq_true_2 (-1 < 0)%Z) by lia.
  rewrite bool_decide_eq_true_2 by lia.
  replace (Z.to_nat (-1 + Z.of_nat (length l))) with (pred (length l)) by lia.
  by rewrite H.
Qed.

Lemma zip_reverse {A B} (l : list A) (k : list B) :
  length l = length k → zip (reverse l) (reverse k) = reverse (zip l k).
Proof.
  revert k. induction l as [|x l IH]; intros [|y k] Hlen; simpl in *; try done.
  rewrite !reverse_cons, zip_with_app by (rewrite !length_reverse; lia).
  rewrite IH by lia. done.
Qed.

Lemma StronglySorted_reverse {A} (R : relation A) (l : list A) :
  StronglySorted R l → StronglySorted (flip R) (reverse l).
Proof.
  induction 1 as [|x l Hs IH Hx]; [constructor|].
  rewrite reverse_cons. apply StronglySorted_app_2.
  - intros x1 x2 Hx1 ->%list_elem_of_singleton.
    rewrite elem_of_reverse in Hx1. rewrite Forall_forall in Hx. unfold flip. by apply Hx.
  - done.
  - repeat constructor.
Qed.

Lemma StronglySorted_head_last {A} (R : relation A) (l : list A) x y :
  StronglySorted R l → head l = Some x → last l = Some y →
  (2 ≤ length l)%nat → R x y.
Proof.
  intros Hs Hx Hy Hlen. destruct l as [|x' l]; [done|]. simpl in Hx. simplify_eq.
  apply StronglySorted_cons in Hs as [Hall _]. rewrite Forall_forall in Hall.
  apply Hall. destruct l as [|z l]; [simpl in Hlen; lia|].
  rewrite last_cons_cons in Hy. by apply last_Some_elem_of.
Qed.

(** What [align_latitude] returns on a non-empty axis. *)
Lemma align_latitude_unfold (lat1d : list float) (arr : ndarray) first last_ :
  head lat1d = Some first → last lat1d = Some last_ →
  align_latitude lat1d arr
  = if gt first last_ then Ok (reverse lat1d, reverse arr) else Ok (lat1d, arr).
Proof.
  intros Hf Hl. unfold align_latitude.
  by rewrite (py_index_first _ _ Hf), (py_index_last _ _ Hl).
Qed.

(** X16.  On a latitude axis that runs strictly in one direction, north
    to south or south to north, [align_latitude] returns the axis in
    strictly ascending order, and every row of the array keeps its
    latitude. *)
Theorem align_latitude_ascending (lat1d : list float) (arr : ndarray) :
  lat1d ≠ [] →
  StronglySorted (λ a b, lt a b = true) lat1d
  ∨ StronglySorted (λ a b, lt b a = true) lat1d →
  length arr = length lat1d →
  ∃ lat' arr',
    align_latitude lat1d arr = Ok (lat', arr') ∧
    StronglySorted (λ a b, lt a b = true) lat' ∧
    zip lat' arr' ≡ₚ zip lat1d arr.
Proof.
  intros Hne Hmono Hlen.
  destruct (head lat1d) as [first|] eqn:Hf; [|by destruct lat1d].
  destruct (last lat1d) as [last_|] eqn:Hl; [|by apply last_None in Hl].
  rewrite (align_latitude_unfold _ _ _ _ Hf Hl).
  destruct (decide (2 ≤ length lat1d)%nat) as [H2|H1].
  - destruct Hmono as [Hup|Hdown].
    + pose proof (StronglySorted_head_last _ _ _ _ Hup Hf Hl H2) as Hfl.
      unfold gt. rewrite (lt_asym _ _ Hfl). by eexists _, _.
    + pose proof (StronglySorted_head_last _ _ _ _ Hdown Hf Hl H2) as Hfl.
      simpl in Hfl. unfold gt. rewrite Hfl. eexists _, _. split; [done|]. split.
      * by apply StronglySorted_reverse in Hdown.
      * rewrite zip_reverse by done. apply reverse_Permutation.
  - destruct lat1d as [|x [|y l]]; [done| |simpl in H1; lia].
    simpl in Hf, Hl. injection Hf as <-. injection Hl as <-.
    assert (gt x x = false) as ->.
    { unfold gt. destruct (lt x x) eqn:E; [|done].
      by rewrite (lt_asym _ _ E) in E. }
    eexists _, _. split; [done|]. split; [|done]. repeat constructor.
Qed.

Lemma align_latitude_ascending_witness :
  ∃ lat' arr',
    align_latitude [of_Z 30; of_Z 20; of_Z 10] [[of_Z 1]; [of_Z 2]; [of_Z 3]]
    = Ok (lat', arr') ∧
    StronglySorted (λ a b, lt a b = true) lat' ∧
    zip lat' arr'
    ≡ₚ zip [of_Z 30; of_Z 20; of_Z 10] [[of_Z 1]; [of_Z 2]; [of_Z 3]].
Proof.
  apply (align_latitude_ascending [of_Z 30; of_Z 20; of_Z 10]
           [[of_Z 1]; [of_Z 2]; [of_Z 3]]).
  - discriminate.
  - right. repeat constructor.
  - reflexivity.
Defined.

(** X17.  [align_latitude] raises [IndexError] exactly on an empty axis,
    and aligning a second time changes nothing: whatever the axis holds
    (missing entries included), the returned axis is not turned again. *)
Theorem align_latitude_idempotent (lat1d : list float) (arr : ndarray) :
  (align_latitude lat1d arr = Raise IndexError ↔ lat1d = []) ∧
  (∀ lat' arr', align_latitude lat1d arr = Ok (lat', arr') →
     align_latitude lat' arr' = Ok (lat', arr')).
Proof.
  destruct (head lat1d) as [first|] eqn:Hf.
  2:{ destruct lat1d; [|done]. unfold align_latitude. rewrite py_index_nil.
      split; [done|]. by intros ?? [=]. }
  destruct (last lat1d) as [last_|] eqn:Hl; [|apply last_None in Hl; by subst].
  rewrite (align_latitude_unfold _ _ _ _ Hf Hl).
  destruct (gt first last_) eqn:E.
  - split; [split; [done|by intros ->]|].
    intros lat' arr' [= <- <-].
    rewrite (align_latitude_unfold _ _ last_ first)
      by (by rewrite ?head_reverse, ?last_reverse).
    unfold gt in *. by rewrite (lt_asym _ _ E).
  - split; [split; [done|by intros ->]|].
    intros lat' arr' [= <- <-].
    by rewrite (align_latitude_unfold _ _ _ _ Hf Hl), E.
Qed.

End AlignLatitude.

(** ** Regridding onto the same axes *)

Section ReindexMore.

Import TempoToJson.

Lemma gather_clamped {A} (a : list Qc) (l : list A) (d : A) :
  StronglySorted Qclt a → length l = length a →
  map (λ v, default d (l !! clamped a v)) a = l.
Proof.
  intros Hs Hlen. apply list_eq. intros k. rewrite list_lookup_fmap.
  destruct (a !! k) as [v|] eqn:E; simpl.
  - rewrite (clamped_exact _ _ _ Hs E).
    destruct (lookup_lt_is_Some_2 l k) as [x ->]; [|done].
    apply lookup_lt_Some in E. lia.
  - symmetry. apply lookup_ge_None. apply lookup_ge_None in E. lia.
Qed.

(** X18.  Regridding a grid onto its own axes returns the grid: for
    strictly ascending axes and a grid of their shape, [reindex_to] with
    the destination axes equal to the source axes changes no cell. *)
Theorem reindex_to_same_axes (lat lon : list Qc) (src : ndarray) :
  StronglySorted Qclt lat → StronglySorted Qclt lon →
  length src = length lat → rect (length lon) src →
  reindex_to lat lon src lat lon = Ok src.
Proof.
  intros Hsy Hsx Hlen Hrect.
  unfold reindex_to. rewrite !map_map, !rmapM_map.
  rewrite (rmapM_Ok _ (λ vy, default [] (src !! clamped lat vy))).
  { f_equal. by apply gather_clamped. }
  intros vy Hvy.
  assert (Hny : lat ≠ []) by (intros ->; by apply not_elem_of_nil in Hvy).
  rewrite clip_searchsorted by done.
  assert (Hky : (clamped lat vy < length src)%nat).
  { unfold clamped. destruct lat; simpl in *; [done|lia]. }
  destruct (lookup_lt_is_Some_2 src _ Hky) as [row Hrow].
  rewrite (py_index_Ok _ _ _ Hrow), Hrow. simpl.
  assert (Hrowlen : length row = length lon).
  { unfold rect in Hrect. rewrite Forall_forall in Hrect.
    apply Hrect. by eapply list_elem_of_lookup_2. }
  rewrite rmapM_map.
  rewrite (rmapM_Ok _ (λ vx, default NaN (row !! clamped lon vx))).
  { f_equal. by apply gather_clamped. }
  intros vx Hvx.
  assert (Hnx : lon ≠ []) by (intros ->; by apply not_elem_of_nil in Hvx).
  rewrite clip_searchsorted by done.
  assert (Hkx : (clamped lon vx < length row)%nat).
  { unfold clamped. destruct lon; simpl in *; [done|lia]. }
  destruct (lookup_lt_is_Some_2 row _ Hkx) as [y Hy].
  by rewrite (py_index_Ok _ _ _ Hy), Hy.
Qed.

Lemma reindex_to_same_axes_witness :
  reindex_to [Qc_of_Z 10; Qc_of_Z 20] [Qc_of_Z (-5); Qc_of_Z 0; Qc_of_Z 5]
             [[of_Z 1; NaN; of_Z 3]; [of_Z 4; of_Z 5; PInf]]
             [Qc_of_Z 10; Qc_of_Z 20] [Qc_of_Z (-5); Qc_of_Z 0; Qc_of_Z 5]
  = Ok [[of_Z 1; NaN; of_Z 3]; [of_Z 4; of_Z 5; PInf]].
Proof.
  apply (reindex_to_same_axes [Qc_of_Z 10; Qc_of_Z 20]
           [Qc_of_Z (-5); Qc_of_Z 0; Qc_of_Z 5]
           [[of_Z 1; NaN; of_Z 3]; [of_Z 4; of_Z 5; PInf]]).
  - compute_done.
  - compute_done.
  - reflexivity.
  - repeat constructor.
Defined.

End ReindexMore.

(** ** The cloud mask *)

Section CloudMask.

Import TempoToJson.

Ltac qc_unit :=
  repeat match goal with
  | H : ¬ (_ < _)%Qc |- _ => apply Qcnot_lt_le in H
  | H : ¬ (_ ≤ _)%Qc |- _ => apply Qcnot_le_lt in H
  end;
  unfold Qcle, Qclt in *;
  change (this (Qc_of_Z 0)) with 0%Q in *;
  change (this (Qc_of_Z 1)) with 1%Q in *; lra.

Ltac clip_cases :=
  unfold gt, fclip, minimum, maximum, of_Z; simpl;
  repeat (case_bool_decide; simpl);
  try reflexivity; try (exfalso; qc_unit).

Lemma clip_never_above_one (c : float) (th : Qc) :
  Qc_of_Z 1 ≤ th → gt (fclip c (of_Z 0) (of_Z 1)) (Fin th) = false.
Proof. intros Hth. destruct c as [q| | |]; clip_cases. Qed.

Lemma clip_keeps_comparison (c : float) (th : Qc) :
  Qc_of_Z 0 ≤ th → th < Qc_of_Z 1 →
  gt (fclip c (of_Z 0) (of_Z 1)) (Fin th) = gt c (Fin th).
Proof. intros H0 H1. destruct c as [q| | |]; clip_cases. Qed.

Lemma zip_with2_map_l {A A' B C} (f : A' → B → C) (g : A → A')
    (a : list (list A)) (b : list (list B)) :
  zip_with2 f (map (map g) a) b = zip_with2 (λ x y, f (g x) y) a b.
Proof.
  unfold zip_with2. revert b. induction a as [|r a IH]; intros [|s b]; simpl; try done.
  f_equal; [|apply IH].
  clear. revert s. induction r as [|x r IH]; intros [|y s]; simpl; try done.
  by rewrite IH.
Qed.

Lemma zip_with2_snd {A B} (a : list (list A)) (b : list (list B)) :
  map length a = map length b → zip_with2 (λ _ y, y) a b = b.
Proof.
  unfold zip_with2. revert b. induction a as [|r a IH]; intros [|s b] H; simpl in *;
    try done.
  injection H as Hr Hrest. f_equal; [|by apply IH].
  clear -Hr. revert s Hr. induction r as [|x r IH]; intros [|y s] H; simpl in *;
    try done.
  f_equal. apply IH. lia.
Qed.

Lemma zip_with2_ext {A B C} (f g : A → B → C) a b :
  (∀ x y, f x y = g x y) → zip_with2 f a b = zip_with2 g a b.
Proof.
  intros H. unfold zip_with2. apply zip_with_ext; [|done..].
  intros r s. by apply zip_with_ext.
Qed.

(** X19.  A cloud threshold of 1 or more masks nothing: the cloud
    fraction is clipped to [[0, 1]] before the comparison, so no cell of
    the product is ever set to missing, whatever the cloud field
    holds. *)
Theorem cloud_mask_threshold_one (cf_on_product coarse : ndarray) (cloud_th : Qc) :
  Qc_of_Z 1 ≤ cloud_th →
  map length cf_on_product = map length coarse →
  apply_cloud_mask cf_on_product coarse cloud_th = Ok coarse.
Proof.
  intros Hth Hshape. unfold apply_cloud_mask. cbv zeta.
  rewrite same_shape_true by (by rewrite shape_map). cbn [negb].
  rewrite zip_with2_map_l. f_equal.
  rewrite (zip_with2_ext _ (λ _ y, y)); [by apply zip_with2_snd|].
  intros c x. cbv beta. by rewrite clip_never_above_one.
Qed.

Lemma cloud_mask_threshold_one_witness :
  apply_cloud_mask [[PInf; of_Z 5; NaN]] [[of_Z 1; of_Z 2; of_Z 3]] (Qc_of_Z 1)
  = Ok [[of_Z 1; of_Z 2; of_Z 3]].
Proof.
  apply (cloud_mask_threshold_one [[PInf; of_Z 5; NaN]] [[of_Z 1; of_Z 2; of_Z 3]]
           (Qc_of_Z 1)).
  - compute_done.
  - reflexivity.
Defined.

(** X20.  For a threshold in [[0, 1)] the clipping of the cloud fraction
    does not change the mask: a cell is set to missing exactly when the
    cloud fraction as read is above the threshold, a missing cloud
    fraction masks nothing, and every other cell is kept as it is. *)
Theorem cloud_mask_below_one (cf_on_product coarse : ndarray) (cloud_th : Qc) :
  Qc_of_Z 0 ≤ cloud_th → cloud_th < Qc_of_Z 1 →
  apply_cloud_mask cf_on_product coarse cloud_th
  = if same_shape cf_on_product coarse
    then Ok (zip_with2 (λ c x, if gt c (Fin cloud_th) then NaN else x)
                       cf_on_product coarse)
    else Raise ValueError.
Proof.
  intros H0 H1. unfold apply_cloud_mask. cbv zeta.
  assert (same_shape (map (map (λ x, fclip x (of_Z 0) (of_Z 1))) cf_on_product) coarse
          = same_shape cf_on_product coarse) as ->.
  { unfold same_shape. by rewrite shape_map. }
  destruct (same_shape cf_on_product coarse); cbn [negb]; [|done].
  rewrite zip_with2_map_l. f_equal. apply zip_with2_ext.
  intros c x. cbv beta. by rewrite clip_keeps_comparison.
Qed.

Lemma cloud_mask_below_one_witness :
  apply_cloud_mask [[PInf; Fin (Qc_of_Z 1 / Qc_of_Z 5); NaN; NInf]]
                   [[of_Z 1; of_Z 2; of_Z 3; of_Z 4]] (Qc_of_Z 3 / Qc_of_Z 10)
  = if same_shape [[PInf; Fin (Qc_of_Z 1 / Qc_of_Z 5); NaN; NInf]]
                  [[of_Z 1; of_Z 2; of_Z 3; of_Z 4]]
    then Ok (zip_with2 (λ c x, if gt c (Fin (Qc_of_Z 3 / Qc_of_Z 10)) then NaN else x)
                       [[PInf; Fin (Qc_of_Z 1 / Qc_of_Z 5); NaN; NInf]]
                       [[of_Z 1; of_Z 2; of_Z 3; of_Z 4]])
    else Raise ValueError.
Proof.
  apply (cloud_mask_below_one [[PInf; Fin (Qc_of_Z 1 / Qc_of_Z 5); NaN; NInf]]
           [[of_Z 1; of_Z 2; of_Z 3; of_Z 4]] (Qc_of_Z 3 / Qc_of_Z 10)).
  - compute_done.
  - compute_done.
Defined.

End CloudMask.

(** ** The latest snapshot: outcome, newest time, ages, order of the stack *)

Section LatestMore.

Import Summaries.

Lemma time_sorted (values_stack : list granule) :
  StronglySorted (λ a b : granule, (a.1 ≤ b.1)%Z)
    (stable_sort (λ a b : granule, bool_decide (a.1 < b.1)%Z) values_stack).
Proof.
  eapply StronglySorted_mono; [|apply stable_sort_sorted].
  - intros x y H. unfold may_precede in H. apply bool_decide_eq_false in H. lia.
  - intros x y H%bool_decide_eq_true. apply bool_decide_eq_false. lia.
  - unfold may_precede. intros x y z H1%bool_decide_eq_false H2%bool_decide_eq_false.
    apply bool_decide_eq_false. lia.
Qed.

Lemma time_sort_perm (values_stack : list granule) :
  stable_sort (λ a b : granule, bool_decide (a.1 < b.1)%Z) values_stack
  ≡ₚ values_stack.
Proof. apply stable_sort_perm. Qed.

(** A granule of another shape than the snapshot stops the loop. *)
Lemma latest_loop_mismatch shp rest :
  ¬ Forall (λ g : granule, map length g.2 = shp) rest →
  ∀ latest latest_ts,
    map length latest = shp → map length latest_ts = shp →
    latest_loop (Some (latest, latest_ts)) rest = Raise IndexError.
Proof.
  induction rest as [|[end_ts grid] rest IH]; intros Hbad latest latest_ts Hl Hts.
  - by destruct Hbad.
  - cbn [latest_loop latest_step].
    destruct (decide (map length grid = shp)) as [Hg|Hg].
    + rewrite same_shape_true by (rewrite shape_map; congruence).
      cbn [negb rbind]. apply IH.
      * intros Hrest. apply Hbad. by constructor.
      * rewrite shape_zip_with2; congruence.
      * rewrite shape_zip_with2; [done|]. rewrite shape_map. congruence.
    + unfold same_shape. rewrite bool_decide_eq_false_2; [done|].
      rewrite shape_map. congruence.
Qed.

(** The loop of [build_latest] on a non-empty stack. *)
Lemma latest_loop_outcome t0 grid0 (rest : list granule) :
  (Forall (λ g : granule, map length g.2 = map length grid0) rest ∧
   ∃ latest latest_ts,
     latest_loop None ((t0, grid0) :: rest) = Ok (Some (latest, latest_ts)) ∧
     map length latest = map length grid0 ∧
     map length latest_ts = map length grid0) ∨
  (¬ Forall (λ g : granule, map length g.2 = map length grid0) rest ∧
   latest_loop None ((t0, grid0) :: rest) = Raise IndexError).
Proof.
  cbn [latest_loop latest_step rbind].
  destruct (decide (Forall (λ g : granule, map length g.2 = map length grid0) rest))
    as [Hall|Hbad].
  - left. split; [done|].
    destruct (latest_loop_cells _ rest Hall grid0 (map (map (λ _, Qc_of_Z t0)) grid0))
      as (latest & latest_ts & Hloop & Hl & Hts & _); [done|by rewrite shape_map|].
    by exists latest, latest_ts.
  - right. split; [done|].
    apply (latest_loop_mismatch _ _ Hbad); [done|by rewrite shape_map].
Qed.

Lemma one_shape_perm (l1 l2 : list granule) :
  l1 ≡ₚ l2 →
  (∃ shp, Forall (λ g : granule, map length g.2 = shp) l1) →
  ∃ shp, Forall (λ g : granule, map length g.2 = shp) l2.
Proof. intros Hp [shp H]. exists shp. by rewrite <- Hp. Qed.

(** X21.  [build_latest] raises [ValueError] exactly on an empty stack,
    raises [IndexError] exactly when the granules do not all have the
    same shape, and returns in every other case. *)
Theorem build_latest_outcome (now_ts : Qc) (values_stack : list granule) :
  (build_latest now_ts values_stack = Raise ValueError ↔ values_stack = []) ∧
  (build_latest now_ts values_stack = Raise IndexError
   ↔ ¬ ∃ shp, Forall (λ g : granule, map length g.2 = shp) values_stack) ∧
  ((∃ out, build_latest now_ts values_stack = Ok out)
   ↔ values_stack ≠ [] ∧
     ∃ shp, Forall (λ g : granule, map length g.2 = shp) values_stack).
Proof.
  destruct values_stack as [|g0 rest].
  { simpl. split_and!; split; try done.
    - intros Hno. exfalso. apply Hno. by exists [].
    - by intros [? ?].
    - by intros [? _]. }
  unfold build_latest.
  pose proof (time_sort_perm (g0 :: rest)) as Hperm.
  destruct (stable_sort _ (g0 :: rest)) as [|[t1 grid1] s] eqn:Hs.
  { by apply Permutation_nil_cons in Hperm. }
  destruct (latest_loop_outcome t1 grid1 s)
    as [(Hall & latest & latest_ts & -> & _)|[Hbad ->]]; cbn [rbind].
  - assert (∃ shp, Forall (λ g : granule, map length g.2 = shp) (g0 :: rest)) as Hone.
    { apply (one_shape_perm _ _ Hperm). exists (map length grid1). by constructor. }
    split_and!; split; try done.
    intros _. by eexists.
  - assert (¬ ∃ shp, Forall (λ g : granule, map length g.2 = shp) (g0 :: rest)) as Hno.
    { intros Hone. symmetry in Hperm.
      apply (one_shape_perm _ _ Hperm) in Hone as [shp Hshp].
      apply Forall_cons in Hshp as [H1 Hshp]. simpl in H1. by subst shp. }
    split_and!; split; try done.
    + by intros [? ?].
    + by intros [_ ?].
Qed.

Lemma StronglySorted_last_max {A} (R : relation A) (l : list A) x y :
  StronglySorted R l → last l = Some y → x ∈ l → x = y ∨ R x y.
Proof.
  induction 1 as [|z l Hs IH Hz]; intros Hl Hx; [done|].
  destruct l as [|z' l'].
  - simpl in Hl. apply list_elem_of_singleton in Hx. left. congruence.
  - rewrite last_cons_cons in Hl.
    apply elem_of_cons in Hx as [->|Hx]; [|by apply IH].
    right. rewrite Forall_forall in Hz. by apply Hz, last_Some_elem_of.
Qed.

(** X22.  The time that [build_latest] returns as [newest_end_ts] is
    the largest end time of the stack, in whatever order the granules
    were given. *)
Theorem build_latest_newest_is_max
    (now_ts : Qc) (values_stack : list granule) latest age_h (newest_end_ts : Z) :
  build_latest now_ts values_stack = Ok (latest, age_h, newest_end_ts) →
  (∃ g, g ∈ values_stack ∧ g.1 = newest_end_ts) ∧
  (∀ g, g ∈ values_stack → (g.1 ≤ newest_end_ts)%Z).
Proof.
  destruct values_stack as [|g0 rest]; [done|].
  unfold build_latest.
  pose proof (time_sort_perm (g0 :: rest)) as Hperm.
  pose proof (time_sorted (g0 :: rest)) as Hsorted.
  set (s := stable_sort _ (g0 :: rest)) in *.
  destruct (last s) as [gl|] eqn:Hlast.
  2:{ apply last_None in Hlast. rewrite Hlast in Hperm.
      by apply Permutation_nil_cons in Hperm. }
  destruct (latest_loop None s) as [[[l t]|]|e]; cbn [rbind]; [|done..].
  intros [= _ _ <-]. simpl. split.
  - exists gl. split; [|done]. rewrite <- Hperm. by apply last_Some_elem_of.
  - intros g Hg. rewrite <- Hperm in Hg.
    destruct (StronglySorted_last_max _ _ _ _ Hsorted Hlast Hg) as [->|H]; [done|].
    exact H.
Qed.

Lemma build_latest_newest_is_max_witness :
  (∃ g, g ∈ [(30%Z, [[NaN]]); (10%Z, [[of_Z 1]]); (20%Z, [[of_Z 2]])]
        ∧ g.1 = 30%Z) ∧
  (∀ g, g ∈ [(30%Z, [[NaN]]); (10%Z, [[of_Z 1]]); (20%Z, [[of_Z 2]])]
        → (g.1 ≤ 30)%Z).
Proof.
  apply (build_latest_newest_is_max (Qc_of_Z 3620)
           [(30%Z, [[NaN]]); (10%Z, [[of_Z 1]]); (20%Z, [[of_Z 2]])]
           [[of_Z 2]] [[of_Z 1]]).
  compute_done.
Defined.

(** The snapshot and its times keep one shape through the loop. *)
Lemma latest_loop_shapes (rest : list granule) :
  ∀ latest latest_ts latest' latest_ts',
    latest_loop (Some (latest, latest_ts)) rest = Ok (Some (latest', latest_ts')) →
    map length latest_ts = map length latest →
    map length latest_ts' = map length latest'.
Proof.
  induction rest as [|[end_ts grid] rest IH];
    intros latest latest_ts latest' latest_ts' Hloop Hshape.
  - simpl in Hloop. by simplify_eq.
  - cbn [latest_loop latest_step] in Hloop.
    destruct (same_shape (map (map isfinite) grid) latest) eqn:E;
      cbn [negb rbind] in Hloop; [|done].
    apply bool_decide_eq_true in E. rewrite shape_map in E.
    apply IH in Hloop; [done|].
    rewrite !shape_zip_with2; [done|congruence|].
    rewrite shape_map. congruence.
Qed.

(** X23.  In the result of [build_latest] the age grid has the shape of
    the value grid, and a cell has a finite age exactly when its value
    is finite; the age of any other cell is NaN. *)
Theorem build_latest_age_finite
    (now_ts : Qc) (values_stack : list granule) latest age_h (newest_end_ts : Z) :
  build_latest now_ts values_stack = Ok (latest, age_h, newest_end_ts) →
  map length age_h = map length latest ∧
  ∀ r c v, cell latest r c = Some v →
    ∃ a, cell age_h r c = Some a ∧ isfinite a = isfinite v ∧
         (isfinite v = false → a = NaN).
Proof.
  destruct values_stack as [|g0 rest]; [done|].
  unfold build_latest.
  pose proof (time_sort_perm (g0 :: rest)) as Hperm.
  destruct (stable_sort _ (g0 :: rest)) as [|[t1 grid1] s] eqn:Hs.
  { by apply Permutation_nil_cons in Hperm. }
  destruct (latest_loop None ((t1, grid1) :: s)) as [[[l t]|]|e] eqn:Hloop;
    cbn [rbind]; [|done..].
  intros [= <- <- _].
  cbn [latest_loop latest_step rbind] in Hloop.
  apply latest_loop_shapes in Hloop; [|by rewrite shape_map].
  split.
  - rewrite shape_zip_with2; rewrite shape_map; done.
  - intros r c v Hv.
    destruct (cell_same_shape l t r c) as [ts Hts]; [done|by eexists|].
    rewrite cell_zip_with2, cell_map, Hts, Hv. simpl.
    eexists. split; [done|]. by destruct (isfinite v).
Qed.

Lemma build_latest_age_finite_witness :
  map length [[Fin (Qc_of_Z 1); NaN]] = map length [[of_Z 2; NaN]] ∧
  ∀ r c v, cell [[of_Z 2; NaN]] r c = Some v →
    ∃ a, cell [[Fin (Qc_of_Z 1); NaN]] r c = Some a ∧ isfinite a = isfinite v ∧
         (isfinite v = false → a = NaN).
Proof.
  apply (build_latest_age_finite (Qc_of_Z 3620)
           [(20%Z, [[of_Z 2; NaN]]); (10%Z, [[of_Z 1; NaN]])]
           [[of_Z 2; NaN]] [[Fin (Qc_of_Z 1); NaN]] 20%Z).
  compute_done.
Defined.

Lemma NoDup_fmap_inj_on {A B} (f : A → B) (l : list A) x y :
  NoDup (map f l) → x ∈ l → y ∈ l → f x = f y → x = y.
Proof.
  induction l as [|z l IH]; intros Hnd Hx Hy Hxy; [by apply not_elem_of_nil in Hx|].
  simpl in Hnd. apply NoDup_cons in Hnd as [Hz Hnd].
  apply elem_of_cons in Hx as [->|Hx]; apply elem_of_cons in Hy as [->|Hy].
  - done.
  - exfalso. apply Hz. rewrite Hxy. by apply list_elem_of_fmap_2.
  - exfalso. apply Hz. rewrite <- Hxy. by apply list_elem_of_fmap_2.
  - by apply IH.
Qed.

(** X24.  When no two granules have the same end time, the result of
    [build_latest] does not depend on the order in which the stack lists
    them. *)
Theorem build_latest_order_irrelevant
    (now_ts : Qc) (stack1 stack2 : list granule) :
  stack1 ≡ₚ stack2 → NoDup (map fst stack1) →
  build_latest now_ts stack1 = build_latest now_ts stack2.
Proof.
  intros Hperm Hnd.
  assert (Hsort : stable_sort (λ a b : granule, bool_decide (a.1 < b.1)%Z) stack1
                  = stable_sort (λ a b : granule, bool_decide (a.1 < b.1)%Z) stack2).
  { apply (StronglySorted_unique_strong (λ a b : granule, (a.1 ≤ b.1)%Z)).
    - intros x1 x2 Hx1 Hx2 H12 H21.
      rewrite time_sort_perm in Hx1. rewrite time_sort_perm, <- Hperm in Hx2.
      apply (NoDup_fmap_inj_on fst stack1); [done..|]. simpl in *. lia.
    - apply time_sorted.
    - apply time_sorted.
    - by rewrite !time_sort_perm. }
  unfold build_latest. rewrite Hsort.
  destruct stack1 as [|g1 s1], stack2 as [|g2 s2]; try done.
  by apply Permutation_nil_cons in Hperm.
Qed.

Lemma build_latest_order_irrelevant_witness :
  build_latest (Qc_of_Z 3620) [(20%Z, [[of_Z 2; NaN]]); (10%Z, [[of_Z 1; of_Z 5]])]
  = build_latest (Qc_of_Z 3620) [(10%Z, [[of_Z 1; of_Z 5]]); (20%Z, [[of_Z 2; NaN]])].
Proof.
  apply (build_latest_order_irrelevant (Qc_of_Z 3620)
           [(20%Z, [[of_Z 2; NaN]]); (10%Z, [[of_Z 1; of_Z 5]])]
           [(10%Z, [[of_Z 1; of_Z 5]]); (20%Z, [[of_Z 2; NaN]])]).
  - apply Permutation_swap.
  - compute_done.
Defined.

End LatestMore.

(** ** Trimming, block reduction and the coarse axes together *)

Section Coarsen.

Import TempoToJson.

Lemma div_mul_div h b : (0 < b)%nat → (h / b * b / b = h / b)%nat.
Proof. intros Hb. apply Nat.div_mul. lia. Qed.

Lemma div_mul_le h b : (h / b * b ≤ h)%nat.
Proof.
  destruct b as [|b]; [simpl; lia|].
  rewrite Nat.mul_comm. apply Nat.Div0.mul_div_le.
Qed.

Lemma shape_snd_rect {A} (w : nat) (a : list (list A)) :
  rect w a → a ≠ [] → (shape a).2 = w.
Proof.
  intros Hrect Hne. destruct a as [|row a]; [done|]. simpl.
  by apply Forall_cons in Hrect as [? _].
Qed.

Lemma coarse_axis_fits (axis : list Qc) (h by_ : nat) :
  (0 < by_)%nat → length axis = h →
  ∃ c, coarse_axis axis (h / by_ * by_) by_ = Ok c ∧ length c = (h / by_)%nat.
Proof.
  intros Hb Hlen. unfold coarse_axis. cbv zeta.
  rewrite bool_decide_eq_false_2 by lia.
  pose proof (div_mul_le h by_) as Hle.
  rewrite bool_decide_eq_false_2.
  - eexists. split; [done|]. by rewrite length_map, length_seq, div_mul_div.
  - intros Hbad. apply Hbad. rewrite length_take, div_mul_div by done. lia.
Qed.

(** X25.  For a rectangular array with one latitude per row and one
    longitude per column and positive block factors, the trimming and
    block reduction of [convert_nc_to_json] never raise: they give up
    ([None]) exactly when a block factor exceeds the array, and otherwise
    return a coarse array with one row per coarse latitude and one
    column per coarse longitude.  The coarse array is the one that
    [block_reduce_mean] gives on the array that was not trimmed. *)
Theorem coarsen_outcome (arr : ndarray) (lat1d lon1d : list Qc) (by_y by_x : nat) :
  rect (length lon1d) arr → length lat1d = length arr →
  (0 < by_y)%nat → (0 < by_x)%nat →
  ((length arr < by_y ∨ length lon1d < by_x)%nat →
   coarsen arr lat1d lon1d by_y by_x = Ok None) ∧
  ((by_y ≤ length arr ∧ by_x ≤ length lon1d)%nat →
   ∃ coarse lat_c lon_c,
     coarsen arr lat1d lon1d by_y by_x = Ok (Some (coarse, lat_c, lon_c)) ∧
     block_reduce_mean arr by_y by_x = Ok coarse ∧
     length coarse = length lat_c ∧ rect (length lon_c) coarse ∧
     length lat_c = (length arr / by_y)%nat ∧
     length lon_c = (length lon1d / by_x)%nat).
Proof.
  intros Hrect Hlat Hy Hx.
  destruct arr as [|row0 arr0] eqn:Harr.
  { split; [|simpl; lia]. intros _. unfold coarsen. simpl.
    rewrite bool_decide_eq_false_2 by lia.
    rewrite Nat.Div0.div_0_l. by rewrite bool_decide_eq_true_2 by (left; done). }
  rewrite <- Harr in *.
  assert (Hne : arr ≠ []) by (by rewrite Harr).
  pose proof (shape_snd_rect _ _ Hrect Hne) as Hw.
  unfold coarsen. destruct (shape arr) as [h w] eqn:Hs.
  assert (h = length arr) as -> by (unfold shape in Hs; congruence).
  cbn [snd] in Hw. subst w.
  rewrite bool_decide_eq_false_2 by lia.
  split.
  - intros Hbig. rewrite bool_decide_eq_true_2; [done|].
    rewrite !div_mul_zero by done. done.
  - intros [Hfy Hfx]. rewrite bool_decide_eq_false_2
      by (rewrite !div_mul_zero by done; lia).
    set (Hc := (length arr / by_y * by_y)%nat).
    set (Wc := (length lon1d / by_x * by_x)%nat).
    assert (HHc : (by_y ≤ Hc ≤ length arr)%nat).
    { unfold Hc. split; [|apply div_mul_le].
      assert (1 ≤ length arr / by_y)%nat by (apply Nat.div_le_lower_bound; lia). nia. }
    assert (HWc : (by_x ≤ Wc ≤ length lon1d)%nat).
    { unfold Wc. split; [|apply div_mul_le].
      assert (1 ≤ length lon1d / by_x)%nat by (apply Nat.div_le_lower_bound; lia). nia. }
    assert (Htl : length (map (take Wc) (take Hc arr)) = Hc).
    { rewrite length_map, length_take. lia. }
    assert (Htw : (shape (map (take Wc) (take Hc arr))).2 = Wc).
    { rewrite Harr. destruct Hc as [|k]; [lia|]. simpl. rewrite length_take.
      rewrite Harr in Hrect. apply Forall_cons in Hrect as [Hr0 _]. lia. }
    assert (Hsame : block_reduce_mean (map (take Wc) (take Hc arr)) by_y by_x
                    = block_reduce_mean arr by_y by_x).
    { rewrite !block_reduce_mean_closed
        by (rewrite ?Htl, ?Htw, ?(shape_snd_rect _ _ Hrect Hne); lia).
      rewrite Htl, Htw, (shape_snd_rect _ _ Hrect Hne).
      unfold Hc, Wc. rewrite !div_mul_div by done.
      f_equal. apply map_ext_in. intros i Hi%in_seq.
      apply map_ext_in. intros j Hj%in_seq.
      f_equal. apply map_ext_in. intros p Hp%in_seq.
      f_equal. apply map_ext_in. intros q Hq%in_seq.
      apply trimmed_nth.
      - assert (i * by_y + p < (i + 1) * by_y)%nat by lia.
        assert ((i + 1) * by_y ≤ length arr / by_y * by_y)%nat
          by (apply Nat.mul_le_mono_r; lia). lia.
      - assert (j * by_x + q < (j + 1) * by_x)%nat by lia.
        assert ((j + 1) * by_x ≤ length lon1d / by_x * by_x)%nat
          by (apply Nat.mul_le_mono_r; lia). lia. }
    rewrite Hsame.
    rewrite block_reduce_mean_closed
      by (rewrite ?(shape_snd_rect _ _ Hrect Hne); lia).
    cbn [rbind]. subst Hc Wc.
    destruct (coarse_axis_fits lat1d (length arr) by_y Hy Hlat) as (lat_c & -> & Hlc).
    destruct (coarse_axis_fits lon1d (length lon1d) by_x Hx eq_refl)
      as (lon_c & -> & Hlo).
    cbn [rbind]. eexists _, lat_c, lon_c. split; [done|]. split; [done|].
    rewrite (shape_snd_rect _ _ Hrect Hne).
    split; [by rewrite length_map, length_seq|]. split; [|done].
    unfold rect. rewrite Forall_forall.
    intros r (i & -> & _)%list_elem_of_fmap. by rewrite length_map, length_seq.
Qed.

Lemma coarsen_outcome_witness :
  ((length [[of_Z 1; of_Z 2; of_Z 3]; [of_Z 5; NaN; of_Z 9]] < 2
    ∨ length [Qc_of_Z 0; Qc_of_Z 1; Qc_of_Z 2] < 2)%nat →
   coarsen [[of_Z 1; of_Z 2; of_Z 3]; [of_Z 5; NaN; of_Z 9]]
           [Qc_of_Z 10; Qc_of_Z 11] [Qc_of_Z 0; Qc_of_Z 1; Qc_of_Z 2] 2 2
   = Ok None) ∧
  ((2 ≤ length [[of_Z 1; of_Z 2; of_Z 3]; [of_Z 5; NaN; of_Z 9]]
    ∧ 2 ≤ length [Qc_of_Z 0; Qc_of_Z 1; Qc_of_Z 2])%nat →
   ∃ coarse lat_c lon_c,
     coarsen [[of_Z 1; of_Z 2; of_Z 3]; [of_Z 5; NaN; of_Z 9]]
             [Qc_of_Z 10; Qc_of_Z 11] [Qc_of_Z 0; Qc_of_Z 1; Qc_of_Z 2] 2 2
     = Ok (Some (coarse, lat_c, lon_c)) ∧
     block_reduce_mean [[of_Z 1; of_Z 2; of_Z 3]; [of_Z 5; NaN; of_Z 9]] 2 2
     = Ok coarse ∧
     length coarse = length lat_c ∧ rect (length lon_c) coarse ∧
     length lat_c
     = (length [[of_Z 1; of_Z 2; of_Z 3]; [of_Z 5; NaN; of_Z 9]] / 2)%nat ∧
     length lon_c = (length [Qc_of_Z 0; Qc_of_Z 1; Qc_of_Z 2] / 2)%nat).
Proof.
  apply (coarsen_outcome [[of_Z 1; of_Z 2; of_Z 3]; [of_Z 5; NaN; of_Z 9]]
           [Qc_of_Z 10; Qc_of_Z 11] [Qc_of_Z 0; Qc_of_Z 1; Qc_of_Z 2] 2 2).
  - repeat constructor.
  - reflexivity.
  - lia.
  - lia.
Defined.

End Coarsen.

(** ** JSON cells *)

Section Jsonable.

Import Summaries.

Lemma round_half_even_near (q : Qc) :
  (- (1 # 2) <= inject_Z (round_half_even q) - this q <= 1 # 2)%Q.
Proof.
  unfold round_half_even. cbv zeta.
  destruct (floor_bounds (this q)) as [Hl Hu].
  destruct (bool_decide_reflect (q - Qc_of_Z (Qfloor q) < Qc_of_Z 1 / Qc_of_Z 2))
    as [H1|H1].
  { unfold Qclt in H1. rewrite this_minus, this_div, !this_of_Z in H1.
    change (inject_Z 1 / inject_Z 2)%Q with (1 # 2)%Q in H1.
    set (F := inject_Z (Qfloor q)) in *. clearbody F. split; lra. }
  apply Qcnot_lt_le in H1.
  unfold Qcle in H1. rewrite this_minus, this_div, !this_of_Z in H1.
  change (inject_Z 1 / inject_Z 2)%Q with (1 # 2)%Q in H1.
  destruct (bool_decide_reflect (Qc_of_Z 1 / Qc_of_Z 2 < q - Qc_of_Z (Qfloor q)))
    as [H2|H2].
  { rewrite inject_Z_plus. change (inject_Z 1) with 1%Q.
    set (F := inject_Z (Qfloor q)) in *. clearbody F. split; lra. }
  apply Qcnot_lt_le in H2.
  unfold Qcle in H2. rewrite this_minus, this_div, !this_of_Z in H2.
  change (inject_Z 1 / inject_Z 2)%Q with (1 # 2)%Q in H2.
  destruct (Z.even (Qfloor q)).
  - set (F := inject_Z (Qfloor q)) in *. clearbody F. split; lra.
  - rewrite inject_Z_plus. change (inject_Z 1) with 1%Q.
    set (F := inject_Z (Qfloor q)) in *. clearbody F. split; lra.
Qed.

Lemma scaled_bound (N q S I : Q) :
  (0 < I)%Q → (S * I == 1)%Q → (- (1 # 2) <= N - q * S <= 1 # 2)%Q →
  (N * I - q <= (1 # 2) * I ∧ q - N * I <= (1 # 2) * I)%Q.
Proof.
  intros HI HSI [H1 H2].
  assert (E : (q * S * I == q)%Q) by (rewrite <- Qmult_assoc, HSI; ring).
  assert (Ha : ((N - q * S) * I <= (1 # 2) * I)%Q)
    by (apply Qmult_le_compat_r; lra).
  assert (Hb : ((- (1 # 2)) * I <= (N - q * S) * I)%Q)
    by (apply Qmult_le_compat_r; lra).
  split; lra.
Qed.

(** Rounding to [d] decimals moves a finite value by at most half a unit
    of the last decimal, unless the scaled value overflows. *)
Lemma round_decimals_near (d : nat) (q : Qc) :
  Qcabs.Qcabs (q * Qc_of_Z (10 ^ Z.of_nat d)) < overflow_from →
  ∃ n : Z,
    round_decimals d (Fin q) = Fin (Qc_of_Z n / Qc_of_Z (10 ^ Z.of_nat d)) ∧
    Qc_of_Z n / Qc_of_Z (10 ^ Z.of_nat d) - q
      ≤ Qc_of_Z 1 / Qc_of_Z 2 / Qc_of_Z (10 ^ Z.of_nat d) ∧
    q - Qc_of_Z n / Qc_of_Z (10 ^ Z.of_nat d)
      ≤ Qc_of_Z 1 / Qc_of_Z 2 / Qc_of_Z (10 ^ Z.of_nat d).
Proof.
  intros Hfit.
  exists (round_half_even (q * Qc_of_Z (10 ^ Z.of_nat d))). split.
  { unfold round_decimals. cbv zeta.
    by rewrite bool_decide_eq_false_2 by by apply Qclt_not_le. }
  pose proof (round_half_even_near (q * Qc_of_Z (10 ^ Z.of_nat d))) as Hnear.
  rewrite this_mult, this_of_Z in Hnear.
  assert (Hpos : (0 < inject_Z (10 ^ Z.of_nat d))%Q).
  { change 0%Q with (inject_Z 0). rewrite <- Zlt_Qlt. lia. }
  assert (HI : (0 < / inject_Z (10 ^ Z.of_nat d))%Q) by by apply Qinv_lt_0_compat.
  assert (HSI : (inject_Z (10 ^ Z.of_nat d) * / inject_Z (10 ^ Z.of_nat d) == 1)%Q).
  { apply Qmult_inv_r. lra. }
  destruct (scaled_bound _ _ _ _ HI HSI Hnear) as [Ha Hb].
  unfold Qcle. rewrite !this_minus, !this_div, !this_of_Z. unfold Qdiv.
  change (inject_Z 1 * / inject_Z 2)%Q with (1 # 2)%Q.
  split; [exact Ha|exact Hb].
Qed.

Lemma round_decimals_overflow (d : nat) (q : Qc) :
  overflow_from ≤ Qcabs.Qcabs (q * Qc_of_Z (10 ^ Z.of_nat d)) →
  isfinite (round_decimals d (Fin q)) = false.
Proof.
  intros Hover. unfold round_decimals. cbv zeta.
  rewrite bool_decide_eq_true_2 by done. by case_bool_decide.
Qed.

(** X26.  [jsonable_2d] keeps the shape of the array.  A cell that is
    not finite becomes [None], and so does, for [d <= 22] decimals, a
    finite cell whose product with [10^d] overflows binary64, since the
    rounding forms that product first.  Any other finite cell, rounded
    to [d <= 22] decimals, becomes a whole number of units [10^-d] that
    differs from the cell by at most half a unit (in exact arithmetic);
    without rounding it is kept. *)
Theorem jsonable_2d_cells (arr : ndarray) (ndigits : option nat) (r c : nat) (x : float) :
  cell arr r c = Some x →
  map length (jsonable_2d arr ndigits) = map length arr ∧
  ∃ y, cell (jsonable_2d arr ndigits) r c = Some y ∧
    (isfinite x = false → y = None) ∧
    (∀ q, x = Fin q → ndigits = None → y = Some q) ∧
    (∀ q d, x = Fin q → ndigits = Some d → (d ≤ 22)%nat →
       let scaled := q * Qc_of_Z (10 ^ Z.of_nat d) in
       (overflow_from ≤ Qcabs.Qcabs scaled → y = None) ∧
       (Qcabs.Qcabs scaled < overflow_from →
        ∃ n : Z,
          y = Some (Qc_of_Z n / Qc_of_Z (10 ^ Z.of_nat d)) ∧
          Qc_of_Z n / Qc_of_Z (10 ^ Z.of_nat d) - q
            ≤ Qc_of_Z 1 / Qc_of_Z 2 / Qc_of_Z (10 ^ Z.of_nat d) ∧
          q - Qc_of_Z n / Qc_of_Z (10 ^ Z.of_nat d)
            ≤ Qc_of_Z 1 / Qc_of_Z 2 / Qc_of_Z (10 ^ Z.of_nat d))).
Proof.
  intros Hx. unfold jsonable_2d. cbv zeta. split.
  { destruct ndigits; by rewrite !shape_map. }
  rewrite cell_map.
  destruct ndigits as [d|]; rewrite ?cell_map, Hx; cbn [fmap option_fmap option_map].
  - destruct x as [q| | |].
    + eexists. split; [done|]. split; [done|]. split; [done|].
      intros q' d' [= <-] [= <-] _. cbv zeta. split.
      * intros Hover%round_decimals_overflow.
        by destruct (round_decimals d (Fin q)).
      * intros Hfit. destruct (round_decimals_near d q Hfit) as (n & -> & Ha & Hb).
        by exists n.
    + exists None. by repeat split.
    + exists None. by repeat split.
    + exists None. by repeat split.
  - destruct x as [q| | |]; eexists; (split; [done|]); repeat split; try done.
    by intros q' [= <-].
Qed.

Lemma jsonable_2d_cells_witness :
  map length (jsonable_2d [[Fin (Qc_of_Z 5 / Qc_of_Z 4); PInf]] (Some 1%nat))
  = map length [[Fin (Qc_of_Z 5 / Qc_of_Z 4); PInf]] ∧
  ∃ y, cell (jsonable_2d [[Fin (Qc_of_Z 5 / Qc_of_Z 4); PInf]] (Some 1%nat)) 0 0
       = Some y ∧
    (isfinite (Fin (Qc_of_Z 5 / Qc_of_Z 4)) = false → y = None) ∧
    (∀ q, Fin (Qc_of_Z 5 / Qc_of_Z 4) = Fin q → Some 1%nat = None → y = Some q) ∧
    (∀ q d, Fin (Qc_of_Z 5 / Qc_of_Z 4) = Fin q → Some 1%nat = Some d →
       (d ≤ 22)%nat →
       let scaled := q * Qc_of_Z (10 ^ Z.of_nat d) in
       (overflow_from ≤ Qcabs.Qcabs scaled → y = None) ∧
       (Qcabs.Qcabs scaled < overflow_from →
        ∃ n : Z,
          y = Some (Qc_of_Z n / Qc_of_Z (10 ^ Z.of_nat d)) ∧
          Qc_of_Z n / Qc_of_Z (10 ^ Z.of_nat d) - q
            ≤ Qc_of_Z 1 / Qc_of_Z 2 / Qc_of_Z (10 ^ Z.of_nat d) ∧
          q - Qc_of_Z n / Qc_of_Z (10 ^ Z.of_nat d)
            ≤ Qc_of_Z 1 / Qc_of_Z 2 / Qc_of_Z (10 ^ Z.of_nat d))).
Proof.
  apply (jsonable_2d_cells [[Fin (Qc_of_Z 5 / Qc_of_Z 4); PInf]] (Some 1%nat) 0 0
           (Fin (Qc_of_Z 5 / Qc_of_Z 4))).
  reflexivity.
Defined.

(** The finite cell [2^1010] becomes [None] when rounded to 6 decimals,
    and the cell [5/4] becomes [1.2], the even neighbour. *)
Example jsonable_2d_example :
  jsonable_2d [[Fin (Qc_of_Z (2 ^ 1010)); Fin (Qc_of_Z 5 / Qc_of_Z 4); NaN]] (Some 6%nat)
  = [[None; Some (Qc_of_Z 5 / Qc_of_Z 4); None]] ∧
  jsonable_2d [[Fin (Qc_of_Z 5 / Qc_of_Z 4)]] (Some 1%nat)
  = [[Some (Qc_of_Z 12 / Qc_of_Z 10)]].
Proof. split; compute_done. Qed.

End Jsonable.

(** ** The block factors *)

Section BlockFactors.

Import TempoToJson.

Lemma round_half_even_of_Z (k : Z) : round_half_even (Qc_of_Z k) = k.
Proof.
  unfold round_half_even. cbv zeta.
  assert (Qfloor (Qc_of_Z k) = k) as ->.
  { rewrite this_of_Z. apply Qfloor_Z. }
  rewrite bool_decide_eq_true_2; [done|].
  unfold Qclt. rewrite this_minus, this_div, !this_of_Z.
  change (inject_Z 1 / inject_Z 2)%Q with (1 # 2)%Q. lra.
Qed.

Lemma tiny_pos : 0 < Qc_of_Z 1 / Qc_of_Z (10 ^ 12).
Proof. compute_done. Qed.

Lemma block_factor_multiple (grid_deg d : Qc) (k : Z) :
  Qc_of_Z 1 / Qc_of_Z (10 ^ 12) < d → (1 ≤ k)%Z → grid_deg = Qc_of_Z k * d →
  block_factor grid_deg d = k.
Proof.
  intros Hd Hk ->. unfold block_factor. cbv zeta.
  assert (H0 : 0 < d) by (eapply Qclt_trans; [apply tiny_pos|done]).
  rewrite (Qcabs.Qcabs_pos d) by by apply Qclt_le_weak.
  rewrite bool_decide_eq_true_2 by done.
  rewrite Qcdiv_mult_l by (intros ->; by apply (Qclt_not_eq 0 0)).
  rewrite round_half_even_of_Z. lia.
Qed.

(** X27.  When [infer_step] finds a step on both axes and the target
    resolution is a whole multiple of each step, the block factors of
    [convert_nc_to_json] are these multiples.  When [infer_step] fails on
    one axis, the step found on the other axis is dropped as well: at
    the default resolution of 0.1 degrees both factors are then 5 (the
    fallback step 0.02). *)
Theorem block_factors_outcome (grid_deg : Qc) (lat1d lon1d : list float) :
  (∀ dlat dlon ky kx,
     infer_step lat1d = Ok (Fin dlat) → infer_step lon1d = Ok (Fin dlon) →
     Qc_of_Z 1 / Qc_of_Z (10 ^ 12) < dlat → Qc_of_Z 1 / Qc_of_Z (10 ^ 12) < dlon →
     (1 ≤ ky)%Z → (1 ≤ kx)%Z →
     grid_deg = Qc_of_Z ky * dlat → grid_deg = Qc_of_Z kx * dlon →
     block_factors grid_deg lat1d lon1d = (ky, kx)) ∧
  (infer_step lat1d = Raise ValueError ∨ infer_step lon1d = Raise ValueError →
   block_factors (Qc_of_Z 1 / Qc_of_Z 10) lat1d lon1d = (5%Z, 5%Z)).
Proof.
  split.
  - intros dlat dlon ky kx Hlat Hlon Hdlat Hdlon Hky Hkx Hgy Hgx.
    unfold block_factors. rewrite Hlat, Hlon.
    by rewrite (block_factor_multiple _ _ ky), (block_factor_multiple _ _ kx).
  - assert (Hfb : block_factor (Qc_of_Z 1 / Qc_of_Z 10) (Qc_of_Z 2 / Qc_of_Z 100) = 5%Z)
      by compute_done.
    intros [H|H]; unfold block_factors; rewrite H.
    + by rewrite Hfb.
    + destruct (infer_step lat1d) as [[?| | |]|?]; by rewrite Hfb.
Qed.

Lemma block_factors_outcome_witness :
  block_factors (Qc_of_Z 10) [of_Z 0; of_Z 2; of_Z 4] [of_Z 0; of_Z 5; of_Z 10]
  = (5%Z, 2%Z).
Proof.
  apply (proj1 (block_factors_outcome (Qc_of_Z 10) [of_Z 0; of_Z 2; of_Z 4]
                  [of_Z 0; of_Z 5; of_Z 10])
           (Qc_of_Z 2) (Qc_of_Z 5) 5%Z 2%Z).
  - compute_done.
  - compute_done.
  - compute_done.
  - compute_done.
  - lia.
  - lia.
  - compute_done.
  - compute_done.
Defined.

End BlockFactors.

(** ** Axes from coordinate fields *)

Section AxesFromLatLon.

Import TempoToJson.

Lemma sum_Qc_replicate (n : nat) (y : Qc) :
  sum_Qc (replicate n y) = Qc_of_Z (Z.of_nat n) * y.
Proof.
  induction n as [|n IH].
  - change (Qc_of_Z (Z.of_nat 0)) with (Qc_of_Z 0). rewrite Qc_of_Z_0.
    unfold sum_Qc. cbn [replicate foldr]. ring.
  - change (sum_Qc (replicate (S n) y)) with (y + sum_Qc (replicate n y)).
    rewrite IH. apply Qc_is_canon. qc2q.
    rewrite Nat2Z.inj_succ, <- Z.add_1_r, inject_Z_plus.
    change (inject_Z 1) with 1%Q. ring.
Qed.

Lemma nanmean_constant (n : nat) (y : Qc) :
  (0 < n)%nat → nanmean (replicate n (Fin y)) = Fin y.
Proof.
  intros Hn. rewrite <- (fmap_replicate Fin n y).
  rewrite nanmean_Fin by (destruct n; [lia|done]).
  rewrite length_replicate, sum_Qc_replicate, Qcmult_comm.
  by rewrite Qcdiv_mult_l by (apply Qc_of_Z_neq_0; lia).
Qed.

(** X28.  From the two 2-D coordinate fields of a regular grid, the
    latitude of a row repeated along the row and the longitude axis
    repeated in every row, [axes_from_latlon] recovers the two axes, in
    exact arithmetic (in binary64 the mean [sum / count] of equal numbers
    can differ from them in the last place); 1-D coordinate variables
    are returned as they are. *)
Theorem axes_from_latlon_meshgrid (lat lon : list Qc) :
  lat ≠ [] → lon ≠ [] →
  axes_from_latlon
    (Coords2 (map (λ y, replicate (length lon) (Fin y)) lat))
    (Coords2 (replicate (length lat) (map Fin lon)))
  = (map Fin lat, map Fin lon) ∧
  axes_from_latlon (Coords1 (map Fin lat)) (Coords1 (map Fin lon))
  = (map Fin lat, map Fin lon).
Proof.
  intros Hlat Hlon. split; [|done].
  assert (HW : (0 < length lon)%nat) by (destruct lon; simpl; [done|lia]).
  assert (HH : (0 < length lat)%nat) by (destruct lat; simpl; [done|lia]).
  unfold axes_from_latlon. f_equal.
  - rewrite map_map. apply map_ext. intros y. by apply nanmean_constant.
  - assert ((shape (replicate (length lat) (map Fin lon))).2 = length lon) as ->.
    { destruct (length lat); [lia|]. simpl. by rewrite length_map. }
    trans (map (λ j, nth j (map Fin lon) NaN) (seq 0 (length (map Fin lon)))).
    2:{ apply gather_seq. }
    rewrite length_map. apply map_ext_in. intros j Hj%in_seq.
    rewrite (fmap_replicate (λ row, nth j row NaN)).
    destruct (lookup_lt_is_Some_2 lon j) as [x Hx]; [lia|].
    assert (nth j (map Fin lon) NaN = Fin x) as ->.
    { rewrite nth_lookup, list_lookup_fmap, Hx. done. }
    by apply nanmean_constant.
Qed.

Lemma axes_from_latlon_meshgrid_witness :
  axes_from_latlon
    (Coords2 (map (λ y, replicate (length [Qc_of_Z 5; Qc_of_Z 6; Qc_of_Z 7]) (Fin y))
                  [Qc_of_Z 40; Qc_of_Z 30]))
    (Coords2 (replicate (length [Qc_of_Z 40; Qc_of_Z 30])
                        (map Fin [Qc_of_Z 5; Qc_of_Z 6; Qc_of_Z 7])))
  = (map Fin [Qc_of_Z 40; Qc_of_Z 30], map Fin [Qc_of_Z 5; Qc_of_Z 6; Qc_of_Z 7]) ∧
  axes_from_latlon (Coords1 (map Fin [Qc_of_Z 40; Qc_of_Z 30]))
                   (Coords1 (map Fin [Qc_of_Z 5; Qc_of_Z 6; Qc_of_Z 7]))
  = (map Fin [Qc_of_Z 40; Qc_of_Z 30], map Fin [Qc_of_Z 5; Qc_of_Z 6; Qc_of_Z 7]).
Proof.
  apply (axes_from_latlon_meshgrid [Qc_of_Z 40; Qc_of_Z 30]
           [Qc_of_Z 5; Qc_of_Z 6; Qc_of_Z 7]); discriminate.
Defined.

(** In binary64, the mean of three numbers [0.1] is the number after
    [0.1]. *)
Example mean_of_equal_binary64 :
  let x := Binary64.div (Binary64.of_Z 1) (Binary64.of_Z 10) in
  x = SpecFloat.S754_finite false 7205759403792794 (-56) ∧
  Binary64.div
    (Binary64.add (Binary64.add (Binary64.add (Binary64.of_Z 0) x) x) x)
    (Binary64.of_Z 3)
  = SpecFloat.S754_finite false 7205759403792795 (-56).
Proof. split; vm_compute; reflexivity. Qed.

End AxesFromLatLon.

(** ** The summaries of sanitized grids *)

Section SanitizedSummaries.

Import Summaries.

(** A cell of the snapshot is the cell it had before the loop or the
    cell of one of the granules. *)
Lemma latest_loop_takes_cells (rest : list granule) :
  ∀ latest latest_ts latest' latest_ts',
    latest_loop (Some (latest, latest_ts)) rest = Ok (Some (latest', latest_ts')) →
    ∀ r c y, cell latest' r c = Some y →
      cell latest r c = Some y ∨ ∃ g, g ∈ rest ∧ cell g.2 r c = Some y.
Proof.
  induction rest as [|[end_ts grid] rest IH];
    intros latest latest_ts latest' latest_ts' Hloop r c y Hy.
  - simpl in Hloop. simplify_eq. by left.
  - cbn [latest_loop latest_step] in Hloop.
    destruct (same_shape (map (map isfinite) grid) latest);
      cbn [negb rbind] in Hloop; [|done].
    destruct (IH _ _ _ _ Hloop r c y Hy) as [Hold|(g & Hg & Hgy)].
    + rewrite cell_zip_with2 in Hold.
      destruct (cell latest r c) as [old|]; simpl in Hold; [|done].
      destruct (cell grid r c) as [new|] eqn:Hnew; simpl in Hold; [|done].
      destruct (isfinite new); simplify_eq.
      * right. exists (end_ts, grid). split; [apply list_elem_of_here|done].
      * by left.
    + right. exists g. split; [by apply list_elem_of_further|done].
Qed.

Lemma sanitize_grid_shape (grid : ndarray) (product : string) :
  map length (sanitize_grid grid product) = map length grid.
Proof. rewrite sanitize_grid_cells. cbv zeta. apply shape_map. Qed.

Lemma sanitize_grid_in_domain (grid : ndarray) (product : string) r c y :
  cell (sanitize_grid grid product) r c = Some y →
  let s := default (mkSpec false 0 (Qc_of_Z 1)) (SPEC !! product) in
  in_domain (allow_zero s) (min s) (max s) y.
Proof.
  rewrite sanitize_grid_cells, cell_map. cbv zeta.
  destruct (cell grid r c) as [x|]; simpl; [|done]. intros [= <-].
  apply sanitize_cell_in_domain, spec_for_plausible.
Qed.

(** X29.  Every cell of the snapshot that [build_latest] returns is the
    cell, at the same place, of one of the granules of the stack.  For
    the stack that [main] builds, every grid sanitized for the product,
    the snapshot therefore holds only missing cells and values of the
    product's domain. *)
Theorem build_latest_of_sanitized
    (now_ts : Qc) (grids : list granule) (product : string)
    latest age_h (newest_end_ts : Z) (r c : nat) (y : float) :
  build_latest now_ts (map (λ g : granule, (g.1, sanitize_grid g.2 product)) grids)
  = Ok (latest, age_h, newest_end_ts) →
  cell latest r c = Some y →
  (∃ g, g ∈ grids ∧ cell (sanitize_grid g.2 product) r c = Some y) ∧
  let s := default (mkSpec false 0 (Qc_of_Z 1)) (SPEC !! product) in
  in_domain (allow_zero s) (min s) (max s) y.
Proof.
  intros Hbuild Hy.
  assert (Hfrom : ∃ g, g ∈ grids ∧ cell (sanitize_grid g.2 product) r c = Some y).
  { set (stack := map (λ g : granule, (g.1, sanitize_grid g.2 product)) grids) in *.
    assert (∃ g', g' ∈ stack ∧ cell g'.2 r c = Some y) as (g' & Hg' & Hc).
    { destruct stack as [|g0 rest] eqn:Hstack; [done|].
      unfold build_latest in Hbuild.
      pose proof (time_sort_perm (g0 :: rest)) as Hperm.
      destruct (stable_sort _ (g0 :: rest)) as [|[t1 grid1] s] eqn:Hs.
      { by apply Permutation_nil_cons in Hperm. }
      destruct (latest_loop None ((t1, grid1) :: s)) as [[[l t]|]|e] eqn:Hloop;
        cbn [rbind] in Hbuild; [|done..].
      injection Hbuild as <- _ _.
      cbn [latest_loop latest_step rbind] in Hloop.
      destruct (latest_loop_takes_cells _ _ _ _ _ Hloop r c y Hy)
        as [H1|(g & Hg & Hgy)].
      - exists (t1, grid1). split; [|done]. rewrite <- Hperm. apply list_elem_of_here.
      - exists g. split; [|done]. rewrite <- Hperm. by apply list_elem_of_further. }
    apply list_elem_of_fmap in Hg' as (g & -> & Hg). by exists g. }
  split; [done|].
  destruct Hfrom as (g & _ & Hg). by apply sanitize_grid_in_domain in Hg.
Qed.

Lemma build_latest_of_sanitized_witness :
  (∃ g, g ∈ [(10%Z, [[of_Z 900; NInf]]); (20%Z, [[NaN; of_Z 3]])]
        ∧ cell (sanitize_grid g.2 "o3tot") 0 0 = Some (of_Z 700)) ∧
  let s := default (mkSpec false 0 (Qc_of_Z 1)) (SPEC !! "o3tot") in
  in_domain (allow_zero s) (min s) (max s) (of_Z 700).
Proof.
  apply (build_latest_of_sanitized (Qc_of_Z 3620)
           [(10%Z, [[of_Z 900; NInf]]); (20%Z, [[NaN; of_Z 3]])] "o3tot"
           [[of_Z 700; of_Z 3]] [[Fin (Qc_of_Z 361 / Qc_of_Z 360); Fin (Qc_of_Z 1)]]
           20%Z 0 0 (of_Z 700)).
  - compute_done.
  - reflexivity.
Defined.

End SanitizedSummaries.

(** ** The hour-of-day means of sanitized grids *)

Section HodResanitize.

Import Summaries.

Lemma sum_Qc_bounds (l : list Qc) (lo hi : Qc) :
  Forall (λ q, lo ≤ q ∧ q ≤ hi) l →
  Qc_of_Z (Z.of_nat (length l)) * lo ≤ sum_Qc l ∧
  sum_Qc l ≤ Qc_of_Z (Z.of_nat (length l)) * hi.
Proof.
  induction 1 as [|x l [Hlo Hhi] _ [IH1 IH2]].
  - change (Qc_of_Z (Z.of_nat (length []))) with (Qc_of_Z 0).
    rewrite Qc_of_Z_0, !Qcmult_0_l. unfold sum_Qc. cbn [foldr].
    split; apply Qcle_refl.
  - cbn [length]. change (sum_Qc (x :: l)) with (x + sum_Qc l).
    rewrite Nat2Z.inj_succ, <- Z.add_1_r. unfold Qcle in *.
    rewrite this_mult, this_of_Z in IH1, IH2.
    rewrite !this_plus, !this_mult, !this_of_Z, inject_Z_plus.
    change (inject_Z 1) with 1%Q.
    set (N := inject_Z (Z.of_nat (length l))) in *. clearbody N. split; lra.
Qed.

Lemma sum_Qc_pos (l : list Qc) :
  Forall (λ q, 0 < q) l → 0 ≤ sum_Qc l ∧ (l ≠ [] → 0 < sum_Qc l).
Proof.
  induction 1 as [|x l Hx _ [IH1 _]].
  - unfold sum_Qc. cbn [foldr]. split; [apply Qcle_refl|done].
  - change (sum_Qc (x :: l)) with (x + sum_Qc l). unfold Qcle, Qclt in *.
    rewrite !this_plus. change (this (Q2Qc 0)) with 0%Q in *.
    split; [lra|intros _; lra].
Qed.

Lemma length_pos_Q {A} (l : list A) :
  l ≠ [] → (0 < inject_Z (Z.of_nat (length l)))%Q.
Proof.
  intros Hl. change 0%Q with (inject_Z 0). rewrite <- Zlt_Qlt.
  destruct l; simpl; [done|lia].
Qed.

(** The mean of values of an interval lies in the interval, and the mean
    of positive values is positive. *)
Lemma mean_bounds (l : list Qc) (lo hi : Qc) :
  l ≠ [] → Forall (λ q, lo ≤ q ∧ q ≤ hi) l →
  lo ≤ sum_Qc l / Qc_of_Z (Z.of_nat (length l)) ∧
  sum_Qc l / Qc_of_Z (Z.of_nat (length l)) ≤ hi.
Proof.
  intros Hl Hall. destruct (sum_Qc_bounds l lo hi Hall) as [H1 H2].
  pose proof (length_pos_Q l Hl) as Hn.
  unfold Qcle in *. rewrite this_mult, this_of_Z in H1, H2.
  rewrite this_div, this_of_Z. split.
  - apply Qle_shift_div_l; [done|]. lra.
  - apply Qle_shift_div_r; [done|]. lra.
Qed.

Lemma mean_pos (l : list Qc) :
  l ≠ [] → Forall (λ q, 0 < q) l →
  0 < sum_Qc l / Qc_of_Z (Z.of_nat (length l)).
Proof.
  intros Hl Hall. destruct (sum_Qc_pos l Hall) as [_ Hs]. specialize (Hs Hl).
  pose proof (length_pos_Q l Hl) as Hn.
  unfold Qclt in *. rewrite this_div, this_of_Z.
  change (this (Q2Qc 0)) with 0%Q in *.
  apply Qlt_shift_div_l; [done|]. lra.
Qed.

Lemma map_map_fixed {A} (f : A → A) (a : list (list A)) :
  (∀ r c x, cell a r c = Some x → f x = x) → map (map f) a = a.
Proof.
  intros Hfix. apply list_eq. intros r. rewrite list_lookup_fmap.
  destruct (a !! r) as [row|] eqn:Hr; simpl; [|done]. f_equal.
  apply list_eq. intros c. rewrite list_lookup_fmap.
  destruct (row !! c) as [x|] eqn:Hc; simpl; [|done]. f_equal.
  apply (Hfix r c). unfold cell. by rewrite Hr.
Qed.

Lemma hod_mean_cell_inv H W mph sum_h cnt_h r c x :
  cell (hod_mean H W mph sum_h cnt_h) r c = Some x → (r < H)%nat ∧ (c < W)%nat.
Proof.
  assert (Hfull : ∀ y : float, cell (full H W NaN) r c = Some y →
                               (r < H)%nat ∧ (c < W)%nat).
  { intros y Hy. apply in_shape_replicate. rewrite <- (shape_full H W NaN).
    apply cell_in_shape. by eexists. }
  unfold hod_mean. destruct (any _).
  - rewrite cell_zip_with2.
    destruct (cell (full H W NaN) r c) as [y|] eqn:E; simpl; [|done].
    intros _. by apply (Hfull y).
  - apply Hfull.
Qed.

Lemma contributions_from_cells h lon cells q :
  q ∈ contributions h lon cells → ∃ t, (t, Fin q) ∈ cells.
Proof.
  unfold contributions. intros ([t v] & Hin & Hf)%list_elem_of_omap.
  simpl in Hf. destruct v as [q'| | |]; try done.
  case_bool_decide; [|done]. simplify_eq. by exists t.
Qed.

Lemma sanitize_cell_nan az lo hi : sanitize_cell az lo hi NaN = NaN.
Proof. by destruct az. Qed.

(** X30.  The hour-of-day means of grids that were sanitized for a
    product are missing cells or values of the product's domain again
    (the mean of values of an interval lies in the interval), so the
    pass of [sanitize_grid] that [main] makes over the 24 grids of
    [build_hod] changes no cell. *)
Theorem hod_resanitize_identity
    (grids : list granule) (lon : list Qc) (H : nat) (min_per_hour : Z)
    (product : string) :
  grids ≠ [] →
  Forall (λ g : granule, map length g.2 = replicate H (length lon)) grids →
  (Z.of_nat (length grids) < 2 ^ 31)%Z →
  ∃ hod_grids counts,
    build_hod (map (λ g : granule, (g.1, sanitize_grid g.2 product)) grids)
              (tile_lon lon H) min_per_hour
    = Ok (hod_grids, counts) ∧
    Forall (λ hg, sanitize_grid hg product = hg) hod_grids.
Proof.
  intros Hne Hshape Hlen.
  destruct grids as [|[t0 g0] grest] eqn:Hgrids; [done|]. rewrite <- Hgrids in *.
  set (stack := map (λ g : granule, (g.1, sanitize_grid g.2 product)) grids).
  assert (Hshape' : Forall (λ g : granule, map length g.2 = replicate H (length lon))
                           stack).
  { unfold stack. rewrite Forall_fmap. eapply Forall_impl; [exact Hshape|].
    intros g Hg. simpl. by rewrite sanitize_grid_shape. }
  assert (Hlen' : (Z.of_nat (length stack) < 2 ^ 31)%Z).
  { unfold stack. by rewrite length_map. }
  assert (Hlon : map length (tile_lon lon H) = replicate H (length lon)).
  { unfold tile_lon. apply fmap_replicate. }
  destruct (hod_loop_from_init H (length lon) (tile_lon lon H) stack Hshape' Hlon)
    as (st & Hloop & Hwf & Hview & _).
  assert (Hstack : stack
                   = (t0, sanitize_grid g0 product)
                     :: map (λ g : granule, (g.1, sanitize_grid g.2 product)) grest).
  { unfold stack. by rewrite Hgrids. }
  assert (Hg0 : map length (sanitize_grid g0 product) = replicate H (length lon)).
  { rewrite Hstack in Hshape'. by apply Forall_cons in Hshape' as [? _]. }
  rewrite Hstack.
  rewrite build_hod_unfold, (hod_init_shape_of _ _ _ Hg0), <- Hstack, Hloop.
  cbn [rbind]. eexists _, _. split; [reflexivity|].
  assert (Hin : ∀ g', g' ∈ stack → ∃ g : granule, g' = (g.1, sanitize_grid g.2 product)).
  { intros g' (g & -> & _)%list_elem_of_fmap. by exists g. }
  clear Hstack. clearbody stack.
  apply Forall_lookup_2. intros h hg Hhg.
  apply lookup_zip_with_Some in Hhg as (sum_h & cnt_h & -> & Hs & Hcn).
  rewrite (hod_mean_shape_of _ _ _ _ _ _ Hg0).
  assert (Hh : (h < 24)%nat).
  { destruct Hwf as (Hls & _). rewrite <- Hls. by eapply lookup_lt_Some. }
  rewrite sanitize_grid_cells. cbv zeta. apply map_map_fixed.
  intros r c x Hx.
  pose proof (spec_for_plausible product) as Hpl. cbv zeta in Hpl.
  set (s := default (mkSpec false 0 (Qc_of_Z 1)) (SPEC !! product)) in *.
  destruct (hod_mean_cell_inv _ _ _ _ _ _ _ _ Hx) as [Hr Hc].
  destruct (lookup_lt_is_Some_2 lon c Hc) as [lon_deg Hlo].
  assert (Hl : cell (tile_lon lon H) r c = Some lon_deg).
  { unfold cell, tile_lon. by rewrite lookup_replicate_2. }
  specialize (Hview h r c lon_deg Hh Hl).
  rewrite cell_hod_fold in Hview by (rewrite ?cells_at_length; lia).
  apply hod_view_Some in Hview as (sum_h' & cnt_h' & Hs' & Hcn' & Hsc & Hnc).
  rewrite Hs in Hs'. rewrite Hcn in Hcn'.
  injection Hs' as <-. injection Hcn' as <-.
  rewrite (hod_mean_cell _ _ _ _ _ _ _ _ _ Hr Hc Hsc Hnc) in Hx.
  injection Hx as <-.
  set (bucket := contributions h lon_deg (cells_at stack r c)) in *.
  case_bool_decide; [|apply sanitize_cell_nan].
  rewrite Qcplus_0_l. change (0 + Z.of_nat (length bucket))%Z
    with (Z.of_nat (length bucket)).
  destruct bucket as [|q0 bucket'] eqn:Hb.
  { unfold sum_Qc. cbn. apply sanitize_cell_nan. }
  rewrite <- Hb in *.
  assert (Hbne : bucket ≠ []) by (by rewrite Hb).
  assert (Hdom : Forall (λ q, in_domain (allow_zero s) (min s) (max s) (Fin q)) bucket).
  { rewrite Forall_forall. intros q Hq.
    apply contributions_from_cells in Hq as [t Hq].
    unfold cells_at in Hq. apply list_elem_of_fmap in Hq as (g' & Heq & Hg').
    apply Hin in Hg' as (g & ->).
    simpl in Heq. injection Heq as _ Heq.
    destruct (cell (sanitize_grid g.2 product) r c) as [v|] eqn:Hv;
      simpl in Heq; [|done].
    subst v. by apply sanitize_grid_in_domain in Hv. }
  assert (Hbnd : Forall (λ q, min s ≤ q ∧ q ≤ max s) bucket).
  { eapply Forall_impl; [exact Hdom|]. intros q [Hq|(q' & [= <-] & ? & ? & _)]; done. }
  unfold div_count.
  rewrite bool_decide_eq_false_2 by (rewrite Hb; simpl; lia).
  destruct (mean_bounds bucket _ _ Hbne Hbnd) as [Hlo' Hhi'].
  apply sanitize_cell_fixed; [done..|].
  intros Haz. apply mean_pos; [done|].
  eapply Forall_impl; [exact Hdom|].
  intros q [Hq|(q' & [= <-] & _ & _ & Hpos)]; [done|]. by apply Hpos.
Qed.

Lemma hod_resanitize_identity_witness :
  ∃ hod_grids counts,
    build_hod (map (λ g : granule, (g.1, sanitize_grid g.2 "o3tot"))
                   [(0%Z, [[of_Z 900]]); (60%Z, [[of_Z 300]])])
              (tile_lon [Qc_of_Z 75] 1) 2
    = Ok (hod_grids, counts) ∧
    Forall (λ hg, sanitize_grid hg "o3tot" = hg) hod_grids.
Proof.
  apply (hod_resanitize_identity [(0%Z, [[of_Z 900]]); (60%Z, [[of_Z 300]])]
           [Qc_of_Z 75] 1 2 "o3tot").
  - discriminate.
  - repeat constructor.
  - simpl. lia.
Defined.

End HodResanitize.
